(** * commit-coach: the suggestion orchestration core

    A shallow embedding of the Go packages [internal/domain],
    [internal/ports], [internal/security], [internal/adapters/cache],
    [internal/adapters/git] and [internal/app], together with the parts of
    the Go runtime they call ([unicode/utf8], [unicode], [strings], [fmt],
    [regexp], [crypto/sha256]).

    Conventions.
    - A Go [string] is a sequence of bytes: it is a Rocq [string] (a list of
    8-bit [ascii]); [len(s)] is [String.length s], [s[i:j]] is
    [slice s i j].
    - A Go [error] is [option error] ([None] is [nil]); a function returning
    [(T, error)] through a port returns a pair, the methods of the services
    return an [outcome].
    - A [context.Context] carries only deadlines and cancellation; what a
    cancelled call returns is part of the result of the port it is passed
    to, so contexts are not represented. *)

From Stdlib Require Import ZArith Ascii String List Lia DecimalString.
From stdpp Require Import base gmap strings list.

Set Default Proof Using "Type".

(** ** Bytes *)

Definition byte (c : ascii) : Z := Z.of_N (N_of_ascii c).
Definition chr (n : Z) : ascii := ascii_of_N (Z.to_N n).

(** [s[i]] for an index in range (0 otherwise; the callers below only index
    in range). *)
Definition idx (s : string) (i : Z) : Z :=
  if (i <? 0)%Z then 0%Z
  else match String.get (Z.to_nat i) s with Some c => byte c | None => 0%Z end.

Definition len (s : string) : Z := Z.of_nat (String.length s).

(** [s[i:j]] for [0 <= i <= j <= len(s)]. *)
Definition slice (s : string) (i j : Z) : string :=
  substring (Z.to_nat i) (Z.to_nat (j - i)) s.

Definition slice_from (s : string) (i : Z) : string := slice s i (len s).

(** ** Package errors and fmt *)

(** An error built by [errors.New] or by [fmt.Errorf] without [%w] is its
    message; [fmt.Errorf] with [%w] keeps the formatted message and the
    wrapped error. *)
Inductive error : Type :=
| errorString (s : string)
| wrapError (msg : string) (err : error).

Definition Error (e : error) : string :=
  match e with
  | errorString s => s
  | wrapError msg _ => msg
  end.

Definition Unwrap (e : error) : option error :=
  match e with
  | errorString _ => None
  | wrapError _ err => Some err
  end.

(** The innermost error of a chain of wraps. *)
Fixpoint root_cause (e : error) : error :=
  match e with
  | errorString _ => e
  | wrapError _ err => root_cause err
  end.

Module fmt.
(** [fmt.Errorf(msg)] where [msg] is already formatted and has no [%w]. *)
Definition Errorf (msg : string) : error := errorString msg.

(** [fmt.Errorf(prefix + "%w", err)]. *)
Definition Errorf_w (prefix : string) (err : error) : error :=
    wrapError (prefix +:+ Error err) err.

(** The verb [%d]. *)
Definition d (n : Z) : string := NilZero.string_of_int (Z.to_int n).

(** The verb [%v] at a slice of strings. *)
Definition v (l : list string) : string :=
    "[" +:+ String.concat " " l +:+ "]".
End fmt.

(** What a function returning [(T, error)] does: it returns a value, returns
    an error, or panics (run-time error of the Go runtime). *)
Inductive outcome (A : Type) : Type :=
| Return (a : A)
| Fail (e : error)
| Panic (msg : string).
Arguments Return {A} a.
Arguments Fail {A} e.
Arguments Panic {A} msg.

(** ** Package unicode/utf8 *)

Module utf8.
Local Open Scope Z_scope.
Definition RuneError : Z := 0xFFFD.
Definition RuneSelf : Z := 0x80.
Definition UTFMax : nat := 4%nat.
Definition MaxRune : Z := 0x10FFFF.

(** The table [first]: information about the first byte of an encoding.
    [as_] is ASCII, [xx] is invalid, otherwise the low three bits are the
    size and the high four bits index [acceptRanges]. *)
Definition xx : Z := 0xF1.
Definition as_ : Z := 0xF0.

Definition first (b : Z) : Z :=
    if (b <? 0x80)%Z then as_
    else if (b <? 0xC2)%Z then xx
    else if (b <? 0xE0)%Z then 0x02
    else if (b =? 0xE0)%Z then 0x13
    else if (b <? 0xED)%Z then 0x03
    else if (b =? 0xED)%Z then 0x23
    else if (b <? 0xF0)%Z then 0x03
    else if (b =? 0xF0)%Z then 0x34
    else if (b <? 0xF4)%Z then 0x04
    else if (b =? 0xF4)%Z then 0x44
    else xx.

(** [acceptRanges]: the bounds of the second byte. *)
Definition acceptRanges (i : Z) : Z * Z :=
    if (i =? 1)%Z then (0xA0, 0xBF)
    else if (i =? 2)%Z then (0x80, 0x9F)
    else if (i =? 3)%Z then (0x90, 0xBF)
    else if (i =? 4)%Z then (0x80, 0x8F)
    else (0x80, 0xBF).

Definition locb : Z := 0x80.
Definition hicb : Z := 0xBF.

Definition DecodeRuneInString (s : string) : Z * nat :=
    let n := len s in
    if (n <? 1)%Z then (RuneError, 0%nat) else
    let s0 := idx s 0 in
    let x := first s0 in
    if (as_ <=? x)%Z then ((if (x =? as_)%Z then s0 else RuneError), 1%nat) else
    let sz := Z.land x 7 in
    let accept := acceptRanges (Z.shiftr x 4) in
    if (n <? sz)%Z then (RuneError, 1%nat) else
    let s1 := idx s 1 in
    if ((s1 <? fst accept) || (snd accept <? s1))%Z then (RuneError, 1%nat) else
    if (sz <=? 2)%Z then
      (Z.lor (Z.shiftl (Z.land s0 0x1F) 6) (Z.land s1 0x3F), 2%nat) else
    let s2 := idx s 2 in
    if ((s2 <? locb) || (hicb <? s2))%Z then (RuneError, 1%nat) else
    if (sz <=? 3)%Z then
      (Z.lor (Z.lor (Z.shiftl (Z.land s0 0x0F) 12) (Z.shiftl (Z.land s1 0x3F) 6))
             (Z.land s2 0x3F), 3%nat) else
    let s3 := idx s 3 in
    if ((s3 <? locb) || (hicb <? s3))%Z then (RuneError, 1%nat) else
    (Z.lor (Z.lor (Z.lor (Z.shiftl (Z.land s0 0x07) 18) (Z.shiftl (Z.land s1 0x3F) 12))
                  (Z.shiftl (Z.land s2 0x3F) 6))
           (Z.land s3 0x3F), 4%nat).

(** [RuneStart(b)]: [b] is not a continuation byte. *)
Definition RuneStart (b : Z) : bool := negb (Z.land b 0xC0 =? 0x80)%Z.

(** The loop of [DecodeLastRuneInString] that walks back to a start byte:
    [for start--; start >= lim; start-- { if RuneStart(s[start]) { break } }],
    entered with [start] already decremented. It runs at most [UTFMax]
    times. *)
Fixpoint back_to_start (n : nat) (s : string) (start lim : Z) : Z :=
    match n with
    | O => start
    | S n' =>
        if (lim <=? start)%Z then
          if RuneStart (idx s start) then start
          else back_to_start n' s (start - 1)%Z lim
        else start
    end.

Definition DecodeLastRuneInString (s : string) : Z * nat :=
    let end_ := len s in
    if (end_ =? 0)%Z then (RuneError, 0%nat) else
    let start := (end_ - 1)%Z in
    let r := idx s start in
    if (r <? RuneSelf)%Z then (r, 1%nat) else
    let lim := Z.max 0 (end_ - Z.of_nat UTFMax) in
    let start := back_to_start UTFMax s (start - 1)%Z lim in
    let start := Z.max 0 start in
    let '(r, size) := DecodeRuneInString (slice s start end_) in
    if negb (start + Z.of_nat size =? end_)%Z then (RuneError, 1%nat) else (r, size).

(** [for i, r := range s]: the runes of [s] with the byte offset of each.
    [skip] counts the bytes of the current rune still to be passed. *)
Fixpoint range_go (skip : nat) (i : Z) (s : string) : list (Z * Z) :=
    match s with
    | EmptyString => []
    | String _ t =>
        match skip with
        | S k => range_go k (i + 1)%Z t
        | O =>
            let '(r, size) := DecodeRuneInString s in
            (i, r) :: range_go (size - 1)%nat (i + 1)%Z t
        end
    end.

Definition range (s : string) : list (Z * Z) := range_go 0 0 s.

Definition surrogateMin : Z := 0xD800.
Definition surrogateMax : Z := 0xDFFF.

(** [AppendRune(nil, r)] as a string. *)
Definition EncodeRune (r : Z) : string :=
    let b (n : Z) := String (chr n) EmptyString in
    if ((0 <=? r) && (r <? RuneSelf))%Z then b r
    else if ((0 <=? r) && (r <=? 0x7FF))%Z then
      b (Z.lor 0xC0 (Z.shiftr r 6)) +:+ b (Z.lor 0x80 (Z.land r 0x3F))
    else if ((0 <=? r) && (r <=? 0xFFFF) && ((r <? surrogateMin) || (surrogateMax <? r)))%Z then
      b (Z.lor 0xE0 (Z.shiftr r 12)) +:+ b (Z.lor 0x80 (Z.land (Z.shiftr r 6) 0x3F))
        +:+ b (Z.lor 0x80 (Z.land r 0x3F))
    else if ((0xFFFF <? r) && (r <=? MaxRune))%Z then
      b (Z.lor 0xF0 (Z.shiftr r 18)) +:+ b (Z.lor 0x80 (Z.land (Z.shiftr r 12) 0x3F))
        +:+ b (Z.lor 0x80 (Z.land (Z.shiftr r 6) 0x3F)) +:+ b (Z.lor 0x80 (Z.land r 0x3F))
    else b 0xEF +:+ b 0xBF +:+ b 0xBD.
End utf8.

(** ** Package unicode *)

(** The tables of the Go runtime that are data, not code: the Unicode case
    mapping above ASCII and the quoting of the verb [%q] (which prints a rune
    as it is or escaped according to the table of printable runes). *)
Class UnicodeTables : Type := {
(** [unicode.ToLower] at a rune above [MaxASCII]. *)
  toLower_nonASCII : Z -> Z;
(** [strconv.Quote]. *)
  strconv_Quote : string -> string
}.

Module unicode.
Local Open Scope Z_scope.
Definition MaxLatin1 : Z := 0xFF.
Definition MaxASCII : Z := 0x7F.

Definition IsSpace (r : Z) : bool :=
    if ((0 <=? r) && (r <=? MaxLatin1))%Z then
      ((r =? 0x09) || (r =? 0x0A) || (r =? 0x0B) || (r =? 0x0C) || (r =? 0x0D)
       || (r =? 0x20) || (r =? 0x85) || (r =? 0xA0))%Z
    else
      (* the table White_Space outside Latin-1 *)
      ((r =? 0x1680) || ((0x2000 <=? r) && (r <=? 0x200A)) || (r =? 0x2028)
       || (r =? 0x2029) || (r =? 0x202F) || (r =? 0x205F) || (r =? 0x3000))%Z.

(** Category Cc: only Latin-1 has control characters. *)
Definition IsControl (r : Z) : bool :=
    if ((0 <=? r) && (r <=? MaxLatin1))%Z then
      ((r <=? 0x1F) || ((0x7F <=? r) && (r <=? 0x9F)))%Z
    else false.

Definition ToLower {tables : UnicodeTables} (r : Z) : Z :=
    if ((0 <=? r) && (r <=? MaxASCII))%Z then
      if ((0x41 <=? r) && (r <=? 0x5A))%Z then (r + 0x20)%Z else r
    else toLower_nonASCII r.
End unicode.

(** ** Package strings *)

Module strings.
Local Open Scope Z_scope.
(** [asciiSpace]. *)
Definition asciiSpace (c : Z) : bool :=
    ((c =? 0x09) || (c =? 0x0A) || (c =? 0x0B) || (c =? 0x0C) || (c =? 0x0D) || (c =? 0x20))%Z.

(** [indexFunc(s, f, truth)]: the offset of the first rune [r] with
    [f(r) == truth], or -1. *)
Definition indexFunc (s : string) (f : Z -> bool) (truth : bool) : Z :=
    match List.find (fun ir => Bool.eqb (f (snd ir)) truth) (utf8.range s) with
    | Some ir => fst ir
    | None => (-1)%Z
    end.

(** [lastIndexFunc(s, f, truth)]:
    [for i := len(s); i > 0; { r, size := DecodeLastRuneInString(s[0:i]); i -= size; ... }].
    Every turn takes at least one byte off, so [len(s)] turns are enough. *)
Fixpoint lastIndexFunc_go (n : nat) (s : string) (f : Z -> bool) (truth : bool) (i : Z) : Z :=
    match n with
    | O => (-1)%Z
    | S n' =>
        if (0 <? i)%Z then
          let '(r, size) := utf8.DecodeLastRuneInString (slice s 0 i) in
          let i := (i - Z.of_nat size)%Z in
          if Bool.eqb (f r) truth then i else lastIndexFunc_go n' s f truth i
        else (-1)%Z
    end.

Definition lastIndexFunc (s : string) (f : Z -> bool) (truth : bool) : Z :=
    lastIndexFunc_go (S (String.length s)) s f truth (len s).

Definition TrimLeftFunc (s : string) (f : Z -> bool) : string :=
    let i := indexFunc s f false in
    if (i =? -1)%Z then EmptyString else slice_from s i.

Definition TrimRightFunc (s : string) (f : Z -> bool) : string :=
    let i := lastIndexFunc s f false in
    let i :=
      if ((0 <=? i) && (utf8.RuneSelf <=? idx s i))%Z then
        (i + Z.of_nat (snd (utf8.DecodeRuneInString (slice_from s i))))%Z
      else (i + 1)%Z in
    slice s 0 i.

Definition TrimFunc (s : string) (f : Z -> bool) : string :=
    TrimRightFunc (TrimLeftFunc s f) f.

(** The first loop of [TrimSpace]: [Some start] when it stops at an ASCII
    byte that is not a space or at the end, [None] when it runs into a
    byte that is not ASCII (at offset [start]). *)
Fixpoint TrimSpace_start (s : string) (start : Z) : Z * bool :=
    match s with
    | EmptyString => (start, true)
    | String c t =>
        if (utf8.RuneSelf <=? byte c)%Z then (start, false)
        else if asciiSpace (byte c) then TrimSpace_start t (start + 1)%Z
        else (start, true)
    end.

(** The second loop, from the end: [for ; stop > start; stop-- ]. *)
Fixpoint TrimSpace_stop (n : nat) (s : string) (start stop : Z) : Z * bool :=
    match n with
    | O => (stop, true)
    | S n' =>
        if (start <? stop)%Z then
          let c := idx s (stop - 1) in
          if (utf8.RuneSelf <=? c)%Z then (stop, false)
          else if asciiSpace c then TrimSpace_stop n' s start (stop - 1)%Z
          else (stop, true)
        else (stop, true)
    end.

Definition TrimSpace (s : string) : string :=
    let '(start, ascii1) := TrimSpace_start s 0 in
    if negb ascii1 then TrimFunc (slice_from s start) unicode.IsSpace else
    let '(stop, ascii2) := TrimSpace_stop (String.length s) s start (len s) in
    if negb ascii2 then TrimRightFunc (slice s start stop) unicode.IsSpace else
    slice s start stop.

(** [Map(mapping, s)]: the runes of [s] mapped and encoded again (a rune
    mapped to a negative value is dropped); a byte that is not part of a
    valid encoding is read as [RuneError] and written as its encoding. *)
Definition Map (mapping : Z -> Z) (s : string) : string :=
    String.concat EmptyString
      (List.map (fun ir => let r := mapping (snd ir) in
                           if (0 <=? r)%Z then utf8.EncodeRune r else EmptyString)
                (utf8.range s)).

Fixpoint isASCII (s : string) : bool :=
    match s with
    | EmptyString => true
    | String c t => if (utf8.RuneSelf <=? byte c)%Z then false else isASCII t
    end.

Fixpoint lowerASCII (s : string) : string :=
    match s with
    | EmptyString => EmptyString
    | String c t =>
        let b := byte c in
        String (if ((0x41 <=? b) && (b <=? 0x5A))%Z then chr (b + 0x20) else c) (lowerASCII t)
    end.

(** [ToLower]: the ASCII fast path, or [Map(unicode.ToLower, s)]. *)
Definition ToLower {tables : UnicodeTables} (s : string) : string :=
    if isASCII s then lowerASCII s else Map unicode.ToLower s.

(** [Contains(s, substr)]. *)
Definition Contains (s substr : string) : bool :=
    match String.index 0 substr s with Some _ => true | None => false end.

(** [Index(s, substr)]: the offset of the first instance of [substr] in
    [s], or -1. *)
Definition Index (s substr : string) : Z :=
    match String.index 0 substr s with Some i => Z.of_nat i | None => (-1)%Z end.

(** The loop of [Count] for a [substr] that is not empty:
    [for { i := Index(s, substr); if i == -1 { return n }; n++; s = s[i+len(substr):] }].
    Every turn takes a byte off, so [len(s) + 1] turns are enough. *)
Fixpoint Count_go (fuel : nat) (s substr : string) (n : Z) : Z :=
    match fuel with
    | O => n
    | S fuel' =>
        let i := Index s substr in
        if (i =? -1)%Z then n
        else Count_go fuel' (slice_from s (i + len substr)) substr (n + 1)%Z
    end.

(** [Count(s, substr)]: the instances of [substr] in [s] that do not
    overlap; for the empty [substr], one more than the runes of [s]. *)
Definition Count (s substr : string) : Z :=
    if (len substr =? 0)%Z then (Z.of_nat (length (utf8.range s)) + 1)%Z
    else Count_go (S (String.length s)) s substr 0.

(** The loop of [genSplit] with [sepSave = 0], entered with [n] set to
    [Count(s, sep)]:
    [for i < n { m := Index(s, sep); if m < 0 { break }; a[i] = s[:m]; s = s[m+len(sep):]; i++ }; a[i] = s]. *)
Fixpoint Split_go (n : nat) (s sep : string) : list string :=
    match n with
    | O => [s]
    | S n' =>
        let m := Index s sep in
        if (m <? 0)%Z then [s]
        else slice s 0 m :: Split_go n' (slice_from s (m + len sep)) sep
    end.

(** [Split(s, sep)] for a separator that is not empty (the branch
    [explode] of [genSplit], for the empty separator, is not represented;
    the callers below split at a newline). *)
Definition Split (s sep : string) : list string :=
    Split_go (Z.to_nat (Count s sep)) s sep.

(** [FieldsFunc(s, f)]: the loop [for end, rune := range s] keeps the
    start of the current field ([start < 0]: no field is open) and the
    spans found; the fields are the slices of the spans. *)
Definition FieldsFunc_step (f : Z -> bool) (st : Z * list (Z * Z)) (ir : Z * Z)
    : Z * list (Z * Z) :=
    let '(start, spans) := st in
    let '(end_, rune) := ir in
    if f rune then
      if (0 <=? start)%Z then (Z.lnot start, spans ++ [(start, end_)]) else (start, spans)
    else
      if (start <? 0)%Z then (end_, spans) else (start, spans).

Definition FieldsFunc (s : string) (f : Z -> bool) : list string :=
    let '(start, spans) := List.fold_left (FieldsFunc_step f) (utf8.range s) ((-1)%Z, []) in
    let spans := if (0 <=? start)%Z then spans ++ [(start, len s)] else spans in
    List.map (fun span => slice s (fst span) (snd span)) spans.

(** The ASCII fast path of [Fields]: the bytes of [s] are passed once;
    [field] is the field that is open, if one is. *)
Fixpoint Fields_ascii (s : string) (field : option string) : list string :=
    match s with
    | EmptyString => match field with Some w => [w] | None => [] end
    | String c t =>
        if asciiSpace (byte c) then
          match field with
          | Some w => w :: Fields_ascii t None
          | None => Fields_ascii t None
          end
        else
          Fields_ascii t (Some (match field with
                                | Some w => w +:+ String c EmptyString
                                | None => String c EmptyString
                                end))
    end.

(** [Fields(s)]: [s] split around the runs of white space. *)
Definition Fields (s : string) : list string :=
    if isASCII s then Fields_ascii s None else FieldsFunc s unicode.IsSpace.
End strings.

(** ** Package internal/observability *)

Module observability.
Local Open Scope Z_scope.

(** The ellipsis U+2026 in UTF-8. *)
Definition ellipsis : string :=
    String (chr 0xE2) (String (chr 0x80) (String (chr 0xA6) EmptyString)).

(** The loop of [Snip]:
    [for idx < len(s) { if n >= maxRunes { break }; _, size := DecodeRuneInString(s[idx:]); if size <= 0 { break }; idx += size; n++ }].
    Every turn moves [idx] on, so [len(s)] turns are enough. *)
Fixpoint Snip_loop (fuel : nat) (s : string) (maxRunes n idx : Z) : Z :=
    match fuel with
    | O => idx
    | S fuel' =>
        if idx <? len s then
          if maxRunes <=? n then idx else
          let '(_, size) := utf8.DecodeRuneInString (slice_from s idx) in
          if (size <=? 0)%nat then idx
          else Snip_loop fuel' s maxRunes (n + 1) (idx + Z.of_nat size)
        else idx
    end.

(** [Snip] returns a safe prefix of [s], capped by rune count. *)
Definition Snip (s : string) (maxRunes : Z) : string :=
    if maxRunes <=? 0 then EmptyString else
    let idx := Snip_loop (String.length s) s maxRunes 0 0 in
    if len s <=? idx then s else slice s 0 idx +:+ ellipsis.
End observability.

(** ** Package regexp *)

(** The expressions the repository compiles, as syntax trees, and the
    backtracking search that gives Go's leftmost-first matches. The search
    works on bytes. An expression of Go ranges over runes; here a class of
    ASCII runes is a class of bytes below 0x80, a rune above ASCII that an
    expression names (the case folds U+017F of [s] and U+212A of [k] under
    [(?i)]) is the sequence of bytes of its encoding, and a negated class of
    one ASCII rune (every rune but the double quote, every rune but the
    newline) is every other byte: a byte of the
    encoding of another rune, or an invalid byte (read as U+FFFD), is not
    that rune. *)
Module regexp.
Inductive re : Type :=
  | Eps                          (* the empty string *)
  | Cls (p : ascii -> bool)      (* one byte of a class *)
  | Cat (a b : re)               (* a b *)
  | Alt (a b : re)               (* a|b, a preferred *)
  | Rep (a : re) (min : nat).    (* a{min,}, greedy *)

(** The turns of a repetition: [step] matches the body once, [n] bounds the
    number of turns, [min] turns are still due. A turn that takes no byte is
    not tried again. *)
Fixpoint rep_loop (step : list ascii -> (list ascii -> option (list ascii)) -> option (list ascii))
    (k : list ascii -> option (list ascii)) (n min : nat) (l : list ascii)
  : option (list ascii) :=
  match n with
  | O => match min with O => k l | S _ => None end
  | S n' =>
      match step l (fun l' => if (length l' <? length l)%nat
                              then rep_loop step k n' (pred min) l' else None) with
      | Some x => Some x
      | None => match min with O => k l | S _ => None end
      end
  end.

(** [run r l k]: match [r] at the start of [l] and pass what is left to
    [k]; the alternatives are tried in the order of preference, the first
    one that [k] accepts wins. As every turn of a repetition takes a byte,
    [length l] turns are enough. *)
Fixpoint run (r : re) (l : list ascii) (k : list ascii -> option (list ascii))
  : option (list ascii) :=
  match r with
  | Eps => k l
  | Cls p =>
      match l with
      | c :: t => if p c then k t else None
      | [] => None
      end
  | Cat a b => run a l (fun l' => run b l' k)
  | Alt a b =>
      match run a l k with
      | Some x => Some x
      | None => run b l k
      end
  | Rep a min => rep_loop (run a) k (length l) min l
  end.

(** The match at the start of [l]: what is left after it. *)
Definition match_here (r : re) (l : list ascii) : option (list ascii) :=
    run r l Some.

(** A compiled expression: [anchored] says that the source starts with
    [^] (without the flag [m]). *)
Record Regexp : Type := { anchored : bool; expr : re }.

(** The leftmost match in [l], as offsets [(start, end)] shifted by [i]. *)
Fixpoint find_go (r : re) (l : list ascii) (i : nat) : option (nat * nat) :=
    match match_here r l with
    | Some rest => Some (i, (i + (length l - length rest))%nat)
    | None =>
        match l with
        | [] => None
        | _ :: t => find_go r t (S i)
        end
    end.

Definition FindStringIndex (re : Regexp) (s : string) : option (nat * nat) :=
    let l := list_ascii_of_string s in
    if anchored re then
      match match_here (expr re) l with
      | Some rest => Some (0, (length l - length rest))%nat
      | None => None
      end
    else find_go (expr re) l 0.

Definition MatchString (re : Regexp) (s : string) : bool :=
    match FindStringIndex re s with Some _ => true | None => false end.

(** The loop of [replaceAll] for a replacement without [$] and an
    expression that is not anchored: the bytes before a match are copied,
    the match is replaced, the search goes on after it. [skip] counts the
    bytes of the current match still to be passed. An expression of the
    redactor matches no empty string; the clause of [replaceAll] for empty
    matches is not represented, an empty match is passed over. *)
Fixpoint replace_go (r : re) (repl : list ascii) (skip : nat) (l : list ascii)
    : list ascii :=
    match l with
    | [] => []
    | c :: t =>
        match skip with
        | S k => replace_go r repl k t
        | O =>
            match match_here r l with
            | Some rest =>
                match (length l - length rest)%nat with
                | O => c :: replace_go r repl 0 t
                | S k => repl ++ replace_go r repl k t
                end
            | None => c :: replace_go r repl 0 t
            end
        end
    end.

Definition ReplaceAllString (re : Regexp) (src repl : string) : string :=
    string_of_list_ascii
      (replace_go (expr re) (list_ascii_of_string repl) 0 (list_ascii_of_string src)).

(** *** Building expressions *)

Definition just (c : ascii) : ascii -> bool := Ascii.eqb c.
Definition between (lo hi : ascii) (c : ascii) : bool :=
    ((byte lo <=? byte c) && (byte c <=? byte hi))%Z.
Definition either (p q : ascii -> bool) (c : ascii) : bool := p c || q c.
Definition except (p : ascii -> bool) (c : ascii) : bool := negb (p c).

(** A literal string. *)
Fixpoint lit (s : string) : re :=
    match s with
    | EmptyString => Eps
    | String c EmptyString => Cls (just c)
    | String c t => Cat (Cls (just c)) (lit t)
    end.

(** The bytes of U+017F (long s) and of U+212A (Kelvin sign): with
    ASCII [S s] and [K k] they form the only orbits of
    [unicode.SimpleFold] that leave ASCII. *)
Definition long_s : re := Cat (Cls (just (chr 0xC5))) (Cls (just (chr 0xBF))).
Definition kelvin : re :=
    Cat (Cls (just (chr 0xE2))) (Cat (Cls (just (chr 0x84))) (Cls (just (chr 0xAA)))).

Definition upper (c : ascii) : ascii :=
    if between "a" "z" c then chr (byte c - 0x20) else c.
Definition lower (c : ascii) : ascii :=
    if between "A" "Z" c then chr (byte c + 0x20) else c.

(** One ASCII character under the flag [i]. *)
Definition chr_i (c : ascii) : re :=
    let both := Cls (either (just (upper c)) (just (lower c))) in
    if Ascii.eqb (lower c) "s" then Alt both long_s
    else if Ascii.eqb (lower c) "k" then Alt both kelvin
    else both.

(** A literal string under the flag [i]. *)
Fixpoint lit_i (s : string) : re :=
    match s with
    | EmptyString => Eps
    | String c EmptyString => chr_i c
    | String c t => Cat (chr_i c) (lit_i t)
    end.

(** A class that holds the ASCII letters, under the flag [i]. *)
Definition cls_i (p : ascii -> bool) : re :=
    Alt (Cls (fun c => p (upper c) || p (lower c))) (Alt long_s kelvin).

(** [a{n}]. *)
Fixpoint times (n : nat) (a : re) : re :=
    match n with
    | O => Eps
    | 1%nat => a
    | S n' => Cat a (times n' a)
    end.

(** [a?], [a*], [a+]. *)
Definition opt (a : re) : re := Alt a Eps.
Definition star (a : re) : re := Rep a 0.
Definition plus (a : re) : re := Rep a 1.

Fixpoint seq (l : list re) : re :=
    match l with
    | [] => Eps
    | [a] => a
    | a :: t => Cat a (seq t)
    end.

Fixpoint alt (l : list re) : re :=
    match l with
    | [] => Cls (fun _ => false)
    | [a] => a
    | a :: t => Alt a (alt t)
    end.

(** The classes [\s], [\d], [[a-zA-Z0-9]] of RE2. *)
Definition space : ascii -> bool :=
    fun c => let b := byte c in
             ((b =? 0x09) || (b =? 0x0A) || (b =? 0x0C) || (b =? 0x0D) || (b =? 0x20))%Z.
Definition digit : ascii -> bool := between "0" "9".
Definition alnum : ascii -> bool :=
    either (between "a" "z") (either (between "A" "Z") digit).
End regexp.

(** ** Package crypto/sha256 and the verb %x *)

Module sha256.
Local Open Scope Z_scope.

Definition w32 (x : Z) : Z := x mod 0x100000000.
Definition rotr (n x : Z) : Z := w32 (Z.lor (Z.shiftr x n) (Z.shiftl x (32 - n))).
Definition add (x y : Z) : Z := w32 (x + y).

(** The first primes: 2, 3, 5, ..., 311. *)
Definition is_prime (n : Z) : bool :=
    List.forallb (fun d => negb (n mod Z.of_nat d =? 0)) (List.seq 2 (Z.to_nat n - 2)).

Definition primes : list Z :=
    List.filter is_prime (List.map Z.of_nat (List.seq 2 310)).

(** The integer cube root, one bit at a time from bit [n] down. *)
Fixpoint cube_root (n : nat) (x r : Z) : Z :=
    match n with
    | O => r
    | S n' =>
        let c := r + 2 ^ Z.of_nat n' in
        cube_root n' x (if c * c * c <=? x then c else r)
    end.

(** The table [_K] of the block function: entry [i] is the first 32 bits
    of the fractional part of the cube root of the prime [i]. *)
Definition K : list Z :=
    Eval vm_compute in List.map (fun p => w32 (cube_root 36 (p * 2 ^ 96) 0)) primes.

(** The constants [init0] to [init7]: the first 32 bits of the fractional
    parts of the square roots of the first eight primes. *)
Definition init : list Z :=
    Eval vm_compute in List.map (fun p => w32 (Z.sqrt (p * 2 ^ 64))) (List.firstn 8 primes).

(** The message with its padding: a bit 1, zeros up to 56 modulo 64 bytes,
    the length in bits as 8 bytes, big endian. *)
Definition be_bytes (n : nat) (x : Z) : list Z :=
    List.map (fun i => Z.land (Z.shiftr x (8 * Z.of_nat (n - 1 - i))) 0xFF) (List.seq 0 n).

Definition pad (msg : list Z) : list Z :=
    let n := Z.of_nat (length msg) in
    let zeros := Z.to_nat ((55 - n) mod 64) in
    msg ++ [0x80] ++ List.repeat 0 zeros ++ be_bytes 8 (8 * n).

Fixpoint be_words (n : nat) (l : list Z) : list Z :=
    match n with
    | O => []
    | S n' =>
        match l with
        | a :: b :: c :: d :: t =>
            Z.lor (Z.lor (Z.lor (Z.shiftl a 24) (Z.shiftl b 16)) (Z.shiftl c 8)) d :: be_words n' t
        | _ => []
        end
    end.

(** The message schedule: [w] holds the words so far, the newest first. *)
Fixpoint schedule (n : nat) (w : list Z) : list Z :=
    match n with
    | O => w
    | S n' =>
        let at_ i := List.nth i w 0 in
        let v1 := at_ 1%nat in
        let v15 := at_ 14%nat in
        let t1 := Z.lxor (Z.lxor (rotr 17 v1) (rotr 19 v1)) (Z.shiftr v1 10) in
        let t2 := Z.lxor (Z.lxor (rotr 7 v15) (rotr 18 v15)) (Z.shiftr v15 3) in
        schedule n' (add (add (add t1 (at_ 6%nat)) t2) (at_ 15%nat) :: w)
    end.

Definition round (st : list Z) (kw : Z * Z) : list Z :=
    match st with
    | [a; b; c; d; e; f; g; h] =>
        let t1 := add (add (add (add h (Z.lxor (Z.lxor (rotr 6 e) (rotr 11 e)) (rotr 25 e)))
                                 (Z.lxor (Z.land e f) (Z.land (Z.lxor e 0xFFFFFFFF) g)))
                            (fst kw)) (snd kw) in
        let t2 := add (Z.lxor (Z.lxor (rotr 2 a) (rotr 13 a)) (rotr 22 a))
                      (Z.lxor (Z.lxor (Z.land a b) (Z.land a c)) (Z.land b c)) in
        [add t1 t2; a; b; c; add d t1; e; f; g]
    | _ => st
    end.

Definition block (st : list Z) (blk : list Z) : list Z :=
    let w := List.rev (schedule 48 (List.rev (be_words 16 blk))) in
    let st' := List.fold_left round (List.combine K w) st in
    List.map (fun p => add (fst p) (snd p)) (List.combine st st').

Fixpoint blocks (n : nat) (st : list Z) (l : list Z) : list Z :=
    match n with
    | O => st
    | S n' => blocks n' (block st (List.firstn 64 l)) (List.skipn 64 l)
    end.

Definition Sum256 (data : string) : list Z :=
    let l := pad (List.map byte (list_ascii_of_string data)) in
    let st := blocks (length l / 64)%nat init l in
    List.concat (List.map (be_bytes 4) st).

(** A running hash: [New()], [io.WriteString(h, s)], [h.Sum(nil)]. *)
Definition New : string := EmptyString.
Definition WriteString (h : string) (s : string) : string := h +:+ s.
Definition Sum (h : string) : list Z := Sum256 h.
End sha256.

Module hex.
Local Open Scope Z_scope.
Definition digit (n : Z) : ascii :=
    if n <? 10 then chr (0x30 + n) else chr (0x61 + (n - 10)).

(** [fmt.Sprintf("%x", b)] at a slice of bytes. *)
Fixpoint x (b : list Z) : string :=
    match b with
    | [] => EmptyString
    | n :: t => String (digit (Z.shiftr n 4)) (String (digit (Z.land n 0xF)) (x t))
    end.
End hex.

(** ** Package internal/domain *)

Module domain.
Import regexp.

(** The enumeration of allowed commit types. *)
Definition ValidCommitTypes : list string :=
    ["feat"; "fix"; "docs"; "style"; "refactor"; "perf"; "test"; "chore"; "build"; "ci"; "revert"].

(** A commit suggestion (field [Type] of the source is [Type_]). *)
Record Suggestion : Type := {
    Type_ : string;
    Subject : string;
    Body : string;
    Footer : string
  }.

(** [isValidType]: the loop over [ValidCommitTypes]. *)
Fixpoint isValidType_in (t : string) (valids : list string) : bool :=
    match valids with
    | [] => false
    | valid :: rest => if String.eqb t valid then true else isValidType_in t rest
    end.

Definition isValidType (t : string) : bool := isValidType_in t ValidCommitTypes.

(** The pattern of [isValidFooter]: BREAKING CHANGE, Closes or Refs at the
    start, a colon, a space and at least one character other than a
    newline. *)
Definition footerPattern : Regexp :=
    {| anchored := true;
       expr := seq [alt [lit "BREAKING CHANGE"; lit "Closes"; lit "Refs"];
                    lit ": ";
                    plus (Cls (except (just "010")))] |}.

Definition isValidFooter (f : string) : bool := MatchString footerPattern f.

(** [hasControlChars]: the loop over the runes of [s]. *)
Definition isControlRune (r : Z) : bool :=
    ((r <? 32) && negb (r =? 0x0A) && negb (r =? 0x09))%Z
    || (r =? 127)%Z
    || (unicode.IsControl r && negb (r =? 0x0A)%Z && negb (r =? 0x09)%Z).

Definition hasControlChars (s : string) : bool :=
    List.existsb (fun ir => isControlRune (snd ir)) (utf8.range s).

Section WithTables.
Context {tables : UnicodeTables}.

(** [Validate]: a suggestion against the domain rules; [None] is [nil]. *)
Definition Validate (s : Suggestion) : option error :=
      (* Type validation *)
      if String.eqb (Type_ s) "" then Some (fmt.Errorf "type is required") else
      if negb (isValidType (Type_ s)) then
        Some (fmt.Errorf ("invalid type " +:+ strconv_Quote (Type_ s)
                          +:+ "; must be one of: " +:+ fmt.v ValidCommitTypes)) else
      (* Subject validation *)
      if String.eqb (Subject s) "" then Some (fmt.Errorf "subject is required") else
      if (72 <? len (Subject s))%Z then
        Some (fmt.Errorf ("subject exceeds 72 characters (" +:+ fmt.d (len (Subject s)) +:+ ")")) else
      if strings.Contains (Subject s) (String "010" EmptyString) then
        Some (fmt.Errorf "subject must not contain newlines") else
      if hasControlChars (Subject s) then
        Some (fmt.Errorf "subject contains control characters") else
      (* Body validation (optional) *)
      if negb (String.eqb (Body s) "") && hasControlChars (Body s) then
        Some (fmt.Errorf "body contains control characters") else
      (* Footer validation (optional) *)
      if negb (String.eqb (Footer s) "") then
        if negb (isValidFooter (Footer s)) then
          Some (fmt.Errorf "invalid footer format; must match ^(BREAKING CHANGE|Closes|Refs): .*")
        else if hasControlChars (Footer s) then
          Some (fmt.Errorf "footer contains control characters")
        else None
      else None.

(** [Normalize]: the suggestion after the call (the receiver is a
    pointer). *)
Definition Normalize (s : Suggestion) : Suggestion :=
      let type_ := strings.TrimSpace (strings.ToLower (Type_ s)) in
      let subject := strings.TrimSpace (Subject s) in
      let body := strings.TrimSpace (Body s) in
      let footer := strings.TrimSpace (Footer s) in
      (* Truncate subject if needed *)
      let subject := if (72 <? len subject)%Z then slice subject 0 72 else subject in
      {| Type_ := type_; Subject := subject; Body := body; Footer := footer |}.
End WithTables.

(** [Format]: the commit message. *)
Definition Format (s : Suggestion) : string :=
    let msg := Type_ s +:+ ": " +:+ Subject s in
    let msg := if negb (String.eqb (Body s) "")
               then msg +:+ String "010" (String "010" EmptyString) +:+ Body s else msg in
    let msg := if negb (String.eqb (Footer s) "")
               then msg +:+ String "010" (String "010" EmptyString) +:+ Footer s else msg in
    msg.
End domain.

(** ** Package internal/ports *)

Module ports.
(** A [float32], as the 32 bits of its IEEE 754 encoding; the
    orchestrator only passes it on. *)
Definition float32 : Type := Z.

(** A value of type [interface{}] in the options of a provider. *)
Inductive any : Type :=
  | any_string (s : string)
  | any_int (n : Z)
  | any_bool (b : bool).

(** The input of [LLM.SuggestCommits]. A [nil] map of options reads as
    the empty map. *)
Record SuggestInput : Type := {
    StagedDiff : string;
    FileList : list string;
    Model : string;
    Temperature : float32;
    Options : gmap string any
  }.

(** A single commit suggestion from the LLM. *)
Record CommitSuggestion : Type := {
    Type_ : string;
    Subject : string;
    Body : string;
    Footer : string
  }.

(** The interfaces. An implementation has a state (the object behind the
    interface value); a method returns its results and the state after the
    call. *)
Class LLM (L : Type) : Type := {
    LLM_SuggestCommits : L -> SuggestInput -> (list CommitSuggestion * option error) * L
  }.

Class Git (G : Type) : Type := {
    Git_StagedDiff : G -> (string * option error) * G;
    Git_Commit : G -> string -> bool -> (string * option error) * G;
    Git_IsInRepository : G -> (bool * option error) * G
  }.

(** Of [Redactor] the orchestrator calls [Redact] only. *)
Class Redactor (R : Type) : Type := {
    Redactor_Redact : R -> string -> string
  }.

Class Cache (C : Type) : Type := {
    Cache_Get : C -> string -> (list CommitSuggestion * option error) * C;
    Cache_Set : C -> string -> list CommitSuggestion -> option error * C
  }.
End ports.

(** ** Package hash/fnv and the mock provider *)

Module fnv.
Local Open Scope Z_scope.
Definition offset64 : Z := 14695981039346656037.
Definition prime64 : Z := 1099511628211.

(** [New64a], [Write] and [Sum64]: for every byte, the hash is xored with
    the byte and multiplied by the prime, modulo 2^64. *)
Definition Sum64a (data : string) : Z :=
    List.fold_left (fun hash c => (Z.lxor hash (byte c) * prime64) mod 2 ^ 64)
                   (list_ascii_of_string data) offset64.
End fnv.

Module mock.
Import ports.
Local Open Scope Z_scope.

(** [Client] is a mock LLM implementation for testing purposes. *)
Inductive Client : Type := NewClient.

(** [hashString] computes a simple hash of a string. *)
Definition hashString (s : string) : Z := fnv.Sum64a s.

(** The table of commit type, subject and body. *)
Definition patterns : list (string * string * string) :=
    [ ("feat", "add new functionality to enhance user experience",
       "Introduces new features that improve the user experience and provide additional value.");
      ("fix", "resolve issue affecting system stability",
       "Addresses a defect that was impacting stability and improves overall reliability.");
      ("refactor", "simplify internal logic and improve code clarity",
       "Refactors internal implementation to improve maintainability and reduce complexity.");
      ("docs", "update documentation for recent changes",
       "Updates documentation to reflect the latest behavior and usage patterns.");
      ("chore", "update dependencies and maintenance tasks",
       "Performs routine maintenance and dependency updates to keep the project healthy.") ].

(** One turn of the loop [for i := 0; i < 3; i++]: the sum of the hash and
    [i] wraps at 2^64. *)
Definition suggestion_at (hash : Z) (i : Z) : CommitSuggestion :=
    let idx := ((hash + i) mod 2 ^ 64) mod Z.of_nat (length patterns) in
    let p := List.nth (Z.to_nat idx) patterns (EmptyString, EmptyString, EmptyString) in
    let subject := snd (fst p) in
    let subject := if 72 <? len subject then slice subject 0 72 else subject in
    {| Type_ := fst (fst p); Subject := subject; Body := snd p; Footer := EmptyString |}.

(** [SuggestCommits] returns deterministic mock commit suggestions based
    on the input. *)
Definition SuggestCommits (c : Client) (input : SuggestInput)
    : (list CommitSuggestion * option error) * Client :=
    let hash := hashString (StagedDiff input) in
    ((List.map (suggestion_at hash) [0; 1; 2], None), c).

#[global] Instance Client_port : LLM Client :=
    {| LLM_SuggestCommits := SuggestCommits |}.
End mock.
(** ** Package internal/security *)

Module security.
Import regexp.

Definition quote : ascii := chr 0x22.

(** In the comments below [Q] stands for the double quote. The
    expression [[^Q]+]: *)
Definition not_quotes : re := plus (Cls (except (just quote))).

(** [sk-[a-zA-Z0-9]{20,}]: OpenAI/Anthropic API keys. *)
Definition apiKeyPattern : Regexp :=
    {| anchored := false; expr := seq [lit "sk-"; Rep (Cls alnum) 20] |}.

(** [(?i)AKIA[0-9A-Z]{16}]: AWS keys. *)
Definition awsPattern : Regexp :=
    {| anchored := false;
       expr := seq [lit_i "AKIA"; times 16 (cls_i (either digit (between "A" "Z")))] |}.

(** [(?i)(?:authorization|auth|token):\s*Bearer\s+[a-zA-Z0-9._\-]+]:
    authorization headers. *)
Definition bearerPattern : Regexp :=
    {| anchored := false;
       expr := seq [alt [lit_i "authorization"; lit_i "auth"; lit_i "token"];
                    lit_i ":"; star (Cls space); lit_i "Bearer"; plus (Cls space);
                    plus (cls_i (either alnum
                                   (either (just ".") (either (just "_") (just "-")))))] |}.

(** [Q(?:api_key|apiKey|API_KEY)Q:\s*Q[^Q]+Q]: JSON API key patterns. *)
Definition jsonKeyPattern : Regexp :=
    {| anchored := false;
       expr := seq [Cls (just quote); alt [lit "api_key"; lit "apiKey"; lit "API_KEY"];
                    Cls (just quote); lit ":"; star (Cls space);
                    Cls (just quote); not_quotes; Cls (just quote)] |}.

(** [(?i)(?:password|passwd|pwd):\s*Q[^Q]+Q]: common password patterns. *)
Definition passwordPattern : Regexp :=
    {| anchored := false;
       expr := seq [alt [lit_i "password"; lit_i "passwd"; lit_i "pwd"];
                    lit_i ":"; star (Cls space);
                    Cls (just quote); not_quotes; Cls (just quote)] |}.

(** [AIza[0-9A-Za-z\-_]{35}]: Google API keys. *)
Definition googlePattern : Regexp :=
    {| anchored := false;
       expr := seq [lit "AIza";
                    times 35 (Cls (either alnum (either (just "-") (just "_"))))] |}.

(** [ghp_[a-zA-Z0-9]{36}] and [ghu_[a-zA-Z0-9]{36}]: GitHub tokens. *)
Definition ghpPattern : Regexp :=
    {| anchored := false; expr := seq [lit "ghp_"; times 36 (Cls alnum)] |}.
Definition ghuPattern : Regexp :=
    {| anchored := false; expr := seq [lit "ghu_"; times 36 (Cls alnum)] |}.

(** [-----BEGIN (?:RSA |DSA |EC )?PRIVATE KEY-----]: private keys. *)
Definition pemPattern : Regexp :=
    {| anchored := false;
       expr := seq [lit "-----BEGIN "; opt (alt [lit "RSA "; lit "DSA "; lit "EC "]);
                    lit "PRIVATE KEY-----"] |}.

(** [Redactor] implements [ports.Redactor] with built-in patterns. *)
Record Redactor : Type := { patterns : list Regexp }.

Definition NewRedactor : Redactor :=
    {| patterns := [apiKeyPattern; awsPattern; bearerPattern; jsonKeyPattern;
                    passwordPattern; googlePattern; ghpPattern; ghuPattern; pemPattern] |}.

Definition placeholder : string := "[REDACTED]".

(** [Redact]: the loop [result = pattern.ReplaceAllString(result, ...)]. *)
Definition Redact (r : Redactor) (text : string) : string :=
    List.fold_left (fun result pattern => ReplaceAllString pattern result placeholder)
                   (patterns r) text.

(** [Contains]: does a pattern match somewhere in [text]. *)
Definition Contains (r : Redactor) (text : string) : bool :=
    List.existsb (fun pattern => MatchString pattern text) (patterns r).

#[global] Instance Redactor_port : ports.Redactor Redactor :=
    {| ports.Redactor_Redact := Redact |}.

(** The conversion [rune(count)] of an [int] to an [int32]. *)
Definition rune_of_int (n : Z) : Z := ((n + 0x80000000) mod 0x100000000 - 0x80000000)%Z.

(** [SummarizeRedactions] describes what was redacted. The count is
    converted by [string(rune(count))]: it is written as the character
    with that code point. *)
Definition SummarizeRedactions (original redacted : string) : string :=
    if String.eqb original redacted then "no redactions"
    else
      let count := strings.Count redacted "[REDACTED]" in
      "removed " +:+ utf8.EncodeRune (rune_of_int count) +:+ " secret(s)".
End security.

(** ** Package internal/adapters/cache *)

Module cache.
(** [InMemory] is a map under a mutex; the methods run under the lock, so
    each of them is one step on the map. The slices it stores and returns
    are copies and their elements are values. *)
Record InMemory : Type := { cache : gmap string (list ports.CommitSuggestion) }.

Definition NewInMemory : InMemory := {| cache := ∅ |}.

Definition Get (c : InMemory) (key : string)
    : (list ports.CommitSuggestion * option error) * InMemory :=
    match cache c !! key with
    | Some val => ((val, None), c)
    | None => (([], Some (fmt.Errorf "cache miss")), c)
    end.

Definition Set_ (c : InMemory) (key : string) (suggestions : list ports.CommitSuggestion)
    : option error * InMemory :=
    (None, {| cache := <[key := suggestions]> (cache c) |}).

Definition Clear (c : InMemory) : InMemory := {| cache := ∅ |}.

Definition Size (c : InMemory) : nat := size (cache c).

#[global] Instance InMemory_port : ports.Cache InMemory :=
    {| ports.Cache_Get := Get; ports.Cache_Set := Set_ |}.
End cache.

(** ** Package internal/adapters/git *)

Module git.
(** The operating system as far as [Executor] needs it to answer
    [IsInRepository] and [StagedDiff]: running a command and reading its
    standard output. [Cmd_Output w name args] is
    [exec.CommandContext(ctx, name, args...).Output()]: the output and the
    error (an exit status other than 0, a program that cannot be started,
    a deadline that has passed). *)
Class OS (W : Type) : Type := {
    Cmd_Output : W -> string -> list string -> (string * option error) * W
  }.

Record Executor (W : Type) : Type := { timeout : Z; world : W }.
Arguments timeout {W} e.
Arguments world {W} e.

Definition second : Z := 1000000000.

Definition NewExecutor {W : Type} (w : W) : Executor W :=
    {| timeout := 10 * second; world := w |}.

Section Executor.
Context {W : Type} `{OS W}.

(** [IsInRepository] checks if we are in a valid git repository. *)
Definition IsInRepository (e : Executor W) : (bool * option error) * Executor W :=
      let '((output, err), w) :=
        Cmd_Output (world e) "git" ["rev-parse"; "--is-inside-work-tree"] in
      let e := {| timeout := timeout e; world := w |} in
      match err with
      | Some _ => ((false, None), e)  (* Not in repo *)
      | None => ((String.eqb (strings.TrimSpace output) "true", None), e)
      end.

(** [StagedDiff] returns the staged diff. *)
Definition StagedDiff (e : Executor W) : (string * option error) * Executor W :=
      let '((output, err), w) :=
        Cmd_Output (world e) "git" ["diff"; "--cached"; "--no-color"] in
      let e := {| timeout := timeout e; world := w |} in
      match err with
      | Some err => ((EmptyString, Some (fmt.Errorf_w "git diff failed: " err)), e)
      | None => ((output, None), e)
      end.

(** The port, for a given [Commit] (which [SuggestCommits] never
    calls). *)
Definition Executor_port
        (Commit : Executor W -> string -> bool -> (string * option error) * Executor W)
      : ports.Git (Executor W) :=
      {| ports.Git_StagedDiff := StagedDiff;
         ports.Git_Commit := Commit;
         ports.Git_IsInRepository := IsInRepository |}.
End Executor.

(** [extractCommitHash], the loop over the lines: the first line that
    holds both brackets and has two fields between them gives the second
    field. The slice expression [line[start+1 : end]] panics when the
    first closing bracket stands before the first opening one. *)
Fixpoint extractCommitHash_lines (lines : list string) : outcome string :=
    match lines with
    | [] => Return EmptyString
    | line :: rest =>
        if strings.Contains line "[" && strings.Contains line "]" then
          (* Extract hash from brackets *)
          let start := strings.Index line "[" in
          let end_ := strings.Index line "]" in
          if negb (start =? -1)%Z && negb (end_ =? -1)%Z then
            if (end_ <? start + 1)%Z then
              Panic ("runtime error: slice bounds out of range ["
                     +:+ fmt.d (start + 1) +:+ ":" +:+ fmt.d end_ +:+ "]")
            else
              let content := slice line (start + 1) end_ in
              let parts := strings.Fields content in
              match parts with
              | _ :: hash :: _ => Return hash
              | _ => extractCommitHash_lines rest
              end
          else extractCommitHash_lines rest
        else extractCommitHash_lines rest
    end.

(** [extractCommitHash] attempts to extract the commit hash from git
    output. *)
Definition extractCommitHash (output : string) : outcome string :=
    extractCommitHash_lines (strings.Split output (String "010" EmptyString)).

(** The temporary files of [Commit]: [CreateTemp w dir pattern] is
    [os.CreateTemp] and returns the name of the file, [File_WriteString] and
    [File_Close] are the methods of the file of that name, [Remove] is
    [os.Remove]; the errors of the last two are dropped by [Commit].
    [ExitError_Stderr err] is the field [Stderr] of [err] when [err] is an
    [*exec.ExitError]. *)
Class Files (W : Type) : Type := {
    CreateTemp : W -> string -> string -> (string * option error) * W;
    File_WriteString : W -> string -> string -> option error * W;
    File_Close : W -> string -> W;
    Remove : W -> string -> W;
    ExitError_Stderr : error -> option string
  }.

Section Commit.
Context {W : Type} `{OS W} `{Files W}.

(** [Commit] runs git commit with a temp file message. The deferred
    [os.Remove] runs at every return after the file was created, and when
    [extractCommitHash] panics. *)
Definition Commit (e : Executor W) (message : string) (dryRun : bool)
      : outcome string * Executor W :=
      let at_ (w : W) := {| timeout := timeout e; world := w |} in
      (* Create temp file for message *)
      let '((tmpFile, err), w) := CreateTemp (world e) "" "commit-coach-*.txt" in
      match err with
      | Some err => (Fail (fmt.Errorf_w "failed to create temp file: " err), at_ w)
      | None =>
      (* Write message to temp file *)
      let '(err, w) := File_WriteString w tmpFile message in
      match err with
      | Some err =>
          let w := File_Close w tmpFile in
          (Fail (fmt.Errorf_w "failed to write message to temp file: " err),
           at_ (Remove w tmpFile))
      | None =>
      let w := File_Close w tmpFile in
      (* Dry run: just show what would be committed *)
      if dryRun then
        (Return ("[DRY RUN] Would commit:" +:+ String "010" EmptyString +:+ message),
         at_ (Remove w tmpFile))
      else
      (* Execute git commit *)
      let '((output, err), w) := Cmd_Output w "git" ["commit"; "-F"; tmpFile] in
      match err with
      | Some err =>
          (* Get stderr for better error messages *)
          (match ExitError_Stderr err with
           | Some stderr => Fail (fmt.Errorf ("git commit failed: " +:+ stderr))
           | None => Fail (fmt.Errorf_w "git commit failed: " err)
           end, at_ (Remove w tmpFile))
      | None =>
      (* Extract commit hash from output *)
      match extractCommitHash output with
      | Return hash =>
          let hash := if String.eqb hash "" then "[commit created]" else hash in
          (Return hash, at_ (Remove w tmpFile))
      | Fail err => (Fail err, at_ (Remove w tmpFile))
      | Panic msg => (Panic msg, at_ (Remove w tmpFile))
      end end end end.
End Commit.
End git.

(** ** Package internal/app *)

Module app.
Import ports.

(** *** A state and error monad for the methods of the services *)

Definition M (S A : Type) : Type := S -> outcome A * S.

Definition ret {S A} (a : A) : M S A := fun s => (Return a, s).
Definition fail {S A} (e : error) : M S A := fun s => (Fail e, s).
Definition bind {S A B} (m : M S A) (f : A -> M S B) : M S B :=
    fun s =>
      match m s with
      | (Return a, s') => f a s'
      | (Fail e, s') => (Fail e, s')
      | (Panic msg, s') => (Panic msg, s')
      end.
Definition lift {S A} (o : outcome A) : M S A := fun s => (o, s).
Definition gets {S A} (f : S -> A) : M S A := fun s => (Return (f s), s).

#[global] Instance M_bind {S : Type} : MBind (M S) := fun A B f m => bind m f.
#[global] Instance M_ret {S : Type} : MRet (M S) := fun A a => ret a.

(** *** SuggestService *)

(** [SuggestService] generates commit suggestions. The fields that hold
    interface values hold the state of the implementation; [cache] may be
    [nil]. *)
Record SuggestService (L G R C : Type) : Type := {
    llm : L;
    git : G;
    redactor : R;
    cache : option C;
    diffCap : Z;
    timeout : Z;
    useCache : bool
  }.
Arguments llm {L G R C} s.
Arguments git {L G R C} s.
Arguments redactor {L G R C} s.
Arguments cache {L G R C} s.
Arguments diffCap {L G R C} s.
Arguments timeout {L G R C} s.
Arguments useCache {L G R C} s.

Definition NewSuggestService {L G R C : Type}
      (llm : L) (git : G) (redactor : R) (cache : option C) (diffCap : Z) (useCache : bool)
    : SuggestService L G R C :=
    {| llm := llm; git := git; redactor := redactor; cache := cache;
       diffCap := diffCap; timeout := 90 * git.second; useCache := useCache |}.

(** [hashDiff] computes a SHA256 hash of the diff plus a cache namespace. *)
Definition hashDiff (diff provider model : string) : string :=
    let h := sha256.New in
    let h := sha256.WriteString h diff in
    let h := sha256.WriteString h (String "010" "provider=") in
    let h := sha256.WriteString h provider in
    let h := sha256.WriteString h (String "010" "model=") in
    let h := sha256.WriteString h model in
    hex.x (sha256.Sum h).

(** [capDiff] truncates diff to max size. A negative [maxBytes] makes the
    slice expression panic. *)
Definition capDiff (diff : string) (maxBytes : Z) : outcome string :=
    if (len diff <=? maxBytes)%Z then Return diff
    else if (maxBytes <? 0)%Z then
      Panic ("runtime error: slice bounds out of range [:" +:+ fmt.d maxBytes +:+ "]")
    else Return (slice diff 0 maxBytes).

Section SuggestService.
Context {L G R C : Type} `{!LLM L, !Git G, !Redactor R, !Cache C} {tables : UnicodeTables}.

Abbreviation Service := (SuggestService L G R C).

(** The loop [for i := 0; i < 3; i++] of [validateAndNormalize], with
    [n] turns left. *)
Fixpoint validate_from (n : nat) (i : nat) (portSuggestions : list CommitSuggestion)
        (result : list domain.Suggestion) : outcome (list domain.Suggestion) :=
      match n with
      | O => Return result
      | S n' =>
          match portSuggestions !! i with
          | None => Panic "runtime error: index out of range"
          | Some ps =>
              let ds := {| domain.Type_ := Type_ ps; domain.Subject := Subject ps;
                           domain.Body := Body ps; domain.Footer := Footer ps |} in
              let ds := domain.Normalize ds in
              match domain.Validate ds with
              | Some err =>
                  Fail (fmt.Errorf_w ("suggestion " +:+ fmt.d (Z.of_nat i)
                                      +:+ " validation failed: ") err)
              | None => validate_from n' (S i) portSuggestions (<[i := ds]> result)
              end
          end
      end.

Definition zero_Suggestion : domain.Suggestion :=
      {| domain.Type_ := ""; domain.Subject := ""; domain.Body := ""; domain.Footer := "" |}.

(** [validateAndNormalize] converts port suggestions to domain
    suggestions with validation. *)
Definition validateAndNormalize (portSuggestions : list CommitSuggestion)
      : outcome (list domain.Suggestion) :=
      if (length portSuggestions <? 3)%nat then
        Fail (fmt.Errorf ("expected 3 suggestions, got "
                          +:+ fmt.d (Z.of_nat (length portSuggestions))))
      else validate_from 3 0 portSuggestions (replicate 3 zero_Suggestion).

(** The calls through the ports, as steps on the service. *)
Definition call_IsInRepository : M Service (bool * option error) :=
      fun s => let '(r, g) := Git_IsInRepository (git s) in
               (Return r, {| llm := llm s; git := g; redactor := redactor s; cache := cache s;
                             diffCap := diffCap s; timeout := timeout s; useCache := useCache s |}).

Definition call_StagedDiff : M Service (string * option error) :=
      fun s => let '(r, g) := Git_StagedDiff (git s) in
               (Return r, {| llm := llm s; git := g; redactor := redactor s; cache := cache s;
                             diffCap := diffCap s; timeout := timeout s; useCache := useCache s |}).

Definition call_LLM (input : SuggestInput) : M Service (list CommitSuggestion * option error) :=
      fun s => let '(r, l) := LLM_SuggestCommits (llm s) input in
               (Return r, {| llm := l; git := git s; redactor := redactor s; cache := cache s;
                             diffCap := diffCap s; timeout := timeout s; useCache := useCache s |}).

(** [if s.useCache && s.cache != nil { if cached, err := s.cache.Get(...); err == nil {...} }]:
    the cached suggestions when that block returns. *)
Definition cache_probe (key : string) : M Service (option (list CommitSuggestion)) :=
      fun s =>
        match useCache s, cache s with
        | true, Some c =>
            let '((cached, err), c') := Cache_Get c key in
            (Return (match err with None => Some cached | Some _ => None end),
             {| llm := llm s; git := git s; redactor := redactor s; cache := Some c';
                diffCap := diffCap s; timeout := timeout s; useCache := useCache s |})
        | _, _ => (Return None, s)
        end.

(** [if s.useCache && s.cache != nil { _ = s.cache.Set(...) }]. *)
Definition cache_store (key : string) (suggestions : list CommitSuggestion) : M Service unit :=
      fun s =>
        match useCache s, cache s with
        | true, Some c =>
            let '(_, c') := Cache_Set c key suggestions in  (* ignore cache errors *)
            (Return tt,
             {| llm := llm s; git := git s; redactor := redactor s; cache := Some c';
                diffCap := diffCap s; timeout := timeout s; useCache := useCache s |})
        | _, _ => (Return tt, s)
        end.

(** [SuggestCommits] generates 3 commit suggestions based on staged diff. *)
Definition SuggestCommits (provider model : string) (temperature : float32)
      : M Service (list domain.Suggestion) :=
      ((* Step 1: Check if in repository *)
       '(inRepo, err) ← call_IsInRepository;
       match err with
       | Some err => fail (fmt.Errorf_w "failed to check repository status: " err)
       | None =>
       if negb inRepo then fail (fmt.Errorf "not in a git repository") else
       (* Step 2: Get staged diff *)
       '(diff, err) ← call_StagedDiff;
       match err with
       | Some err => fail (fmt.Errorf_w "failed to read staged diff: " err)
       | None =>
       if String.eqb diff "" then fail (fmt.Errorf "no staged changes") else
       (* Step 3: Check cache *)
       let diffHash := hashDiff diff provider model in
       hit ← cache_probe diffHash;
       match hit with
       | Some cached => lift (validateAndNormalize cached)
       | None =>
       (* Step 4: Cap and redact diff *)
       cap ← gets diffCap;
       cappedDiff ← lift (capDiff diff cap);
       r ← gets redactor;
       let redactedDiff := Redactor_Redact r cappedDiff in
       (* Step 5: Build file list *)
       let fileList := [] in
       (* Step 6: Call LLM *)
       let input := {| StagedDiff := redactedDiff; FileList := fileList; Model := model;
                       Temperature := temperature; Options := ∅ |} in
       '(llmSuggestions, err) ← call_LLM input;
       match err with
       | Some err => fail (fmt.Errorf_w "LLM error: " err)
       | None =>
       (* Step 7: Validate suggestions *)
       match validateAndNormalize llmSuggestions with
       | Fail err => fail (fmt.Errorf_w "invalid suggestions from LLM: " err)
       | Panic msg => lift (Panic msg)
       | Return result =>
       (* Step 8: Cache result *)
       _ ← cache_store diffHash llmSuggestions;
       ret result
       end end end end end).
End SuggestService.

(** *** CommitService *)

(** [CommitService] handles commit execution. *)
Record CommitService (G : Type) : Type := { commit_git : G; commit_timeout : Z }.
Arguments commit_git {G} c.
Arguments commit_timeout {G} c.

Definition NewCommitService {G : Type} (git : G) : CommitService G :=
    {| commit_git := git; commit_timeout := 10 * git.second |}.

Section CommitService.
Context {G : Type} `{!Git G}.

Definition call_Commit (message : string) (dryRun : bool)
      : M (CommitService G) (string * option error) :=
      fun c => let '(r, g) := Git_Commit (commit_git c) message dryRun in
               (Return r, {| commit_git := g; commit_timeout := commit_timeout c |}).

(** [Commit] executes a git commit with the given message. *)
Definition Commit (message : string) (dryRun : bool) : M (CommitService G) string :=
      ((* Validate message before attempting commit *)
       if String.eqb message "" then fail (fmt.Errorf "commit message cannot be empty") else
       (* Attempt commit *)
       '(hash, err) ← call_Commit message dryRun;
       match err with
       | Some err => fail (fmt.Errorf_w "git commit failed: " err)
       | None => ret hash
       end).
End CommitService.

(** [App] is the application container with all services. *)
Record App (L G C : Type) : Type := {
    Suggest : SuggestService L G security.Redactor C;
    Commit_ : CommitService G;
    Redactor_ : security.Redactor
  }.
Arguments Suggest {L G C} a.
Arguments Commit_ {L G C} a.
Arguments Redactor_ {L G C} a.

(** [NewApp] creates a new application with all dependencies wired. *)
Definition NewApp {L G C : Type} (llm : L) (git : G) (cache : option C)
      (diffCap : Z) (useCache : bool) : App L G C :=
    let redactor := security.NewRedactor in
    {| Suggest := NewSuggestService llm git redactor cache diffCap useCache;
       Commit_ := NewCommitService git;
       Redactor_ := redactor |}.
End app.

(** ** Package internal/testutil *)

Module testutil.
Import ports.

(** [FakeLLM] is a deterministic fake LLM for testing. *)
Record FakeLLM : Type := {
    Suggestions : list CommitSuggestion;
    Err : option error;
    CallCount : Z
  }.

#[global] Instance FakeLLM_port : LLM FakeLLM :=
    {| LLM_SuggestCommits f input :=
         let f := {| Suggestions := Suggestions f; Err := Err f; CallCount := CallCount f + 1 |} in
         match Err f with
         | Some err => (([], Some err), f)
         | None => ((Suggestions f, None), f)
         end |}.

(** [FakeGit] is a fake git adapter for testing. *)
Record FakeGit : Type := {
    StagedDiffContent : string;
    StagedDiffErr : option error;
    CommittedMessages : list string;
    CommitErr : option error;
    IsInRepoValue : bool
  }.

#[global] Instance FakeGit_port : Git FakeGit :=
    {| Git_StagedDiff f :=
         match StagedDiffErr f with
         | Some err => ((EmptyString, Some err), f)
         | None => ((StagedDiffContent f, None), f)
         end;
       Git_Commit f message dryRun :=
         match CommitErr f with
         | Some err => ((EmptyString, Some err), f)
         | None =>
             let f := if negb dryRun then
                        {| StagedDiffContent := StagedDiffContent f;
                           StagedDiffErr := StagedDiffErr f;
                           CommittedMessages := CommittedMessages f ++ [message];
                           CommitErr := CommitErr f;
                           IsInRepoValue := IsInRepoValue f |}
                      else f in
             (("abc123def456", None), f)
         end;
       Git_IsInRepository f := ((IsInRepoValue f, None), f) |}.

(** [FakeRedactor] is a fake redactor that does nothing. *)
Inductive FakeRedactor : Type := mkFakeRedactor.

#[global] Instance FakeRedactor_port : Redactor FakeRedactor :=
    {| Redactor_Redact _ text := text |}.

(** A provider between the orchestrator and a provider [L] that keeps the
    inputs it is handed, the latest last, and passes them on. *)
Record Recording (L : Type) : Type := { inner : L; seen : list SuggestInput }.
Arguments inner {L} r.
Arguments seen {L} r.

#[global] Instance Recording_port {L : Type} `{!LLM L} : LLM (Recording L) :=
    {| LLM_SuggestCommits r input :=
         let '(res, l) := LLM_SuggestCommits (inner r) input in
         (res, {| inner := l; seen := seen r ++ [input] |}) |}.

(** A git adapter between a service and an adapter [G] that keeps the
    arguments of the calls of [Commit]. *)
Record RecordingGit (G : Type) : Type := { inner_git : G; commits : list (string * bool) }.
Arguments inner_git {G} r.
Arguments commits {G} r.

#[global] Instance RecordingGit_port {G : Type} `{!Git G} : Git (RecordingGit G) :=
    {| Git_StagedDiff r :=
         let '(res, g) := Git_StagedDiff (inner_git r) in
         (res, {| inner_git := g; commits := commits r |});
       Git_Commit r message dryRun :=
         let '(res, g) := Git_Commit (inner_git r) message dryRun in
         (res, {| inner_git := g; commits := commits r ++ [(message, dryRun)] |});
       Git_IsInRepository r :=
         let '(res, g) := Git_IsInRepository (inner_git r) in
         (res, {| inner_git := g; commits := commits r |}) |}.

(** A sample valid LLM response. *)
Definition SampleLLMResponse : list CommitSuggestion :=
    [ {| Type_ := "feat"; Subject := "add LLM provider abstraction";
         Body := "Implement ports.LLM interface to support multiple providers like OpenAI and Groq.";
         Footer := "" |};
      {| Type_ := "fix"; Subject := "handle empty staged diff"; Body := ""; Footer := "" |};
      {| Type_ := "refactor"; Subject := "split redaction into security package";
         Body := "Move redaction logic into internal/security for better organization.";
         Footer := "BREAKING CHANGE: redaction API moved" |} ].
End testutil.

(** * Vocabulary of the statements *)

Import regexp ports app testutil.

Abbreviation bytes_of := list_ascii_of_string.
Abbreviation of_bytes := string_of_list_ascii.

(** Services whose provider is under observation. *)
Abbreviation Observed L G R C := (SuggestService (Recording L) G R C).
Abbreviation Caching L G R := (SuggestService (Recording L) G R cache.InMemory).
Abbreviation Guarded L G C := (SuggestService (Recording L) G security.Redactor C).

(** ** The orchestrator *)

(** The struct literal of [validateAndNormalize]. *)
Definition of_port (ps : CommitSuggestion) : domain.Suggestion :=
  {| domain.Type_ := Type_ ps; domain.Subject := Subject ps;
     domain.Body := Body ps; domain.Footer := Footer ps |}.

(** The normal form of a candidate. *)
Definition normalized {tables : UnicodeTables} (ps : CommitSuggestion) : domain.Suggestion :=
  domain.Normalize (of_port ps).

(** The errors of [validateAndNormalize]. *)
Definition validation_failed (i : nat) (err : error) : error :=
  fmt.Errorf_w ("suggestion " +:+ fmt.d (Z.of_nat i) +:+ " validation failed: ") err.

Definition too_few (n : nat) : error :=
  fmt.Errorf ("expected 3 suggestions, got " +:+ fmt.d (Z.of_nat n)).

(** The error of [Commit] at an empty message. *)
Definition EmptyCommitMessage : error := fmt.Errorf "commit message cannot be empty".

(** What the call returns once the provider has answered. *)
Definition outcome_of_answer {tables : UnicodeTables}
    (cands : list CommitSuggestion) (err : option error) : outcome (list domain.Suggestion) :=
  match err with
  | Some err => Fail (fmt.Errorf_w "LLM error: " err)
  | None =>
      match validateAndNormalize cands with
      | Return result => Return result
      | Fail err => Fail (fmt.Errorf_w "invalid suggestions from LLM: " err)
      | Panic msg => Panic msg
      end
  end.

Section Specification.
Context {L G R C : Type} `{!LLM L, !Git G, !Redactor R, !Cache C} {tables : UnicodeTables}.

Definition with_git (s : SuggestService L G R C) (g : G) : SuggestService L G R C :=
  {| llm := llm s; git := g; redactor := redactor s; cache := cache s;
     diffCap := diffCap s; timeout := timeout s; useCache := useCache s |}.

Definition with_llm (s : SuggestService L G R C) (l : L) : SuggestService L G R C :=
  {| llm := l; git := git s; redactor := redactor s; cache := cache s;
     diffCap := diffCap s; timeout := timeout s; useCache := useCache s |}.

(** The input the orchestrator builds from the capped diff. *)
Definition provider_input (s : SuggestService L G R C) (capped model : string)
    (temperature : float32) : SuggestInput :=
  {| StagedDiff := Redactor_Redact (redactor s) capped; FileList := []; Model := model;
     Temperature := temperature; Options := ∅ |}.

(** The repository check and the read of the staged diff went through:
    [diff] is staged and not empty, [s2] is the service after the two calls. *)
Definition staged (s : SuggestService L G R C) (diff : string) (s2 : SuggestService L G R C)
  : Prop :=
  exists g1 g2,
    Git_IsInRepository (git s) = ((true, None), g1)
    /\ Git_StagedDiff g1 = ((diff, None), g2)
    /\ diff <> ""
    /\ s2 = with_git s g2.

(** The runs of [SuggestCommits], one constructor for each return statement
    (and one for the panic of [capDiff]). *)
Inductive Run (s : SuggestService L G R C) (provider model : string) (temperature : float32)
  : outcome (list domain.Suggestion) -> SuggestService L G R C -> Prop :=
| Run_check_error inRepo err g1 :
    Git_IsInRepository (git s) = ((inRepo, Some err), g1) ->
    Run s provider model temperature
      (Fail (fmt.Errorf_w "failed to check repository status: " err)) (with_git s g1)
| Run_not_in_repository g1 :
    Git_IsInRepository (git s) = ((false, None), g1) ->
    Run s provider model temperature
      (Fail (fmt.Errorf "not in a git repository")) (with_git s g1)
| Run_diff_error g1 diff err g2 :
    Git_IsInRepository (git s) = ((true, None), g1) ->
    Git_StagedDiff g1 = ((diff, Some err), g2) ->
    Run s provider model temperature
      (Fail (fmt.Errorf_w "failed to read staged diff: " err)) (with_git s g2)
| Run_no_staged_changes g1 g2 :
    Git_IsInRepository (git s) = ((true, None), g1) ->
    Git_StagedDiff g1 = (("", None), g2) ->
    Run s provider model temperature
      (Fail (fmt.Errorf "no staged changes")) (with_git s g2)
| Run_cache_hit diff s2 cached s3 :
    staged s diff s2 ->
    cache_probe (hashDiff diff provider model) s2 = (Return (Some cached), s3) ->
    Run s provider model temperature (validateAndNormalize cached) s3
| Run_cap_panic diff s2 s3 msg :
    staged s diff s2 ->
    cache_probe (hashDiff diff provider model) s2 = (Return None, s3) ->
    capDiff diff (diffCap s3) = Panic msg ->
    Run s provider model temperature (Panic msg) s3
| Run_llm_error diff s2 s3 capped cands err l' :
    staged s diff s2 ->
    cache_probe (hashDiff diff provider model) s2 = (Return None, s3) ->
    capDiff diff (diffCap s3) = Return capped ->
    LLM_SuggestCommits (llm s3) (provider_input s3 capped model temperature)
      = ((cands, Some err), l') ->
    Run s provider model temperature (Fail (fmt.Errorf_w "LLM error: " err)) (with_llm s3 l')
| Run_invalid diff s2 s3 capped cands l' err :
    staged s diff s2 ->
    cache_probe (hashDiff diff provider model) s2 = (Return None, s3) ->
    capDiff diff (diffCap s3) = Return capped ->
    LLM_SuggestCommits (llm s3) (provider_input s3 capped model temperature)
      = ((cands, None), l') ->
    validateAndNormalize cands = Fail err ->
    Run s provider model temperature
      (Fail (fmt.Errorf_w "invalid suggestions from LLM: " err)) (with_llm s3 l')
| Run_success diff s2 s3 capped cands l' result s5 :
    staged s diff s2 ->
    cache_probe (hashDiff diff provider model) s2 = (Return None, s3) ->
    capDiff diff (diffCap s3) = Return capped ->
    LLM_SuggestCommits (llm s3) (provider_input s3 capped model temperature)
      = ((cands, None), l') ->
    validateAndNormalize cands = Return result ->
    cache_store (hashDiff diff provider model) cands (with_llm s3 l') = (Return tt, s5) ->
    Run s provider model temperature (Return result) s5.
End Specification.

(** ** The fingerprint *)

(** The bytes [hashDiff] feeds to SHA-256. *)
Definition fingerprint_input (diff provider model : string) : string :=
  ((((("" +:+ diff) +:+ String "010" "provider=") +:+ provider)
      +:+ String "010" "model=") +:+ model).

(** Two different byte strings with the same SHA-256 digest. *)
Definition sha256_collision (x y : string) : Prop :=
  x <> y /\ sha256.Sum256 x = sha256.Sum256 y.

Definition is_byte (n : Z) : Prop := (0 <= n < 256)%Z.

(** A blank line between two parts of a commit message. *)
Definition newline2 : string := String "010" (String "010" "").

(** ** Expressions and their languages *)

(** The strings an expression matches as a whole; a repetition is made of
    turns that are not empty. *)
Fixpoint lang (r : re) (w : list ascii) : Prop :=
  match r with
  | Eps => w = []
  | Cls p => exists c, w = [c] /\ p c = true
  | Cat a b => exists u v, w = u ++ v /\ lang a u /\ lang b v
  | Alt a b => lang a w \/ lang b w
  | Rep a min =>
      exists ws, w = concat ws /\ Forall (fun u => lang a u /\ u <> []) ws
                 /\ (min <= length ws)%nat
  end.

(** [matches r l]: the search matches all of [l]. *)
Definition matches (r : re) (l : list ascii) : bool :=
  match run r l (fun rest => match rest with [] => Some [] | _ => None end) with
  | Some _ => true
  | None => false
  end.

(** [secret] matches the pattern as a whole. *)
Definition FullMatch (pattern : Regexp) (secret : string) : bool :=
  matches (expr pattern) (bytes_of secret).

Fixpoint nullable (r : re) : bool :=
  match r with
  | Eps => true
  | Cls _ => false
  | Cat a b => nullable a && nullable b
  | Alt a b => nullable a || nullable b
  | Rep _ min => Nat.eqb min 0
  end.

Definition all_ascii : list ascii := List.map ascii_of_nat (List.seq 0 256).

(** Every byte of [p] is in [q]. *)
Definition subclass (p q : ascii -> bool) : bool :=
  List.forallb (fun c => implb (p c) (q c)) all_ascii.

(** No byte is in both. *)
Definition apart (p q : ascii -> bool) : bool :=
  List.forallb (fun c => negb (p c && q c)) all_ascii.

(** Every class of [r] lies in [q]. *)
Fixpoint classes_in (q : ascii -> bool) (r : re) : bool :=
  match r with
  | Eps => true
  | Cls p => subclass p q
  | Cat a b | Alt a b => classes_in q a && classes_in q b
  | Rep a _ => classes_in q a
  end.

(** A lower bound of the length of a match. *)
Fixpoint minlen (r : re) : nat :=
  match r with
  | Eps => 0
  | Cls _ => 1
  | Cat a b => minlen a + minlen b
  | Alt a b => Nat.min (minlen a) (minlen b)
  | Rep a min => min * minlen a
  end.

(** The bytes a match can start with and end with. *)
Fixpoint firsts (r : re) (c : ascii) : bool :=
  match r with
  | Eps => false
  | Cls p => p c
  | Cat a b => firsts a c || (nullable a && firsts b c)
  | Alt a b => firsts a c || firsts b c
  | Rep a _ => firsts a c
  end.

Fixpoint lasts (r : re) (c : ascii) : bool :=
  match r with
  | Eps => false
  | Cls p => p c
  | Cat a b => lasts b c || (nullable b && lasts a c)
  | Alt a b => lasts a c || lasts b c
  | Rep a _ => lasts a c
  end.

(** [m] occurs in [t] as a contiguous part. *)
Definition occurs (m t : list ascii) : Prop := exists a b, t = a ++ m ++ b.

(** [m] cannot lie across an inserted [repl]: it has none of the first and
    the last byte of [repl] and is at least as long, or it neither starts
    nor ends with a byte of [repl] and does not hold [repl]. *)
Definition keeps_clear (repl m : list ascii) : Prop :=
  m <> []
  /\ ((exists hd lt, head repl = Some hd /\ last repl = Some lt
                     /\ Forall (fun c => c <> hd /\ c <> lt) m
                     /\ (length repl <= length m)%nat)
      \/ ((forall c, head m = Some c -> c ∉ repl)
          /\ (forall c, last m = Some c -> c ∉ repl)
          /\ ~ occurs repl m)).

(** The test of [keeps_clear] on an expression, for every string of its
    language that does not hold [repl]. *)
Definition clear_check (repl : list ascii) (r : re) : bool :=
  negb (nullable r)
  && match head repl, last repl with
     | Some hd, Some lt =>
         (classes_in (fun c => negb (Ascii.eqb c hd) && negb (Ascii.eqb c lt)) r
          && (length repl <=? minlen r)%nat)
         || (apart (firsts r) (fun c => List.existsb (Ascii.eqb c) repl)
             && apart (lasts r) (fun c => List.existsb (Ascii.eqb c) repl))
     | _, _ => false
     end.

(** The passes of [Redact] on bytes. *)
Definition redact_bytes (ps : list Regexp) (repl l : list ascii) : list ascii :=
  List.fold_left (fun acc p => replace_go (expr p) repl 0 acc) ps l.

(** ** Examples *)

(** Tables for the examples: their strings are printable ASCII without
    quotes and backslashes, where [ToLower] does not read the table and
    [Quote] only adds the quotes. *)
Definition example_tables : UnicodeTables :=
  {| toLower_nonASCII r := r;
     strconv_Quote s := String security.quote (s +:+ String security.quote "") |}.

(** 0.7 as a [float32]. *)
Definition temperature_0_7 : float32 := 0x3F333333%Z.

Definition gpt_4o_mini : string := "gpt-4o-mini".

Abbreviation example_call :=
  (@SuggestCommits _ _ _ _ _ _ _ _ example_tables "openai" gpt_4o_mini temperature_0_7).

Definition sample_diff : string := "diff --git a/main.go b/main.go".

Definition example_git (diff : string) : FakeGit :=
  {| StagedDiffContent := diff; StagedDiffErr := None; CommittedMessages := [];
     CommitErr := None; IsInRepoValue := true |}.

Definition example_llm : Recording FakeLLM :=
  {| inner := {| Suggestions := SampleLLMResponse; Err := None; CallCount := 0 |};
     seen := [] |}.

(** The application of the tests: a fake provider under observation, a fake
    git with [diff] staged, the in-memory cache. *)
Definition example_service (diff : string) (diffCap : Z)
  : SuggestService (Recording FakeLLM) FakeGit security.Redactor cache.InMemory :=
  Suggest (NewApp example_llm (example_git diff) (Some cache.NewInMemory) diffCap true).

(** A staged diff of one line: the JSON key pattern with, as its value, a
    second copy of itself whose value is the placeholder. *)
Definition nested_key_diff : string :=
  Eval cbv in
    let q := String security.quote "" in
    q +:+ "api_key" +:+ q +:+ ": " +:+ q
      +:+ (q +:+ "api_key" +:+ q +:+ ": " +:+ q +:+ "[REDACTED]" +:+ q) +:+ q.

Definition nested_key_secret : string :=
  Eval cbv in
    let q := String security.quote "" in
    q +:+ "api_key" +:+ q +:+ ": " +:+ q +:+ "[REDACTED]" +:+ q.


(** A staged diff with an API key in it. *)
Definition api_key_diff : string :=
  "+const key = sk-1234567890abcdefghijXYZ // local".


(** A machine without git: no command can be started. *)
Inductive NoGit : Type := no_git.

#[global] Instance NoGit_OS : git.OS NoGit :=
  {| git.Cmd_Output w name args :=
       ((EmptyString, Some (errorString "exec: git: executable file not found in $PATH")), w) |}.

Definition no_commit (e : git.Executor NoGit) (message : string) (dryRun : bool)
  : (string * option error) * git.Executor NoGit := ((EmptyString, None), e).

(** A provider whose second candidate has a type outside the enumeration. *)
Definition bad_type_llm : Recording FakeLLM :=
  {| inner := {| Suggestions :=
                   [ {| Type_ := "feat"; Subject := "add LLM provider abstraction";
                        Body := ""; Footer := "" |};
                     {| Type_ := "invalid_type"; Subject := "bad suggestion";
                        Body := ""; Footer := "" |};
                     {| Type_ := "fix"; Subject := "handle empty staged diff";
                        Body := ""; Footer := "" |} ];
                 Err := None; CallCount := 0 |};
     seen := [] |}.

Definition bad_type_service
  : SuggestService (Recording FakeLLM) FakeGit security.Redactor cache.InMemory :=
  Suggest (NewApp bad_type_llm (example_git sample_diff) (Some cache.NewInMemory) 8192 true).


Definition example_commit_service : CommitService (RecordingGit FakeGit) :=
  NewCommitService {| inner_git := example_git sample_diff; commits := [] |}.

(** ** Further vocabulary *)

(** An operation on the cache. *)
Inductive cache_op : Type :=
| op_Set (key : string) (suggestions : list CommitSuggestion)
| op_Get (key : string)
| op_Clear.

(** The cache after an operation. *)
Definition cache_step (c : cache.InMemory) (o : cache_op) : cache.InMemory :=
  match o with
  | op_Set key suggestions => (cache.Set_ c key suggestions).2
  | op_Get key => (cache.Get c key).2
  | op_Clear => cache.Clear c
  end.

(** A new cache after the operations [ops], the first one first. *)
Definition cache_after (ops : list cache_op) : cache.InMemory :=
  List.fold_left cache_step ops cache.NewInMemory.

(** What the operations, the latest first, have left under [key]: the
    suggestions of the latest [Set] of [key] that no [Clear] follows. *)
Fixpoint latest (key : string) (ops : list cache_op) : option (list CommitSuggestion) :=
  match ops with
  | [] => None
  | op_Set k suggestions :: earlier =>
      if String.eqb k key then Some suggestions else latest key earlier
  | op_Get _ :: earlier => latest key earlier
  | op_Clear :: _ => None
  end.

(** Every entry of the cache passes validation. *)
Definition cache_valid {tables : UnicodeTables} (c : option cache.InMemory) : Prop :=
  forall m key cands,
    c = Some m -> cache.cache m !! key = Some cands ->
    exists result, validateAndNormalize cands = Return result.

Definition newline : ascii := "010"%char.

(** A service that does not use its cache. *)
Definition uncached_service (diff : string)
  : SuggestService (Recording FakeLLM) FakeGit security.Redactor cache.InMemory :=
  Suggest (NewApp example_llm (example_git diff) (Some cache.NewInMemory) 8192 false).

(** [s] has no newline. *)
Definition single_line (s : string) : Prop := newline ∉ bytes_of s.

(** A machine on which git answers [true] to [rev-parse] and fails at
    everything else. *)
Inductive BrokenDiff : Type := broken_diff.

#[global] Instance BrokenDiff_OS : git.OS BrokenDiff :=
  {| git.Cmd_Output w name args :=
       match args with
       | "rev-parse" :: _ => ((String.append "true" (String newline EmptyString), None), w)
       | _ => ((EmptyString, Some (errorString "exit status 128")), w)
       end |}.

Definition no_commit_at (W : Type) (e : git.Executor W) (message : string) (dryRun : bool)
  : (string * option error) * git.Executor W := ((EmptyString, None), e).

(** The keywords a footer starts with. *)
Definition footer_keywords : list string := ["BREAKING CHANGE"; "Closes"; "Refs"].

(** An ASCII control character other than the tab and the newline. *)
Definition control_byte (c : ascii) : Prop :=
  ((byte c < 32 /\ byte c <> 9 /\ byte c <> 10) \/ byte c = 127)%Z.

(** The first line of the message of a suggestion. *)
Definition header (s : domain.Suggestion) : string :=
  domain.Type_ s +:+ ": " +:+ domain.Subject s.

(** The candidates of the mock provider, in the order of its table. *)
Definition mock_candidates : list CommitSuggestion :=
  List.map (fun k => mock.suggestion_at k 0) [0; 1; 2; 3; 4]%Z.

(** [s] has no byte [x]. *)
Definition byte_free (x : ascii) (s : string) : Prop := x ∉ bytes_of s.

Definition one (x : ascii) : string := String x EmptyString.

(** A service with a negative cap. *)
Definition negative_cap_service
  : SuggestService (Recording FakeLLM) FakeGit security.Redactor cache.InMemory :=
  example_service sample_diff (-1).

(** A service of the git executor on the machine [broken_diff]. *)
Definition broken_diff_service
  : SuggestService FakeLLM (git.Executor BrokenDiff) security.Redactor cache.InMemory :=
  Suggest (NewApp (inner example_llm) (git.NewExecutor broken_diff)
             (Some cache.NewInMemory) 8192 true).

(** A subject with an escape sequence of a terminal in it. *)
Definition escape : ascii := "027"%char.

Definition coloured_subject : domain.Suggestion :=
  {| domain.Type_ := "fix";
     domain.Subject := "handle " +:+ String escape "[31mnil" +:+ String escape "[0m pointer";
     domain.Body := ""; domain.Footer := "" |}.

Definition plain_suggestion : domain.Suggestion :=
  {| domain.Type_ := "refactor"; domain.Subject := "split redaction into security package";
     domain.Body := "Move redaction logic into internal/security for better organization.";
     domain.Footer := "BREAKING CHANGE: redaction API moved" |}.

(** What git prints after the first commit of a repository. *)
Definition root_commit_output : string :=
  "[main (root-commit) 1a2b3c4] initial commit" +:+ String newline " 1 file changed".

(** A machine that keeps the operations it is asked for, the latest last;
    its git prints the line of a commit on [main]. *)
Record Traced : Type := { trace : list string }.

Definition traced (w : Traced) (operation : string) : Traced :=
  {| trace := trace w ++ [operation] |}.

#[global] Instance Traced_OS : git.OS Traced :=
  {| git.Cmd_Output w name args :=
       (("[main abc123d] fix: handle nil pointer" +:+ String newline " 1 file changed", None),
        traced w (name +:+ " " +:+ String.concat " " args)) |}.

#[global] Instance Traced_Files : git.Files Traced :=
  {| git.CreateTemp w dir pattern := (("/tmp/commit-coach-1.txt", None), traced w "create");
     git.File_WriteString w name s := (None, traced w "write");
     git.File_Close w name := traced w "close";
     git.Remove w name := traced w "remove";
     git.ExitError_Stderr err := None |}.

(** A digit of the lower-case hexadecimal notation. *)
Definition hex_digit (c : ascii) : Prop :=
  ((0x30 <= byte c <= 0x39) \/ (0x61 <= byte c <= 0x66))%Z.

(** A service with nothing staged. *)
Definition nothing_staged_service
  : SuggestService (Recording FakeLLM) FakeGit security.Redactor cache.InMemory :=
  example_service "" 8192.

(** * Lemmas *)

(** The case split on a run. *)
Ltac run_cases HR :=
  destruct HR as [inRepo err g1 E | g1 E | g1 diff err g2 E1 E2 | g1 g2 E1 E2
                 | diff s2 cached s3 Hst Hp | diff s2 s3 msg' Hst Hp Hcap
                 | diff s2 s3 capped cands err l' Hst Hp Hcap Hllm
                 | diff s2 s3 capped cands l' err Hst Hp Hcap Hllm Hv
                 | diff s2 s3 capped cands l' result s5 Hst Hp Hcap Hllm Hv Hs].

(** * Strings as lists of bytes *)

Lemma bytes_of_app (a b : string) : bytes_of (a +:+ b) = bytes_of a ++ bytes_of b.
Proof. induction a as [|c a IH]; simpl; [reflexivity | by rewrite IH]. Qed.

Lemma of_bytes_app (a b : list ascii) : of_bytes (a ++ b) = of_bytes a +:+ of_bytes b.
Proof. induction a as [|c a IH]; simpl; [reflexivity | by rewrite IH]. Qed.

Lemma bytes_of_inj (a b : string) : bytes_of a = bytes_of b -> a = b.
Proof.
  intros E. rewrite <- (string_of_list_ascii_of_string a), <- (string_of_list_ascii_of_string b).
  by rewrite E.
Qed.

Lemma length_bytes_of (s : string) : length (bytes_of s) = String.length s.
Proof. induction s as [|c s IH]; simpl; [reflexivity | by rewrite IH]. Qed.

Lemma bytes_of_substring (i n : nat) (s : string) :
  bytes_of (substring i n s) = take n (drop i (bytes_of s)).
Proof.
  revert i n. induction s as [|c s IH]; intros i n.
  - destruct i, n; reflexivity.
  - destruct i as [|i]; simpl.
    + destruct n as [|n]; simpl; [reflexivity | by rewrite (IH 0%nat n)].
    + apply IH.
Qed.

Lemma append_assoc (a b c : string) : (a +:+ b) +:+ c = a +:+ (b +:+ c).
Proof. apply bytes_of_inj. rewrite !bytes_of_app. by rewrite app_assoc. Qed.

Lemma append_empty_r (a : string) : a +:+ "" = a.
Proof. apply bytes_of_inj. rewrite bytes_of_app. apply app_nil_r. Qed.

Lemma length_append (a b : string) :
  String.length (a +:+ b) = (String.length a + String.length b)%nat.
Proof. rewrite <- !length_bytes_of, bytes_of_app. apply length_app. Qed.

Lemma len_slice_prefix (s : string) (n : Z) :
  (0 <= n <= len s)%Z -> len (slice s 0 n) = n.
Proof.
  intros Hn. unfold len, slice in *. rewrite <- !length_bytes_of in *.
  rewrite bytes_of_substring, drop_0, length_take. lia.
Qed.

Lemma slice_prefix (s : string) (n : Z) :
  (0 <= n <= len s)%Z -> slice s 0 n +:+ slice_from s n = s.
Proof.
  intros Hn. apply bytes_of_inj. unfold slice_from, slice, len in *.
  rewrite <- length_bytes_of in *.
  rewrite bytes_of_app, !bytes_of_substring, drop_0.
  replace (Z.to_nat (n - 0)) with (Z.to_nat n) by lia.
  rewrite (take_ge (drop _ _)); [apply take_drop |].
  rewrite length_drop. lia.
Qed.

Lemma eqb_empty (s : string) : String.eqb s "" = true <-> s = "".
Proof. apply String.eqb_eq. Qed.

Section Orchestrator.
Context {L G R C : Type} `{!LLM L, !Git G, !Redactor R, !Cache C} {tables : UnicodeTables}.

Lemma validateAndNormalize_eq (cands : list CommitSuggestion) :
  validateAndNormalize cands =
  match cands with
  | c0 :: c1 :: c2 :: _ =>
      match domain.Validate (normalized c0) with
      | Some e => Fail (validation_failed 0 e)
      | None =>
          match domain.Validate (normalized c1) with
          | Some e => Fail (validation_failed 1 e)
          | None =>
              match domain.Validate (normalized c2) with
              | Some e => Fail (validation_failed 2 e)
              | None => Return [normalized c0; normalized c1; normalized c2]
              end
          end
      end
  | _ => Fail (too_few (length cands))
  end.
Proof.
  destruct cands as [|c0 [|c1 [|c2 rest]]]; reflexivity.
Qed.

Lemma validateAndNormalize_Return cands result :
  validateAndNormalize cands = Return result ->
  (3 <= length cands)%nat /\ result = List.map normalized (take 3 cands)
  /\ Forall (fun d => domain.Validate d = None) result.
Proof.
  rewrite validateAndNormalize_eq.
  destruct cands as [|c0 [|c1 [|c2 rest]]]; try discriminate.
  destruct (domain.Validate (normalized c0)) eqn:E0; [discriminate|].
  destruct (domain.Validate (normalized c1)) eqn:E1; [discriminate|].
  destruct (domain.Validate (normalized c2)) eqn:E2; [discriminate|].
  intros [= <-]. split; [simpl; lia|]. split; [reflexivity|].
  repeat constructor; assumption.
Qed.

Lemma validateAndNormalize_no_Panic cands msg : validateAndNormalize cands <> Panic msg.
Proof.
  rewrite validateAndNormalize_eq.
  destruct cands as [|c0 [|c1 [|c2 rest]]]; try discriminate.
  repeat case_match; discriminate.
Qed.


End Orchestrator.

Section Run.
Context {L G R C : Type} `{!LLM L, !Git G, !Redactor R, !Cache C} {tables : UnicodeTables}.

Lemma cache_probe_fields key (s s3 : SuggestService L G R C) hit :
  cache_probe key s = (Return hit, s3) ->
  llm s3 = llm s /\ git s3 = git s /\ redactor s3 = redactor s
  /\ diffCap s3 = diffCap s /\ useCache s3 = useCache s /\ timeout s3 = timeout s.
Proof.
  unfold cache_probe. destruct (useCache s) eqn:Eu, (cache s) as [c|] eqn:Ec;
    try (intros [= <- <-]; done).
  destruct (Cache_Get c key) as [[cached err] c'].
  intros [= <- <-]. done.
Qed.

Lemma cache_probe_Return key (s : SuggestService L G R C) :
  exists hit s3, cache_probe key s = (Return hit, s3).
Proof.
  unfold cache_probe. destruct (useCache s), (cache s) as [c|]; eauto.
  destruct (Cache_Get c key) as [[cached err] c']. eauto.
Qed.

Lemma cache_store_Return key cands (s : SuggestService L G R C) :
  exists s5, cache_store key cands s = (Return tt, s5).
Proof.
  unfold cache_store. destruct (useCache s), (cache s) as [c|]; eauto.
  destruct (Cache_Set c key cands) as [e c']. eauto.
Qed.

Lemma cache_store_fields key cands (s s5 : SuggestService L G R C) :
  cache_store key cands s = (Return tt, s5) ->
  llm s5 = llm s /\ git s5 = git s /\ redactor s5 = redactor s
  /\ diffCap s5 = diffCap s /\ useCache s5 = useCache s /\ timeout s5 = timeout s.
Proof.
  unfold cache_store. destruct (useCache s) eqn:Eu, (cache s) as [c|] eqn:Ec;
    try (intros [= <-]; done).
  destruct (Cache_Set c key cands) as [e c'].
  intros [= <-]. done.
Qed.

(** Every call of [SuggestCommits] is one of the runs. *)
Lemma SuggestCommits_Run (s : SuggestService L G R C) provider model temperature :
  Run s provider model temperature
    (SuggestCommits provider model temperature s).1
    (SuggestCommits provider model temperature s).2.
Proof.
  unfold SuggestCommits, mbind, M_bind, bind, call_IsInRepository.
  destruct (Git_IsInRepository (git s)) as [[inRepo e1] g1] eqn:E1.
  destruct e1 as [e1|]; [by eapply Run_check_error|].
  destruct inRepo; [|by eapply Run_not_in_repository]. cbn [negb].
  unfold call_StagedDiff. cbn [git].
  destruct (Git_StagedDiff g1) as [[diff e2] g2] eqn:E2.
  cbn [llm git redactor cache diffCap timeout useCache]. fold (with_git s g2).
  destruct e2 as [e2|]; [by eapply Run_diff_error|].
  destruct (String.eqb diff "") eqn:Ed.
  { apply String.eqb_eq in Ed as ->. by eapply Run_no_staged_changes. }
  apply String.eqb_neq in Ed.
  assert (Hst : staged s diff (with_git s g2)) by (exists g1, g2; done).
  destruct (cache_probe_Return (hashDiff diff provider model) (with_git s g2))
    as (hit & s3 & Ep). rewrite Ep.
  destruct (cache_probe_fields _ _ _ _ Ep) as (Hl & Hg & Hr & Hc & Hu & Ht).
  destruct hit as [cached|].
  { unfold lift. by eapply Run_cache_hit. }
  unfold gets, lift.
  destruct (capDiff diff (diffCap s3)) as [capped| e |msg] eqn:Ecap.
  - unfold call_LLM.
    fold (provider_input s3 capped model temperature).
    destruct (LLM_SuggestCommits (llm s3) (provider_input s3 capped model temperature))
      as [[cands e3] l'] eqn:E3.
    fold (with_llm s3 l').
    destruct e3 as [e3|]; [by eapply Run_llm_error|].
    destruct (validateAndNormalize cands) as [result|err|msg] eqn:Ev.
    + destruct (cache_store_Return (hashDiff diff provider model) cands (with_llm s3 l'))
        as (s5 & Es). rewrite Es. unfold ret. by eapply Run_success.
    + unfold fail. by eapply Run_invalid.
    + by apply validateAndNormalize_no_Panic in Ev.
  - unfold capDiff in Ecap. repeat case_match; discriminate.
  - by eapply Run_cap_panic.
Qed.

End Run.

Section Provider.
Context {L G R C : Type} `{!LLM L, !Git G, !Redactor R, !Cache C} {tables : UnicodeTables}.

Lemma staged_fields (s s2 : Observed L G R C) diff :
  staged s diff s2 ->
  llm s2 = llm s /\ redactor s2 = redactor s /\ cache s2 = cache s
  /\ diffCap s2 = diffCap s /\ useCache s2 = useCache s.
Proof. intros (g1 & g2 & _ & _ & _ & ->). done. Qed.

Lemma seen_grows_ne (l : list SuggestInput) (x : SuggestInput) : l ++ [x] <> l.
Proof. intros E. apply (f_equal length) in E. rewrite length_app in E. simpl in E. lia. Qed.

(** A run either leaves the provider alone or hands it one input, built
    from the capped diff, and turns its answer into the outcome. *)
Lemma Run_provider (s : Observed L G R C) provider model temperature o s' :
  Run s provider model temperature o s' ->
  (seen (llm s') = seen (llm s) /\ inner (llm s') = inner (llm s))
  \/ (exists diff s2 s3 capped cands err l',
        staged s diff s2
        /\ cache_probe (hashDiff diff provider model) s2 = (Return None, s3)
        /\ capDiff diff (diffCap s) = Return capped
        /\ LLM_SuggestCommits (inner (llm s)) (provider_input s capped model temperature)
           = ((cands, err), l')
        /\ seen (llm s') = seen (llm s) ++ [provider_input s capped model temperature]
        /\ inner (llm s') = l'
        /\ o = outcome_of_answer cands err
        /\ match o with
           | Return _ =>
               cache_store (hashDiff diff provider model) cands
                 (with_llm s3 {| inner := l';
                                 seen := seen (llm s) ++ [provider_input s capped model temperature] |})
               = (Return tt, s')
           | _ => cache s' = cache s3
           end).
Proof.
  intros HR.
  run_cases HR;
    try (left; done);
    destruct (staged_fields _ _ _ Hst) as (Hl & Hr & Hc & Hd & Hu);
    destruct (cache_probe_fields _ _ _ _ Hp) as (Hl3 & Hg3 & Hr3 & Hd3 & Hu3 & _);
    try (left; by rewrite Hl3, Hl);
    right;
    (assert (Hin : provider_input s3 capped model temperature
                   = provider_input s capped model temperature)
      by (unfold provider_input; by rewrite Hr3, Hr));
    rewrite Hin, Hl3, Hl in Hllm; rewrite Hd3, Hd in Hcap;
    cbn [LLM_SuggestCommits Recording_port] in Hllm;
    destruct (LLM_SuggestCommits (inner (llm s)) (provider_input s capped model temperature))
      as [[cands0 err0] l0] eqn:E; injection Hllm as -> -> <-.
  - exists diff, s2, s3, capped, cands, (Some err), l0. done.
  - exists diff, s2, s3, capped, cands, None, l0.
    unfold outcome_of_answer. rewrite Hv. done.
  - destruct (cache_store_fields _ _ _ _ Hs) as (Hl5 & _).
    exists diff, s2, s3, capped, cands, None, l0.
    unfold outcome_of_answer. rewrite Hv, Hl5. done.
Qed.

End Provider.

Section RunFacts.
Context {L G R C : Type} `{!LLM L, !Git G, !Redactor R, !Cache C} {tables : UnicodeTables}.

Lemma capDiff_nonneg (diff : string) (cap : Z) :
  (0 <= cap)%Z ->
  exists capped, capDiff diff cap = Return capped
    /\ (len capped <= cap)%Z
    /\ capped = (if (len diff <=? cap)%Z then diff else slice diff 0 cap)
    /\ exists rest, diff = capped +:+ rest.
Proof.
  intros Hc. unfold capDiff.
  destruct (len diff <=? cap)%Z eqn:E.
  - exists diff. apply Z.leb_le in E. repeat split; try done.
    exists "". by rewrite append_empty_r.
  - apply Z.leb_gt in E. destruct (cap <? 0)%Z eqn:E'; [lia|].
    exists (slice diff 0 cap). repeat split; try done.
    + rewrite len_slice_prefix; lia.
    + exists (slice_from diff cap). symmetry. apply slice_prefix. lia.
Qed.


Lemma Run_Return (s : SuggestService L G R C) provider model temperature result s' :
  Run s provider model temperature (Return result) s' ->
  exists cands, validateAndNormalize cands = Return result.
Proof.
  intros HR. inversion HR; subst; eauto.
Qed.

End RunFacts.

Section Suggestions.
Context {L G R C : Type} `{!LLM L, !Git G, !Redactor R, !Cache C} {tables : UnicodeTables}.


Lemma Validate_invalid_type (d : domain.Suggestion) :
  domain.isValidType (domain.Type_ d) = false -> is_Some (domain.Validate d).
Proof.
  intros Ht. unfold domain.Validate. rewrite Ht. cbn [negb].
  destruct (String.eqb (domain.Type_ d) ""); eauto.
Qed.

(** Claim C6. When the provider is called and one of its first three candidates
    fails validation after normalization (as every candidate with a type
    outside the enumeration does), the call fails with the error of the
    first such candidate, [suggestion j validation failed], wrapped as
    [invalid suggestions from LLM]; no call returns fewer than three
    suggestions or a suggestion that is not valid. *)
Theorem invalid_candidate_fails_call (s : Observed L G R C) (provider model : string)
    (temperature : float32) :
  let o := (SuggestCommits provider model temperature s).1 in
  let s' := (SuggestCommits provider model temperature s).2 in
  (forall input cands l' i ci ei,
     seen (llm s') = seen (llm s) ++ [input] ->
     LLM_SuggestCommits (inner (llm s)) input = ((cands, None), l') ->
     (3 <= length cands)%nat ->
     (i < 3)%nat -> cands !! i = Some ci -> domain.Validate (normalized ci) = Some ei ->
     exists j cj ej,
       (j <= i)%nat /\ cands !! j = Some cj /\ domain.Validate (normalized cj) = Some ej
       /\ o = Fail (fmt.Errorf_w "invalid suggestions from LLM: " (validation_failed j ej)))
  /\ (forall ci, domain.isValidType (domain.Type_ (normalized ci)) = false ->
                 is_Some (domain.Validate (normalized ci)))
  /\ (forall result, o = Return result ->
        length result = 3%nat /\ Forall (fun d => domain.Validate d = None) result).
Proof.
  intros o s'. pose proof (SuggestCommits_Run s provider model temperature) as HR.
  fold o s' in HR. split; [|split].
  - intros input cands l' i ci ei Hseen Hans Hl Hi Hci Hei.
    destruct (Run_provider _ _ _ _ _ _ HR) as [[Hs _]|
      (diff & s2 & s3 & capped & cands0 & err & l0 & _ & _ & _ & Hllm & Hs & _ & Ho & _)].
    { rewrite Hs in Hseen. symmetry in Hseen. by apply seen_grows_ne in Hseen. }
    rewrite Hs in Hseen. apply app_inv_head in Hseen. injection Hseen as <-.
    rewrite Hllm in Hans. injection Hans as -> -> ->.
    rewrite Ho. unfold outcome_of_answer. rewrite validateAndNormalize_eq.
    destruct cands as [|c0 [|c1 [|c2 rest]]]; try (simpl in Hl; lia).
    destruct (domain.Validate (normalized c0)) as [e0|] eqn:E0.
    { exists 0%nat, c0, e0. repeat split; [lia|done..]. }
    destruct (domain.Validate (normalized c1)) as [e1|] eqn:E1.
    { exists 1%nat, c1, e1. destruct i as [|i]; [simpl in Hci; congruence|].
      repeat split; [lia|done..]. }
    destruct (domain.Validate (normalized c2)) as [e2|] eqn:E2.
    { exists 2%nat, c2, e2. destruct i as [|[|i]]; [simpl in Hci; congruence..|].
      repeat split; [lia|done..]. }
    destruct i as [|[|[|i]]]; simpl in Hci; simplify_eq; lia.
  - intros ci. apply Validate_invalid_type.
  - intros result Ho. rewrite Ho in HR.
    destruct (Run_Return _ _ _ _ _ _ HR) as (cands & Hv).
    apply validateAndNormalize_Return in Hv as (Hl & -> & Hf).
    split; [|done]. rewrite length_map, length_take. lia.
Qed.

End Suggestions.

Section RunEq.
Context {L G R C : Type} `{!LLM L, !Git G, !Redactor R, !Cache C} {tables : UnicodeTables}.

(** A run determines the call. *)
Lemma Run_eq (s : SuggestService L G R C) provider model temperature o s' :
  Run s provider model temperature o s' ->
  SuggestCommits provider model temperature s = (o, s').
Proof.
  intros HR.
  run_cases HR;
    try (destruct Hst as (g1 & g2 & E1 & E2 & Hne%String.eqb_neq & ->));
    unfold SuggestCommits, mbind, M_bind, bind, call_IsInRepository, call_StagedDiff;
    rewrite ?E, ?E1; cbn [negb git]; rewrite ?E2; try reflexivity;
    cbn [llm git redactor cache diffCap timeout useCache];
    rewrite Hne; fold (with_git s g2); rewrite Hp; unfold lift, gets; try reflexivity;
    rewrite Hcap; try reflexivity;
    unfold call_LLM; fold (provider_input s3 capped model temperature);
    rewrite Hllm; fold (with_llm s3 l'); try reflexivity; rewrite Hv; try reflexivity.
  by rewrite Hs.
Qed.

Lemma staged_functional (s s2 s2' : SuggestService L G R C) diff diff' :
  staged s diff s2 -> staged s diff' s2' -> diff = diff' /\ s2 = s2'.
Proof.
  intros (g1 & g2 & E1 & E2 & _ & ->) (g1' & g2' & E1' & E2' & _ & ->).
  rewrite E1 in E1'. injection E1' as <-. rewrite E2 in E2'. by injection E2' as <- <-.
Qed.
End RunEq.

Section Cached.
Context {L G R : Type} `{!LLM L, !Git G, !Redactor R} {tables : UnicodeTables}.

Lemma probe_InMemory (s : Caching L G R) (c : cache.InMemory) key :
  useCache s = true -> cache s = Some c ->
  cache_probe key s = (Return (cache.cache c !! key), s).
Proof.
  intros Hu Hc. unfold cache_probe. rewrite Hu, Hc.
  cbn [Cache_Get cache.InMemory_port]. unfold cache.Get.
  destruct s; cbn in *; subst. by destruct (cache.cache c !! key).
Qed.

Lemma store_InMemory (s : Caching L G R) (c : cache.InMemory) key cands :
  useCache s = true -> cache s = Some c ->
  cache_store key cands s =
  (Return tt, {| llm := llm s; git := git s; redactor := redactor s;
                 cache := Some {| cache.cache := <[key := cands]> (cache.cache c) |};
                 diffCap := diffCap s; timeout := timeout s; useCache := useCache s |}).
Proof. intros Hu Hc. unfold cache_store. by rewrite Hu, Hc. Qed.

(** Claim C3. With caching enabled and the in-memory cache, a call that finds no
    entry for the fingerprint and succeeds calls the provider once and stores
    its answer, as the provider gave it, under the fingerprint; a second call
    with the same provider and model that reads the same staged diff returns
    the same suggestions, normalized and validated again from the stored
    answer, and does not call the provider. *)
Theorem second_call_served_from_cache (s s1 s2 s2' : Caching L G R) (c : cache.InMemory)
    (provider model : string) (temperature : float32) (diff : string)
    (result : list domain.Suggestion) :
  useCache s = true -> cache s = Some c ->
  staged s diff s2 ->
  cache.cache c !! hashDiff diff provider model = None ->
  SuggestCommits provider model temperature s = (Return result, s1) ->
  staged s1 diff s2' ->
  exists input cands l',
    (* the first call *)
    seen (llm s1) = seen (llm s) ++ [input]
    /\ LLM_SuggestCommits (inner (llm s)) input = ((cands, None), l')
    /\ cache s1 = Some {| cache.cache := <[hashDiff diff provider model := cands]> (cache.cache c) |}
    /\ result = List.map normalized (take 3 cands)
    (* the second call *)
    /\ SuggestCommits provider model temperature s1 = (validateAndNormalize cands, s2')
    /\ validateAndNormalize cands = Return result
    /\ seen (llm s2') = seen (llm s1).
Proof.
  intros Hu Hc Hst Hmiss Hcall Hst'.
  pose proof (SuggestCommits_Run s provider model temperature) as HR.
  rewrite Hcall in HR. cbn [fst snd] in HR.
  destruct (staged_fields _ _ _ Hst) as (Hl2 & Hr2 & Hc2 & Hd2 & Hu2).
  assert (Hp : cache_probe (hashDiff diff provider model) s2 = (Return None, s2)).
  { rewrite <- Hmiss. apply probe_InMemory; congruence. }
  inversion HR as [| | | | diff0 s20 cached s30 Hst0 Hp0 | |
                   | | diff0 s20 s30 capped cands l' result0 s5 Hst0 Hp0 Hcap Hllm Hv Hs];
    subst; destruct (staged_functional _ _ _ _ _ Hst Hst0) as [<- <-].
  { rewrite Hp in Hp0. discriminate. }
  rewrite Hp in Hp0. injection Hp0 as <-.
  cbn [LLM_SuggestCommits Recording_port] in Hllm.
  rewrite Hl2 in Hllm.
  assert (Hin : provider_input s2 capped model temperature
                = provider_input s capped model temperature).
  { unfold provider_input. by rewrite Hr2. }
  rewrite Hin in Hllm.
  destruct (LLM_SuggestCommits (inner (llm s)) (provider_input s capped model temperature))
    as [[cands0 err0] l0] eqn:E. injection Hllm as -> -> <-.
  rewrite (store_InMemory _ c) in Hs by (cbn; congruence).
  injection Hs as <-. cbn [llm cache with_llm].
  destruct (staged_fields _ _ _ Hst') as (Hl2' & Hr2' & Hc2' & Hd2' & Hu2').
  cbn [llm cache with_llm useCache] in *.
  exists (provider_input s capped model temperature), cands, l0.
  apply validateAndNormalize_Return in Hv as Hv'. destruct Hv' as (_ & -> & _).
  repeat split; try done.
  - apply Run_eq. eapply Run_cache_hit; [exact Hst'|].
    erewrite probe_InMemory; [|congruence|exact Hc2'].
    cbn. by rewrite lookup_insert_eq.
  - by rewrite Hl2'.
Qed.

End Cached.

Lemma chr_inj (a b : Z) : is_byte a -> is_byte b -> chr a = chr b -> a = b.
Proof.
  unfold chr, is_byte. intros Ha Hb E.
  apply (f_equal N_of_ascii) in E.
  rewrite !N_ascii_embedding in E by lia. lia.
Qed.

Lemma hex_digit_inj (a b : Z) :
  (0 <= a < 16)%Z -> (0 <= b < 16)%Z -> hex.digit a = hex.digit b -> a = b.
Proof.
  intros Ha Hb. unfold hex.digit.
  destruct (a <? 10)%Z eqn:Ea, (b <? 10)%Z eqn:Eb; intros E;
    apply chr_inj in E; unfold is_byte; lia.
Qed.

Lemma hex_x_inj (a b : list Z) :
  Forall is_byte a -> Forall is_byte b -> hex.x a = hex.x b -> a = b.
Proof.
  intros Ha. revert b. induction Ha as [|x a Hx Ha IH]; intros b Hb E.
  - destruct b; [done|discriminate].
  - destruct Hb as [|y b Hy Hb]; [discriminate|].
    simpl in E. injection E as E1 E2 E3.
    unfold is_byte in *.
    rewrite !Z.shiftr_div_pow2 in E1 by lia.
    change 0xF%Z with (Z.ones 4) in E2. rewrite !Z.land_ones in E2 by lia.
    apply hex_digit_inj in E1; [|split; [apply Z.div_pos; lia | apply Z.div_lt_upper_bound; lia]..].
    apply hex_digit_inj in E2; [|apply Z.mod_pos_bound; lia..].
    f_equal; [|by apply IH].
    rewrite (Z.div_mod x (2^4)), (Z.div_mod y (2^4)) by lia. congruence.
Qed.

Lemma be_bytes_range (n : nat) (x : Z) : Forall is_byte (sha256.be_bytes n x).
Proof.
  unfold sha256.be_bytes. apply Forall_forall. intros b Hb.
  apply list_elem_of_In, in_map_iff in Hb as (i & <- & _).
  change 0xFF%Z with (Z.ones 8). rewrite Z.land_ones by lia.
  unfold is_byte. apply Z.mod_pos_bound. lia.
Qed.

Lemma Sum256_range (s : string) : Forall is_byte (sha256.Sum256 s).
Proof.
  unfold sha256.Sum256. apply Forall_forall. intros b Hb.
  apply list_elem_of_In, in_concat in Hb as (l & Hl & Hb).
  apply in_map_iff in Hl as (w & <- & _).
  pose proof (be_bytes_range 4 w) as Hr. rewrite Forall_forall in Hr.
  apply Hr. by apply list_elem_of_In.
Qed.

(** The digests of the empty string and of [abc]. *)
Lemma Sum256_test_vectors :
  hex.x (sha256.Sum256 "")
  = "e3b0c44298fc1c149afbf4c8996fb92427ae41e4649b934ca495991b7852b855"
  /\ hex.x (sha256.Sum256 "abc")
     = "ba7816bf8f01cfea414140de5dae2223b00361a396177a9cb410ff61f20015ad".
Proof. split; vm_compute; reflexivity. Qed.

Lemma hashDiff_eq (diff provider model : string) :
  hashDiff diff provider model = hex.x (sha256.Sum256 (fingerprint_input diff provider model)).
Proof. reflexivity. Qed.



Section Fingerprint.
Context {L G R : Type} `{!LLM L, !Git G, !Redactor R} {tables : UnicodeTables}.

End Fingerprint.

(** * The repository check through the git executor *)

Section Executor.
Context {W L R C : Type} `{!git.OS W, !LLM L, !Redactor R, !Cache C} {tables : UnicodeTables}.
Variable Commit : git.Executor W -> string -> bool -> (string * option error) * git.Executor W.

Lemma IsInRepository_never_errs (e : git.Executor W) :
  snd (fst (git.IsInRepository e)) = None.
Proof.
  unfold git.IsInRepository.
  destruct (git.Cmd_Output _ _ _) as [[output err] w]. by destruct err.
Qed.

(** Claim C7. When [git rev-parse] cannot be run or fails for any reason, the
    executor answers [false] without an error, and [SuggestCommits] reports
    [not in a git repository]. *)
Theorem tool_failure_reported_as_not_a_repository
    (s : SuggestService L (git.Executor W) R C) (provider model : string)
    (temperature : float32) (output : string) (err : error) (w : W) :
  git.Cmd_Output (git.world (git s)) "git" ["rev-parse"; "--is-inside-work-tree"]
    = ((output, Some err), w) ->
  fst (@SuggestCommits L (git.Executor W) R C _ (git.Executor_port Commit) _ _ _
         provider model temperature s)
  = Fail (fmt.Errorf "not in a git repository").
Proof.
  intros E.
  unfold SuggestCommits, mbind, M_bind, bind, call_IsInRepository.
  cbn [Git_IsInRepository git.Executor_port]. unfold git.IsInRepository. by rewrite E.
Qed.
End Executor.

Section Entry.
Context {L G R C : Type} `{!LLM L, !Git G, !Redactor R, !Cache C} {tables : UnicodeTables}.

(** Property X22. The errors of the entry steps of [SuggestCommits]: what the port
    reports decides, and the three messages differ. *)
Lemma entry_errors (s : SuggestService L G R C) provider model temperature :
  let o := (SuggestCommits provider model temperature s).1 in
  (forall b err g, Git_IsInRepository (git s) = ((b, Some err), g) ->
     o = Fail (fmt.Errorf_w "failed to check repository status: " err))
  /\ (forall g, Git_IsInRepository (git s) = ((false, None), g) ->
        o = Fail (fmt.Errorf "not in a git repository"))
  /\ (forall g1 g2, Git_IsInRepository (git s) = ((true, None), g1) ->
        Git_StagedDiff g1 = (("", None), g2) ->
        o = Fail (fmt.Errorf "no staged changes"))
  /\ (forall err,
        Error (fmt.Errorf_w "failed to check repository status: " err)
          <> Error (fmt.Errorf "not in a git repository")
        /\ Error (fmt.Errorf_w "failed to check repository status: " err)
          <> Error (fmt.Errorf "no staged changes"))
  /\ Error (fmt.Errorf "not in a git repository") <> Error (fmt.Errorf "no staged changes").
Proof.
  intros o. repeat split.
  - intros b err g E. unfold o. erewrite Run_eq; [|by eapply Run_check_error]. done.
  - intros g E. unfold o. erewrite Run_eq; [|by eapply Run_not_in_repository]. done.
  - intros g1 g2 E1 E2. unfold o. erewrite Run_eq; [|by eapply Run_no_staged_changes]. done.
  - discriminate.
  - discriminate.
  - discriminate.
Qed.
End Entry.

Section Domain.
Context {tables : UnicodeTables}.

Lemma len_nonneg (s : string) : (0 <= len s)%Z.
Proof. unfold len. lia. Qed.

Lemma Normalize_Subject_le (s : domain.Suggestion) :
  (len (domain.Subject (domain.Normalize s)) <= 72)%Z.
Proof.
  unfold domain.Normalize. cbn [domain.Subject].
  destruct (72 <? len (strings.TrimSpace (domain.Subject s)))%Z eqn:E.
  - apply Z.ltb_lt in E. rewrite len_slice_prefix; lia.
  - apply Z.ltb_ge in E. done.
Qed.

End Domain.

(** Claim C10. [Format] renders the type, a colon and a space, the subject, then
    a blank line and the body when the body is not empty, then a blank line
    and the footer when the footer is not empty; with a body and a footer
    that are not empty the message is type, colon, space, subject, blank
    line, body, blank line, footer. *)
Theorem Format_renders (s : domain.Suggestion) :
  domain.Format s
  = (domain.Type_ s +:+ ": " +:+ domain.Subject s)
    +:+ (if String.eqb (domain.Body s) "" then "" else newline2 +:+ domain.Body s)
    +:+ (if String.eqb (domain.Footer s) "" then "" else newline2 +:+ domain.Footer s)
  /\ (domain.Body s <> "" -> domain.Footer s <> "" ->
      domain.Format s
      = domain.Type_ s +:+ ": " +:+ domain.Subject s +:+ newline2 +:+ domain.Body s
        +:+ newline2 +:+ domain.Footer s).
Proof.
  split.
  - unfold domain.Format, newline2.
    destruct (String.eqb (domain.Body s) ""), (String.eqb (domain.Footer s) ""); cbn [negb];
      rewrite ?append_empty_r, ?append_assoc; reflexivity.
  - intros Hb%String.eqb_neq Hf%String.eqb_neq. unfold domain.Format, newline2.
    rewrite Hb, Hf. cbn [negb]. rewrite !append_assoc. reflexivity.
Qed.

Section CommitService.
Context {G : Type} `{!Git G}.

(** Claim C9. [Commit] fails with [commit message cannot be empty] exactly when
    the message is the empty string, and then does not call the commit of
    the git port; for every other message, a string of spaces included, it
    calls it once, with the message and the flag it was given. *)
Theorem Commit_empty_message (c : CommitService (RecordingGit G)) (message : string)
    (dryRun : bool) :
  let o := (Commit message dryRun c).1 in
  let c' := (Commit message dryRun c).2 in
  (o = Fail EmptyCommitMessage <-> message = "")
  /\ (message = "" -> c' = c)
  /\ (message <> "" ->
      commits (commit_git c') = commits (commit_git c) ++ [(message, dryRun)]
      /\ ((exists hash, o = Return hash)
          \/ (exists err, o = Fail (fmt.Errorf_w "git commit failed: " err)))).
Proof.
  intros o c'. subst o c'. unfold Commit, EmptyCommitMessage.
  destruct (String.eqb message "") eqn:E.
  - apply String.eqb_eq in E as ->. repeat split; try done.
  - apply String.eqb_neq in E.
    unfold mbind, M_bind, bind, call_Commit.
    cbn [Git_Commit RecordingGit_port].
    destruct (Git_Commit (inner_git (commit_git c)) message dryRun) as [[hash err] g'].
    cbn [fst snd].
    destruct err as [err|]; cbn [fst snd commit_git commits];
      (split; [split; [discriminate|done]|]); (split; [done|]); intros _; split; eauto.
Qed.
End CommitService.

(** * The language of an expression *)

Section Sound.

Lemma rep_loop_sound step (La : list ascii -> Prop) k :
  (forall l k' x, step l k' = Some x -> exists u v, l = u ++ v /\ La u /\ k' v = Some x) ->
  forall n min l x,
    rep_loop step k n min l = Some x ->
    exists ws v, l = concat ws ++ v /\ Forall (fun u => La u /\ u <> []) ws
                 /\ (min <= length ws)%nat /\ k v = Some x.
Proof.
  intros Hstep n. induction n as [|n IH]; intros min l x E; simpl in E.
  - destruct min; [|discriminate]. exists [], l. by repeat split.
  - destruct (step l _) as [y|] eqn:Es.
    + injection E as ->. apply Hstep in Es as (u & v & -> & Hu & Hk).
      destruct (length v <? length (u ++ v))%nat eqn:El; [|discriminate].
      apply Nat.ltb_lt in El. rewrite length_app in El.
      apply IH in Hk as (ws & v' & -> & Hws & Hmin & Hk).
      exists (u :: ws), v'. simpl. rewrite app_assoc.
      split; [done|]. split; [|split; [lia|done]].
      constructor; [split; [done|]|done]. intros ->. simpl in El. lia.
    + destruct min; [|discriminate]. exists [], l. by repeat split.
Qed.

Lemma run_sound r : forall l k x,
  run r l k = Some x -> exists u v, l = u ++ v /\ lang r u /\ k v = Some x.
Proof.
  induction r as [|p|a IHa b IHb|a IHa b IHb|a IHa min]; intros l k x E; simpl in E.
  - exists [], l. by repeat split.
  - destruct l as [|c t]; [discriminate|]. destruct (p c) eqn:Ep; [|discriminate].
    exists [c], t. repeat split; try done. by exists c.
  - apply IHa in E as (u & v & -> & Hu & E). apply IHb in E as (u' & v' & -> & Hu' & E).
    exists (u ++ u'), v'. rewrite app_assoc. repeat split; try done. by exists u, u'.
  - destruct (run a l k) as [y|] eqn:Ea.
    + injection E as ->. apply IHa in Ea as (u & v & -> & Hu & E). exists u, v. split; [done|]. split; [by left|done].
    + apply IHb in E as (u & v & -> & Hu & E). exists u, v. split; [done|]. split; [by right|done].
  - eapply rep_loop_sound in E as (ws & v & -> & Hws & Hmin & Hk); [|exact IHa].
    exists (concat ws), v. repeat split; try done. by exists ws.
Qed.

Lemma rep_loop_complete step (La : list ascii -> Prop) k :
  (forall u v k', La u -> is_Some (k' v) -> is_Some (step (u ++ v) k')) ->
  forall ws v n min,
    Forall (fun u => La u /\ u <> []) ws -> (min <= length ws)%nat -> is_Some (k v) ->
    (length (concat ws ++ v) <= n)%nat ->
    is_Some (rep_loop step k n min (concat ws ++ v)).
Proof.
  intros Hstep ws. induction ws as [|u ws IH]; intros v n min Hws Hmin Hk Hn.
  - simpl. assert (min = 0)%nat as -> by (simpl in Hmin; lia).
    destruct n; simpl; [done|]. by destruct (step v _).
  - apply Forall_cons in Hws as [[Hu Hne] Hws].
    change (concat (u :: ws) ++ v) with ((u ++ concat ws) ++ v) in *.
    rewrite <- app_assoc in *.
    assert (Hl : (length (concat ws ++ v) < length (u ++ concat ws ++ v))%nat).
    { rewrite (length_app u). destruct u; [done|simpl; lia]. }
    destruct n as [|n]; [lia|]. cbn [rep_loop].
    match goal with
    | |- context [step _ ?k'] =>
        destruct (Hstep u (concat ws ++ v) k' Hu) as [y Hy]; [|by rewrite Hy]
    end.
    apply Nat.ltb_lt in Hl as Hl'. rewrite Hl'.
    apply IH; try done; simpl in Hmin; lia.
Qed.

Lemma run_complete r : forall u v k,
  lang r u -> is_Some (k v) -> is_Some (run r (u ++ v) k).
Proof.
  induction r as [|p|a IHa b IHb|a IHa b IHb|a IHa min]; intros u v k Hu Hk; simpl in *.
  - by subst.
  - destruct Hu as (c & -> & Hp). simpl. by rewrite Hp.
  - destruct Hu as (u1 & u2 & -> & H1 & H2). rewrite <- app_assoc.
    apply IHa; [done|]. by apply IHb.
  - destruct Hu as [Hu|Hu].
    + by destruct (IHa u v k Hu Hk) as [y ->].
    + destruct (run a (u ++ v) k); [done|]. by apply IHb.
  - destruct Hu as (ws & -> & Hws & Hmin).
    by eapply rep_loop_complete.
Qed.

Lemma lang_nil_nullable r : lang r [] -> nullable r = true.
Proof.
  induction r as [|p|a IHa b IHb|a IHa b IHb|a IHa min]; simpl; intros H.
  - done.
  - by destruct H as (c & ? & _).
  - destruct H as (u & v & E & Hu & Hv). symmetry in E. apply app_eq_nil in E as [-> ->].
    by rewrite IHa, IHb.
  - destruct H as [H|H]; [rewrite IHa|rewrite IHb]; try done. apply orb_true_r.
  - destruct H as (ws & E & Hws & Hmin). destruct ws as [|u ws].
    + simpl in Hmin. by destruct min; [|lia].
    + apply Forall_cons in Hws as [[_ Hne] _]. simpl in E. symmetry in E.
      by apply app_eq_nil in E as [-> _].
Qed.

Lemma matches_lang r l : matches r l = true -> lang r l.
Proof.
  unfold matches. destruct (run r l _) as [x|] eqn:E; [|discriminate]. intros _.
  apply run_sound in E as (u & v & -> & Hu & E). destruct v; [|discriminate].
  by rewrite app_nil_r.
Qed.

(** A string of the language at the start of [l] is found. *)
Lemma match_here_complete r m b : lang r m -> is_Some (match_here r (m ++ b)).
Proof. intros Hm. unfold match_here. by apply run_complete. Qed.

(** A match of an expression that is not nullable takes a byte. *)
Lemma match_here_progress r l rest :
  nullable r = false -> match_here r l = Some rest -> (length rest < length l)%nat.
Proof.
  intros Hn E. apply run_sound in E as (u & v & -> & Hu & [= ->]).
  rewrite length_app. destruct u; [|simpl; lia].
  apply lang_nil_nullable in Hu. congruence.
Qed.

End Sound.

(** * What the strings of a language look like *)

Section Shape.

Lemma all_ascii_complete (c : ascii) : In c all_ascii.
Proof.
  unfold all_ascii. apply in_map_iff. exists (nat_of_ascii c). split.
  - apply ascii_nat_embedding.
  - apply in_seq. pose proof (nat_ascii_bounded c). lia.
Qed.

Lemma subclass_spec p q c : subclass p q = true -> p c = true -> q c = true.
Proof.
  unfold subclass. rewrite forallb_forall. intros H Hp.
  specialize (H c (all_ascii_complete c)). by rewrite Hp in H.
Qed.

Lemma apart_spec p q c : apart p q = true -> p c = true -> q c = false.
Proof.
  unfold apart. rewrite forallb_forall. intros H Hp.
  specialize (H c (all_ascii_complete c)). rewrite Hp in H. by destruct (q c).
Qed.

Lemma classes_in_lang q r : forall w,
  classes_in q r = true -> lang r w -> Forall (fun c => q c = true) w.
Proof.
  induction r as [|p|a IHa b IHb|a IHa b IHb|a IHa min]; intros w Hc Hw; simpl in *.
  - subst. constructor.
  - destruct Hw as (c & -> & Hp). repeat constructor. by eapply subclass_spec.
  - apply andb_true_iff in Hc as [Ha Hb]. destruct Hw as (u & v & -> & Hu & Hv).
    apply Forall_app. split; auto.
  - apply andb_true_iff in Hc as [Ha Hb]. destruct Hw as [Hw|Hw]; auto.
  - destruct Hw as (ws & -> & Hws & _). apply Forall_concat.
    eapply Forall_impl; [exact Hws|]. intros u [Hu _]. auto.
Qed.

Lemma minlen_lang r : forall w, lang r w -> (minlen r <= length w)%nat.
Proof.
  induction r as [|p|a IHa b IHb|a IHa b IHb|a IHa min]; intros w Hw; simpl in *.
  - lia.
  - destruct Hw as (c & -> & _). simpl. lia.
  - destruct Hw as (u & v & -> & Hu & Hv). rewrite length_app.
    specialize (IHa _ Hu). specialize (IHb _ Hv). lia.
  - destruct Hw as [Hw|Hw]; [specialize (IHa _ Hw)|specialize (IHb _ Hw)]; lia.
  - destruct Hw as (ws & -> & Hws & Hmin).
    assert (length ws * minlen a <= length (concat ws))%nat as Hl.
    { clear Hmin. induction Hws as [|u ws [Hu _] _ IH]; simpl; [lia|].
      rewrite length_app. specialize (IHa _ Hu). lia. }
    nia.
Qed.

Lemma firsts_lang r : forall c w, lang r (c :: w) -> firsts r c = true.
Proof.
  induction r as [|p|a IHa b IHb|a IHa b IHb|a IHa min]; intros c w Hw; simpl in *.
  - discriminate.
  - destruct Hw as (c' & [= -> _] & Hp). done.
  - destruct Hw as (u & v & E & Hu & Hv). destruct u as [|c' u].
    + simpl in E. subst v. apply lang_nil_nullable in Hu. rewrite Hu.
      rewrite (IHb _ _ Hv). apply orb_true_r.
    + injection E as <- ->. by rewrite (IHa _ _ Hu).
  - destruct Hw as [Hw|Hw]; [rewrite (IHa _ _ Hw)|rewrite (IHb _ _ Hw)]; try done.
    apply orb_true_r.
  - destruct Hw as (ws & E & Hws & _). destruct Hws as [|u ws [Hu Hne] _]; [discriminate|].
    destruct u as [|c' u]; [done|]. injection E as <- _. eauto.
Qed.

Lemma lasts_lang r : forall c w, lang r (w ++ [c]) -> lasts r c = true.
Proof.
  induction r as [|p|a IHa b IHb|a IHa b IHb|a IHa min]; intros c w Hw; simpl in *.
  - by destruct w.
  - destruct Hw as (c' & E & Hp). destruct w as [|? [|? ?]]; simplify_eq/=. done.
  - destruct Hw as (u & v & E & Hu & Hv).
    destruct (decide (v = [])) as [->|Hv'].
    + rewrite app_nil_r in E. subst u. apply lang_nil_nullable in Hv. rewrite Hv.
      rewrite (IHa _ _ Hu). apply orb_true_r.
    + destruct (exists_last Hv') as (v' & c' & ->).
      rewrite app_assoc in E. apply app_inj_tail in E as [_ <-].
      by rewrite (IHb _ _ Hv).
  - destruct Hw as [Hw|Hw]; [rewrite (IHa _ _ Hw)|rewrite (IHb _ _ Hw)]; try done.
    apply orb_true_r.
  - destruct Hw as (ws & E & Hws & _). revert w E.
    induction Hws as [|u ws [Hu Hne] Hws IH]; intros w E.
    + by destruct w.
    + simpl in E. destruct (decide (concat ws = [])) as [Hc|Hc].
      * rewrite Hc, app_nil_r in E. subst u. eauto.
      * destruct (exists_last Hc) as (v' & c' & Ec). rewrite Ec in E.
        rewrite app_assoc in E. apply app_inj_tail in E as [_ <-].
        apply (IH v'). done.
Qed.

End Shape.

(** * Occurrences and replacement *)

Section Replace.
Variable repl : list ascii.

Lemma occurs_nil_inv m : occurs m [] -> m = [].
Proof.
  intros (a & b & E). symmetry in E. apply app_eq_nil in E as [_ E].
  by apply app_eq_nil in E as [-> _].
Qed.

Lemma occurs_cons_inv m c t : occurs m (c :: t) -> m `prefix_of` (c :: t) \/ occurs m t.
Proof.
  intros (a & b & E). destruct a as [|c' a].
  - left. exists b. done.
  - right. injection E as _ ->. by exists a, b.
Qed.

Lemma occurs_prefix m t : m `prefix_of` t -> occurs m t.
Proof. intros [b ->]. by exists [], b. Qed.

Lemma occurs_suffix_part m a b : occurs m b -> occurs m (a ++ b).
Proof. intros (x & y & ->). exists (a ++ x), y. by rewrite <- app_assoc. Qed.

Lemma existsb_eqb_elem (c : ascii) (l : list ascii) :
  List.existsb (Ascii.eqb c) l = false -> c ∉ l.
Proof.
  intros E Hin. apply list_elem_of_In in Hin.
  assert (List.existsb (Ascii.eqb c) l = true); [|congruence].
  apply existsb_exists. exists c. split; [done|apply Ascii.eqb_refl].
Qed.

(** A part of [m] that starts where an inserted [repl] starts. *)
Lemma overlap_false m w1 w2 :
  keeps_clear repl m -> m = w1 ++ w2 -> w2 <> [] ->
  w2 `prefix_of` repl \/ repl `prefix_of` w2 -> False.
Proof.
  intros [Hne [(hd & lt & Hhd & Hlt & Hall & Hlen)|(Hfirst & Hlast & Hocc)]] -> Hw2 Hov.
  - apply head_Some in Hhd as [tl ->].
    destruct w2 as [|c w2]; [done|].
    assert (c = hd) as ->.
    { destruct Hov as [Hov|Hov]; by apply prefix_cons_inv_1 in Hov. }
    apply Forall_app in Hall as [_ Hall]. apply Forall_cons in Hall as [[? _] _]. done.
  - destruct Hov as [Hov|[k ->]].
    + destruct (exists_last Hw2) as (w2' & c & ->).
      apply (Hlast c).
      * rewrite app_assoc. apply last_snoc.
      * destruct Hov as [k ->]. rewrite !elem_of_app. left. right. left.
    + apply Hocc. by exists w1, k.
Qed.

(** An occurrence of [m] after an inserted [repl] starts behind it. *)
Lemma occurs_after_repl m X :
  keeps_clear repl m -> occurs m (repl ++ X) -> occurs m X.
Proof.
  intros Hk (a & b & E).
  apply app_eq_inv in E as [(k & Hr & Hmb)|(k & -> & ->)]; [|by exists k, b].
  (* [repl = a ++ k] and [m ++ b = k ++ X] *)
  destruct (decide (k = [])) as [->|Hk'].
  { simpl in Hmb. subst X. by exists [], b. }
  exfalso.
  destruct Hk as [Hne [(hd & lt & Hhd & Hlt & Hall & Hlen)|(Hfirst & Hlast & Hocc)]].
  - assert (Hpre : m `prefix_of` k \/ k `prefix_of` m).
    { apply (prefix_weak_total _ _ (m ++ b)); [by exists b|]. rewrite Hmb. by exists X. }
    destruct (exists_last Hk') as (k' & c & ->).
    assert (c = lt) as ->.
    { rewrite Hr, app_assoc, last_snoc in Hlt. congruence. }
    destruct Hpre as [Hpre|[j ->]].
    + apply prefix_length_eq in Hpre.
      * subst m. apply Forall_app in Hall as [_ Hall].
        apply Forall_cons in Hall as [[_ ?] _]. done.
      * rewrite Hr, length_app in Hlen. lia.
    + rewrite <- app_assoc in Hall. apply Forall_app in Hall as [_ Hall].
      apply Forall_cons in Hall as [[_ ?] _]. done.
  - destruct m as [|c m]; [done|]. destruct k as [|c' k]; [done|].
    injection Hmb as -> _. apply (Hfirst c'); [done|].
    rewrite Hr, elem_of_app. right. left.
Qed.

(** A prefix of the output is a prefix of the input or reaches an inserted
    [repl]. *)
Lemma replace_prefix r : forall t w,
  w `prefix_of` replace_go r repl 0 t ->
  w `prefix_of` t
  \/ exists w1 w2, w = w1 ++ w2 /\ w2 <> [] /\ (w2 `prefix_of` repl \/ repl `prefix_of` w2).
Proof.
  induction t as [|c t IH]; intros w Hw; [by left|].
  destruct w as [|c' w]; [left; apply prefix_nil|].
  assert (Hcopy : c' :: w `prefix_of` c :: replace_go r repl 0 t ->
                  c' :: w `prefix_of` c :: t
                  \/ exists w1 w2, c' :: w = w1 ++ w2 /\ w2 <> []
                                   /\ (w2 `prefix_of` repl \/ repl `prefix_of` w2)).
  { intros Hp. pose proof (prefix_cons_inv_1 _ _ _ _ Hp) as ->.
    apply prefix_cons_inv_2 in Hp. destruct (IH _ Hp) as [Hp'|(w1 & w2 & -> & Hw2 & Hov)].
    - left. by apply prefix_cons.
    - right. exists (c :: w1), w2. done. }
  cbn [replace_go] in Hw. destruct (match_here r (c :: t)) as [rest|]; [|by apply Hcopy].
  destruct (length (c :: t) - length rest)%nat as [|k] eqn:En; [by apply Hcopy|].
  right. exists [], (c' :: w). split; [done|]. split; [done|].
  apply (prefix_weak_total _ _ (repl ++ replace_go r repl k t)); [done|by eexists].
Qed.

(** After a pass, [m] does not occur in the output when every occurrence
    of [m] in the input is at the start of a match that takes a byte. *)
Lemma replace_clear r m : forall l,
  keeps_clear repl m ->
  (forall a b, l = a ++ b -> m `prefix_of` b ->
     exists rest, match_here r b = Some rest /\ (length rest < length b)%nat) ->
  forall skip, ~ occurs m (replace_go r repl skip l).
Proof.
  induction l as [|c t IH]; intros Hk Hm skip Hocc.
  - destruct skip; apply occurs_nil_inv in Hocc; by destruct Hk.
  - assert (Hm' : forall a b, t = a ++ b -> m `prefix_of` b ->
       exists rest, match_here r b = Some rest /\ (length rest < length b)%nat).
    { intros a b -> Hp. apply (Hm (c :: a)); done. }
    assert (Hcopy : (forall rest, match_here r (c :: t) = Some rest ->
                                  (length (c :: t) - length rest = 0)%nat) ->
                    replace_go r repl 0 (c :: t) = c :: replace_go r repl 0 t ->
                    occurs m (replace_go r repl 0 (c :: t)) -> False).
    { intros Hno Eout Ho. rewrite Eout in Ho.
      apply occurs_cons_inv in Ho as [Hp|Ho]; [|by apply (IH Hk Hm' 0%nat)].
      rewrite <- Eout in Hp. apply replace_prefix in Hp as [Hp|(w1 & w2 & -> & Hw2 & Hov)].
      - destruct (Hm [] (c :: t) eq_refl Hp) as (rest & E & Hl).
        specialize (Hno _ E). lia.
      - by eapply overlap_false. }
    destruct skip as [|skip]; [|by apply (IH Hk Hm' skip)].
    destruct (match_here r (c :: t)) as [rest|] eqn:E.
    + destruct (length (c :: t) - length rest)%nat as [|k] eqn:En.
      * apply Hcopy; [| |done].
        -- intros rest' E'. congruence.
        -- cbn [replace_go]. by rewrite E, En.
      * cbn [replace_go] in Hocc. rewrite E, En in Hocc.
        apply occurs_after_repl in Hocc; [|done]. by apply (IH Hk Hm' k).
    + apply Hcopy; [| |done].
      * intros rest' E'. congruence.
      * cbn [replace_go]. by rewrite E.
Qed.

(** A pass of an expression removes the strings of its language. *)
Lemma replace_removes r m l :
  nullable r = false -> lang r m -> keeps_clear repl m ->
  ~ occurs m (replace_go r repl 0 l).
Proof.
  intros Hn Hm Hk. apply replace_clear; [done|].
  intros a b -> [b' ->].
  destruct (match_here_complete r m b' Hm) as [rest E].
  exists rest. split; [done|]. by eapply match_here_progress.
Qed.

(** A pass brings no string back that [keeps_clear] of [repl]. *)
Lemma replace_keeps_absent r m l :
  keeps_clear repl m -> ~ occurs m l -> ~ occurs m (replace_go r repl 0 l).
Proof.
  intros Hk Hno. apply replace_clear; [done|].
  intros a b -> Hp. exfalso. apply Hno. by apply occurs_suffix_part, occurs_prefix.
Qed.

Lemma redact_keeps_absent ps m : forall l,
  keeps_clear repl m -> ~ occurs m l -> ~ occurs m (redact_bytes ps repl l).
Proof.
  induction ps as [|p ps IH]; intros l Hk Hno; [done|].
  simpl. apply IH; [done|]. by apply replace_keeps_absent.
Qed.

Lemma redact_removes ps p m : forall l,
  In p ps -> nullable (expr p) = false -> lang (expr p) m -> keeps_clear repl m ->
  ~ occurs m (redact_bytes ps repl l).
Proof.
  induction ps as [|p' ps IH]; intros l Hin Hn Hm Hk; [done|].
  simpl. destruct Hin as [->|Hin].
  - apply redact_keeps_absent; [done|]. by apply replace_removes.
  - by apply IH.
Qed.

Lemma clear_check_spec r m :
  clear_check repl r = true -> lang r m -> ~ occurs repl m ->
  nullable r = false /\ keeps_clear repl m.
Proof.
  unfold clear_check. intros Hc Hm Hocc.
  apply andb_true_iff in Hc as [Hn Hc]. apply negb_true_iff in Hn.
  split; [done|].
  assert (Hne : m <> []).
  { intros ->. apply lang_nil_nullable in Hm. congruence. }
  split; [done|].
  destruct (head repl) as [hd|] eqn:Ehd; [|discriminate].
  destruct (last repl) as [lt|] eqn:Elt; [|discriminate].
  apply orb_true_iff in Hc as [Hc|Hc]; apply andb_true_iff in Hc as [H1 H2].
  - left. exists hd, lt. repeat split; try done.
    + eapply Forall_impl; [by eapply classes_in_lang|].
      intros c Hcc. simpl in Hcc. apply andb_true_iff in Hcc as [Ha Hb].
      apply negb_true_iff in Ha, Hb. apply Ascii.eqb_neq in Ha, Hb. done.
    + apply Nat.leb_le in H2. pose proof (minlen_lang _ _ Hm). lia.
  - right. repeat split; try done.
    + intros c Hh. apply head_Some in Hh as [w ->].
      apply firsts_lang in Hm. apply existsb_eqb_elem.
      exact (apart_spec _ _ c H1 Hm).
    + intros c Hl. apply last_Some in Hl as [w ->].
      apply lasts_lang in Hm. apply existsb_eqb_elem.
      exact (apart_spec _ _ c H2 Hm).
Qed.

End Replace.

Section Strings.

Lemma Contains_occurs (t m : string) :
  strings.Contains t m = true -> occurs (bytes_of m) (bytes_of t).
Proof.
  unfold strings.Contains. destruct (String.index 0 m t) as [i|] eqn:E; [|discriminate].
  intros _. apply index_correct1 in E. apply (f_equal bytes_of) in E.
  rewrite bytes_of_substring in E.
  exists (take i (bytes_of t)), (drop (String.length m) (drop i (bytes_of t))).
  rewrite <- E. by rewrite !take_drop.
Qed.

Lemma occurs_Contains (t m : string) :
  occurs (bytes_of m) (bytes_of t) -> strings.Contains t m = true.
Proof.
  intros (a & b & E). unfold strings.Contains.
  destruct (String.index 0 m t) as [i|] eqn:Ei; [done|]. exfalso.
  destruct (decide (m = "")) as [->|Hm].
  { destruct t; simpl in Ei; discriminate. }
  eapply (index_correct3 0 (length a)) in Ei; [|done|lia].
  apply Ei. apply bytes_of_inj.
  rewrite bytes_of_substring, E, drop_app_length, <- length_bytes_of, take_app_length. done.
Qed.

Lemma not_Contains_occurs (t m : string) :
  strings.Contains t m = false <-> ~ occurs (bytes_of m) (bytes_of t).
Proof.
  split.
  - intros E Ho. apply occurs_Contains in Ho. congruence.
  - intros Hno. destruct (strings.Contains t m) eqn:E; [|done].
    by apply Contains_occurs in E.
Qed.

Lemma bytes_of_Redact (r : security.Redactor) (text : string) :
  bytes_of (security.Redact r text)
  = redact_bytes (security.patterns r) (bytes_of security.placeholder) (bytes_of text).
Proof.
  unfold security.Redact, redact_bytes. generalize (security.patterns r). intros ps.
  revert text. induction ps as [|p ps IH]; intros text; [done|].
  simpl. rewrite IH. unfold ReplaceAllString.
  by rewrite list_ascii_of_string_of_list_ascii.
Qed.

Lemma NewRedactor_clear_check :
  List.forallb (fun p => clear_check (bytes_of security.placeholder) (expr p))
               (security.patterns security.NewRedactor) = true.
Proof. vm_compute. reflexivity. Qed.

(** No string that matches a pattern of the redactor and does not hold the
    placeholder is left in a redacted text. *)
Lemma Redact_removes_secrets (text secret : string) (pattern : Regexp) :
  In pattern (security.patterns security.NewRedactor) ->
  FullMatch pattern secret = true ->
  strings.Contains secret security.placeholder = false ->
  strings.Contains (security.Redact security.NewRedactor text) secret = false.
Proof.
  intros Hin Hm Hp. apply not_Contains_occurs. rewrite bytes_of_Redact.
  apply not_Contains_occurs in Hp. apply matches_lang in Hm.
  pose proof NewRedactor_clear_check as Hc. rewrite forallb_forall in Hc.
  destruct (clear_check_spec _ _ _ (Hc _ Hin) Hm Hp) as [Hn Hk].
  by eapply redact_removes.
Qed.

(** Where no pattern matches, nothing is replaced. *)
Lemma find_go_None r : forall l i,
  find_go r l i = None -> forall a b, l = a ++ b -> match_here r b = None.
Proof.
  induction l as [|c t IH]; intros i E a b Eab; cbn [find_go] in E.
  - symmetry in Eab. apply app_eq_nil in Eab as [-> ->].
    destruct (match_here r []); [discriminate|done].
  - destruct (match_here r (c :: t)) eqn:Em; [discriminate|].
    destruct a as [|c' a]; [simpl in Eab; by subst b|].
    injection Eab as _ ->. by eapply IH.
Qed.

Lemma replace_go_unmatched r repl : forall l,
  (forall a b, l = a ++ b -> match_here r b = None) -> replace_go r repl 0 l = l.
Proof.
  induction l as [|c t IH]; intros Hno; [done|].
  cbn [replace_go]. rewrite (Hno [] (c :: t) eq_refl). f_equal. apply IH.
  intros a b ->. by apply (Hno (c :: a)).
Qed.

Lemma Redact_unmatched (r : security.Redactor) (text : string) :
  Forall (fun p => anchored p = false) (security.patterns r) ->
  security.Contains r text = false -> security.Redact r text = text.
Proof.
  unfold security.Contains, security.Redact. generalize (security.patterns r). intros ps.
  induction ps as [|p ps IH]; intros Hanch Hc; [done|].
  apply Forall_cons in Hanch as [Hp Hanch].
  simpl in *. apply orb_false_iff in Hc as [Hm Hc].
  assert (ReplaceAllString p text security.placeholder = text) as ->; [|by apply IH].
  unfold ReplaceAllString. unfold MatchString, FindStringIndex in Hm. rewrite Hp in Hm.
  destruct (find_go (expr p) (bytes_of text) 0) eqn:Ef; [discriminate|].
  rewrite replace_go_unmatched; [apply string_of_list_ascii_of_string|].
  by eapply find_go_None.
Qed.

End Strings.

Section Egress.
Context {L G C : Type} `{!LLM L, !Git G, !Cache C} {tables : UnicodeTables}.

(** Claim C2, amended. A call hands the provider at most one input, and its
    text is the redaction of the capped diff; no string that matches a
    pattern of the redactor as a whole and does not hold the placeholder
    occurs in it. *)
Theorem secrets_redacted_before_provider (s : Guarded L G C) (provider model : string)
    (temperature : float32) :
  redactor s = security.NewRedactor ->
  let s' := (SuggestCommits provider model temperature s).2 in
  (seen (llm s') = seen (llm s) \/ exists input, seen (llm s') = seen (llm s) ++ [input])
  /\ forall input,
       seen (llm s') = seen (llm s) ++ [input] ->
       (exists diff s2 capped,
          staged s diff s2 /\ capDiff diff (diffCap s) = Return capped
          /\ StagedDiff input = security.Redact security.NewRedactor capped)
       /\ forall pattern secret,
            In pattern (security.patterns security.NewRedactor) ->
            FullMatch pattern secret = true ->
            strings.Contains secret security.placeholder = false ->
            strings.Contains (StagedDiff input) secret = false.
Proof.
  intros Hr s'. pose proof (SuggestCommits_Run s provider model temperature) as HR.
  fold s' in HR.
  destruct (Run_provider _ _ _ _ _ _ HR) as [[Hs _]|
    (diff & s2 & s3 & capped & cands & err & l0 & Hst & _ & Hcap & _ & Hs & _)].
  - split; [by left|]. intros input Hseen.
    rewrite Hs in Hseen. symmetry in Hseen. by apply seen_grows_ne in Hseen.
  - split; [right; eauto|]. intros input Hseen.
    rewrite Hs in Hseen. apply app_inv_head in Hseen. injection Hseen as <-.
    assert (Hin : StagedDiff (provider_input s capped model temperature)
                  = security.Redact security.NewRedactor capped).
    { unfold provider_input. cbn [StagedDiff Redactor_Redact security.Redactor_port].
      by rewrite Hr. }
    split; [by exists diff, s2, capped|].
    intros pattern secret Hp Hm Hc. rewrite Hin. by eapply Redact_removes_secrets.
Qed.
End Egress.

(** Claim C2 as stated fails. The staged diff [nested_key_diff] holds, within the
    cap, a string that matches the JSON key pattern, and that string occurs
    in the text handed to the provider. *)
Lemma secret_survives_redaction :
  let s := example_service nested_key_diff 8192 in
  let s' := (@SuggestCommits _ _ _ _ _ _ _ _ example_tables
               "openai" gpt_4o_mini 0%Z s).2 in
  capDiff nested_key_diff 8192 = Return nested_key_diff
  /\ strings.Contains nested_key_diff nested_key_secret = true
  /\ In security.jsonKeyPattern (security.patterns security.NewRedactor)
  /\ FullMatch security.jsonKeyPattern nested_key_secret = true
  /\ exists input, seen (llm s') = [input]
                   /\ strings.Contains (StagedDiff input) nested_key_secret = true.
Proof.
  cbv zeta. split; [reflexivity|]. split; [vm_compute; reflexivity|].
  split; [do 3 right; left; reflexivity|]. split; [vm_compute; reflexivity|].
  eexists. split; vm_compute; reflexivity.
Qed.

Section Capping.
Context {L G R C : Type} `{!LLM L, !Git G, !Redactor R, !Cache C} {tables : UnicodeTables}.

End Capping.



Lemma invalid_candidate_fails_call_witness :
  exists e,
    (@SuggestCommits _ _ _ _ _ _ _ _ example_tables "openai" gpt_4o_mini temperature_0_7
       bad_type_service).1
    = Fail (fmt.Errorf_w "invalid suggestions from LLM: " (validation_failed 1 e)).
Proof.
  destruct (invalid_candidate_fails_call (tables := example_tables) bad_type_service
              "openai" gpt_4o_mini temperature_0_7) as [H _].
  cbv zeta in H.
  edestruct (H (provider_input bad_type_service sample_diff gpt_4o_mini temperature_0_7)
               (Suggestions (inner bad_type_llm))
               {| Suggestions := Suggestions (inner bad_type_llm); Err := None; CallCount := 1 |}
               1%nat)
    as (j & cj & ej & Hj & Hcj & Hej & Ho).
  - vm_compute. reflexivity.
  - vm_compute. reflexivity.
  - exact (le_n 3).
  - apply Nat.ltb_lt. reflexivity.
  - reflexivity.
  - vm_compute. reflexivity.
  - destruct j as [|[|j]]; [|by exists ej|exfalso; clear -Hj; lia].
    injection Hcj as <-. vm_compute in Hej. discriminate Hej.
Defined.

Lemma example_staged (diff : string) (cap : Z) llm c :
  diff <> "" ->
  let s := Suggest (NewApp llm (example_git diff) c cap true)
           : SuggestService (Recording FakeLLM) FakeGit security.Redactor cache.InMemory in
  staged s diff s.
Proof. intros Hne s. exists (example_git diff), (example_git diff). done. Qed.

Lemma second_call_served_from_cache_witness :
  let s := example_service sample_diff 8192 in
  exists result,
    (example_call s).1 = Return result
    /\ (example_call (example_call s).2).1 = Return result
    /\ seen (llm (example_call (example_call s).2).2) = seen (llm (example_call s).2).
Proof.
  intros s.
  destruct (example_call s).1 as [result|e|msg] eqn:E;
    [|vm_compute in E; discriminate E..].
  assert (Hst1 : staged (example_call s).2 sample_diff
                   (with_git (example_call s).2 (example_git sample_diff))).
  { exists (example_git sample_diff), (example_git sample_diff).
    split; [vm_compute; reflexivity|]. split; [reflexivity|]. split; [discriminate|reflexivity]. }
  destruct (second_call_served_from_cache (tables := example_tables)
              s (example_call s).2 s _ cache.NewInMemory
              "openai" gpt_4o_mini temperature_0_7 sample_diff result
              eq_refl eq_refl (example_staged sample_diff 8192 _ _ ltac:(discriminate))
              (lookup_empty _)
              ltac:(rewrite <- E; apply surjective_pairing) Hst1)
    as (input & cands & l' & _ & _ & _ & _ & E2 & Ev & Hseen).
  exists result. split; [reflexivity|]. split.
  - rewrite E2. exact Ev.
  - rewrite E2. exact Hseen.
Defined.


Lemma tool_failure_reported_as_not_a_repository_witness :
  fst (@SuggestCommits FakeLLM (git.Executor NoGit) security.Redactor cache.InMemory
         _ (git.Executor_port no_commit) _ _ example_tables
         "openai" gpt_4o_mini temperature_0_7
         (Suggest (NewApp (inner example_llm) (git.NewExecutor no_git)
                     (Some cache.NewInMemory) 8192 true)))
  = Fail (fmt.Errorf "not in a git repository").
Proof.
  eapply (tool_failure_reported_as_not_a_repository (tables := example_tables)). reflexivity.
Defined.


Lemma Format_renders_witness :
  let s := {| domain.Type_ := "fix"; domain.Subject := "handle nil pointer";
              domain.Body := "Added null check"; domain.Footer := "Closes #123" |} in
  domain.Body s <> "" /\ domain.Footer s <> ""
  /\ domain.Format s
     = "fix: handle nil pointer" +:+ newline2 +:+ "Added null check" +:+ newline2 +:+ "Closes #123".
Proof.
  intros s. split; [discriminate|]. split; [discriminate|].
  destruct (Format_renders s) as [_ H]. rewrite H; [reflexivity|discriminate..].
Defined.

Lemma Commit_empty_message_witness :
  ("   " <> "")
  /\ commits (commit_git (Commit "   " false example_commit_service).2) = [("   ", false)]
  /\ (Commit "" false example_commit_service).1 = Fail EmptyCommitMessage
  /\ (Commit "" false example_commit_service).2 = example_commit_service.
Proof.
  split; [discriminate|].
  destruct (Commit_empty_message example_commit_service "   " false) as (_ & _ & H3).
  destruct (Commit_empty_message example_commit_service "" false) as (H1' & H2' & _).
  split; [|split].
  - destruct (H3 ltac:(discriminate)) as [Hc _]. exact Hc.
  - apply H1'. reflexivity.
  - apply H2'. reflexivity.
Defined.

Lemma secrets_redacted_before_provider_witness :
  let s := example_service api_key_diff 8192 in
  strings.Contains api_key_diff "sk-1234567890abcdefghijXYZ" = true
  /\ exists input,
       seen (llm (example_call s).2) = seen (llm s) ++ [input]
       /\ strings.Contains (StagedDiff input) "sk-1234567890abcdefghijXYZ" = false.
Proof.
  intros s. split; [vm_compute; reflexivity|].
  destruct (secrets_redacted_before_provider (tables := example_tables) s
              "openai" gpt_4o_mini temperature_0_7 eq_refl) as [_ H].
  exists (provider_input s api_key_diff gpt_4o_mini temperature_0_7).
  assert (Hseen : seen (llm (example_call s).2)
                  = seen (llm s) ++ [provider_input s api_key_diff gpt_4o_mini temperature_0_7])
    by (vm_compute; reflexivity).
  split; [exact Hseen|].
  destruct (H _ Hseen) as [_ Hclear].
  apply (Hclear security.apiKeyPattern); [left; reflexivity|vm_compute; reflexivity..].
Defined.


(** * Further properties *)

Lemma cache_after_snoc ops o : cache_after (ops ++ [o]) = cache_step (cache_after ops) o.
Proof. unfold cache_after. by rewrite fold_left_app. Qed.

Lemma cache_after_lookup ops key :
  cache.cache (cache_after ops) !! key = latest key (rev ops).
Proof.
  induction ops as [|o ops IH] using rev_ind; [done|].
  rewrite cache_after_snoc, rev_unit. destruct o as [k v|k|]; simpl.
  - destruct (String.eqb k key) eqn:E.
    + apply String.eqb_eq in E as ->. apply lookup_insert_eq.
    + apply String.eqb_neq in E. by rewrite lookup_insert_ne.
  - unfold cache.Get. by destruct (cache.cache (cache_after ops) !! k).
  - done.
Qed.

(** Property X1. [Get] answers from the history of the cache: after any operations
    on a new cache it returns, without an error, the suggestions of the
    latest [Set] of the key that no [Clear] follows, and the error
    [cache miss] with no suggestions when there is none; [Set] returns no
    error and [Get] leaves the cache as it is. *)
Theorem InMemory_Get_latest_Set (ops : list cache_op) (key : string) :
  (cache.Get (cache_after ops) key).1
  = match latest key (rev ops) with
    | Some suggestions => (suggestions, None)
    | None => ([], Some (fmt.Errorf "cache miss"))
    end
  /\ (cache.Get (cache_after ops) key).2 = cache_after ops
  /\ forall suggestions, (cache.Set_ (cache_after ops) key suggestions).1 = None.
Proof.
  split; [|split].
  - unfold cache.Get. rewrite cache_after_lookup. by destruct (latest key (rev ops)).
  - unfold cache.Get. by destruct (cache.cache (cache_after ops) !! key).
  - done.
Qed.

(** Property X2. [Size] counts the keys: a [Set] of a key that is not stored adds
    one, a [Set] of a stored key and a [Get] leave it, and after [Clear] it
    is 0 and every [Get] misses. *)
Theorem InMemory_Size (c : cache.InMemory) (key : string)
    (suggestions : list CommitSuggestion) :
  cache.Size (cache.Set_ c key suggestions).2
  = (if decide (is_Some (cache.cache c !! key)) then cache.Size c else S (cache.Size c))
  /\ cache.Size (cache.Get c key).2 = cache.Size c
  /\ cache.Size (cache.Clear c) = 0%nat
  /\ (cache.Get (cache.Clear c) key).1 = ([], Some (fmt.Errorf "cache miss"))
  /\ cache.Size cache.NewInMemory = 0%nat.
Proof.
  unfold cache.Size, cache.Set_, cache.Get, cache.Clear. cbn [snd fst cache.cache].
  split; [|split; [|split; [|split]]].
  - destruct (decide _) as [[v Hv]|Hn].
    + rewrite <- (insert_delete_id (cache.cache c) key v Hv) at 2.
      rewrite <- insert_delete_eq.
      rewrite !map_size_insert_None by apply lookup_delete_eq. done.
    + apply eq_None_not_Some in Hn. by rewrite map_size_insert_None.
  - by destruct (cache.cache c !! key).
  - apply map_size_empty.
  - by rewrite lookup_empty.
  - apply map_size_empty.
Qed.

(** Property X3. [capDiff] panics exactly when the cap is negative and never returns
    an error; what it returns is the first bytes of the diff, as many as the
    smaller of the length and the cap, and capping that again changes
    nothing. *)
Theorem capDiff_prefix_or_panic (diff : string) (maxBytes : Z) :
  ((exists msg, capDiff diff maxBytes = Panic msg) <-> (maxBytes < 0)%Z)
  /\ (forall e, capDiff diff maxBytes <> Fail e)
  /\ (forall capped, capDiff diff maxBytes = Return capped ->
        len capped = Z.min (len diff) maxBytes
        /\ (exists rest, diff = capped +:+ rest)
        /\ capDiff capped maxBytes = Return capped).
Proof.
  pose proof (len_nonneg diff) as Hd.
  split; [|split].
  - unfold capDiff. split.
    + intros [msg E]. destruct (len diff <=? maxBytes)%Z; [discriminate|].
      destruct (maxBytes <? 0)%Z eqn:E'; [by apply Z.ltb_lt in E'|discriminate].
    + intros Hneg. destruct (len diff <=? maxBytes)%Z eqn:E1; [apply Z.leb_le in E1; lia|].
      apply Z.ltb_lt in Hneg. rewrite Hneg. eauto.
  - intros e. unfold capDiff. repeat case_match; discriminate.
  - intros capped E.
    destruct (Z.ltb_spec maxBytes 0) as [Hneg|Hpos].
    { unfold capDiff in E. destruct (len diff <=? maxBytes)%Z eqn:E1; [apply Z.leb_le in E1; lia|].
      apply Z.ltb_lt in Hneg. rewrite Hneg in E. discriminate. }
    destruct (capDiff_nonneg diff maxBytes Hpos) as (capped' & E' & Hle & Hc & Hrest).
    rewrite E in E'. injection E' as <-.
    split; [|split; [done|]].
    + rewrite Hc. destruct (len diff <=? maxBytes)%Z eqn:E1.
      * apply Z.leb_le in E1. lia.
      * apply Z.leb_gt in E1. rewrite len_slice_prefix; lia.
    + unfold capDiff. apply Z.leb_le in Hle. by rewrite Hle.
Qed.

Section Orchestration.
Context {L G R C : Type} `{!LLM L, !Git G, !Redactor R, !Cache C} {tables : UnicodeTables}.

(** Property X4. With a negative cap, a call that reads a staged diff and finds no
    entry in the cache panics, and the provider is not called; an entry of
    the cache is still served. *)
Theorem negative_cap_panics (s s2 s3 : Observed L G R C) (provider model : string)
    (temperature : float32) (diff : string) (hit : option (list CommitSuggestion)) :
  (diffCap s < 0)%Z ->
  staged s diff s2 ->
  cache_probe (hashDiff diff provider model) s2 = (Return hit, s3) ->
  match hit with
  | None =>
      exists msg, SuggestCommits provider model temperature s = (Panic msg, s3)
  | Some cached =>
      SuggestCommits provider model temperature s = (validateAndNormalize cached, s3)
  end
  /\ seen (llm s3) = seen (llm s).
Proof.
  intros Hneg Hst Hp.
  destruct (staged_fields _ _ _ Hst) as (Hl & Hr & Hc & Hd & Hu).
  destruct (cache_probe_fields _ _ _ _ Hp) as (Hl3 & _ & _ & Hd3 & _).
  split; [|by rewrite Hl3, Hl].
  destruct hit as [cached|].
  - apply Run_eq. by eapply Run_cache_hit.
  - assert (Hpanic : exists msg, capDiff diff (diffCap s) = Panic msg).
    { unfold capDiff. pose proof (len_nonneg diff) as Hlen.
      destruct (len diff <=? diffCap s)%Z eqn:E1; [apply Z.leb_le in E1; lia|].
      apply Z.ltb_lt in Hneg as ->. eauto. }
    destruct Hpanic as [msg E]. exists msg.
    apply Run_eq. eapply Run_cap_panic; [done..|]. by rewrite Hd3, Hd.
Qed.

(** Property X6. When caching is switched off or there is no cache, a call leaves
    the cache field as it is, and every call that reads a staged diff, with
    a cap that is not negative, hands the provider one input. *)
Theorem caching_disabled (s : Observed L G R C) (provider model : string)
    (temperature : float32) :
  useCache s = false \/ cache s = None ->
  let s' := (SuggestCommits provider model temperature s).2 in
  cache s' = cache s
  /\ forall diff s2,
       staged s diff s2 -> (0 <= diffCap s)%Z ->
       exists capped,
         capDiff diff (diffCap s) = Return capped
         /\ seen (llm s') = seen (llm s) ++ [provider_input s capped model temperature].
Proof.
  intros Hoff s'.
  assert (Hprobe : forall key (t : Observed L G R C),
            useCache t = useCache s -> cache t = cache s ->
            cache_probe key t = (Return None, t)).
  { intros key t Hu Hc. unfold cache_probe. rewrite Hu, Hc.
    destruct Hoff as [-> | ->]; [done|]. by destruct (useCache s). }
  assert (Hstore : forall key cands (t : Observed L G R C),
            useCache t = useCache s -> cache t = cache s ->
            cache_store key cands t = (Return tt, t)).
  { intros key cands t Hu Hc. unfold cache_store. rewrite Hu, Hc.
    destruct Hoff as [-> | ->]; [done|]. by destruct (useCache s). }
  pose proof (SuggestCommits_Run s provider model temperature) as HR. fold s' in HR.
  split.
  - run_cases HR; try done;
      destruct (staged_fields _ _ _ Hst) as (Hl & Hr & Hc & Hd & Hu);
      rewrite (Hprobe _ s2 Hu Hc) in Hp; try discriminate;
      injection Hp as <-; try done.
    rewrite (Hstore _ _ (with_llm s2 l')) in Hs by done. injection Hs as <-. done.
  - intros diff s2 Hst Hcap.
    destruct (capDiff_nonneg diff (diffCap s) Hcap) as (capped & Ecap & _).
    exists capped. split; [done|].
    destruct (staged_fields _ _ _ Hst) as (Hl & Hr & Hc & Hd & Hu).
    destruct (Run_provider _ _ _ _ _ _ HR) as [[Hs Hi]|
      (diff' & s2' & s3 & capped' & cands & err & l0 & Hst' & _ & Hcap' & _ & Hs & _)].
    + exfalso.
      destruct (LLM_SuggestCommits (llm s2) (provider_input s2 capped model temperature))
        as [[cands e] l'] eqn:E.
      assert (HR' : exists o s'', Run s provider model temperature o s''
                      /\ seen (llm s'') = seen (llm s) ++ [provider_input s capped model temperature]).
      { assert (Hin : provider_input s2 capped model temperature
                      = provider_input s capped model temperature)
          by (unfold provider_input; by rewrite Hr).
        assert (Hseen : seen l' = seen (llm s) ++ [provider_input s capped model temperature]).
        { cbn [LLM_SuggestCommits Recording_port] in E. rewrite Hl, Hin in E.
          destruct (LLM_SuggestCommits (inner (llm s)) _) as [[? ?] ?].
          by injection E as _ _ <-. }
        destruct e as [e|].
        { eexists _, _. split; [eapply Run_llm_error; [done|by apply Hprobe|by rewrite Hd|done]|].
          done. }
        destruct (validateAndNormalize cands) as [result|e|msg] eqn:Ev.
        - eexists _, _. split.
          + eapply Run_success; [done|by apply Hprobe|by rewrite Hd|done..|].
            by apply Hstore.
          + done.
        - eexists _, _. split; [eapply Run_invalid; [done|by apply Hprobe|by rewrite Hd|done..]|].
          done.
        - by apply validateAndNormalize_no_Panic in Ev. }
      destruct HR' as (o & s'' & HR' & Hseen').
      apply Run_eq in HR'. apply Run_eq in HR. rewrite HR in HR'. injection HR' as _ <-.
      rewrite Hs in Hseen'. symmetry in Hseen'. by apply seen_grows_ne in Hseen'.
    + destruct (staged_functional _ _ _ _ _ Hst Hst') as [<- <-].
      rewrite Ecap in Hcap'. by injection Hcap' as <-.
Qed.
End Orchestration.

Section CacheDiscipline.
Context {L G R : Type} `{!LLM L, !Git G, !Redactor R} {tables : UnicodeTables}.

Lemma probe_InMemory_same key (s s3 : Caching L G R) hit :
  cache_probe key s = (Return hit, s3) -> s3 = s.
Proof.
  unfold cache_probe. destruct (useCache s) eqn:Eu, (cache s) as [c|] eqn:Ec;
    try (by intros [= _ <-]).
  cbn [Cache_Get cache.InMemory_port]. unfold cache.Get.
  destruct s; cbn in *; subst.
  by destruct (cache.cache c !! key); intros [= _ <-].
Qed.

(** The cache after a call: as before, or with the answer of the provider
    under the fingerprint. *)
Lemma cache_after_call (s : Caching L G R) (provider model : string)
    (temperature : float32) :
  let o := (SuggestCommits provider model temperature s).1 in
  let s' := (SuggestCommits provider model temperature s).2 in
  cache s' = cache s
  \/ exists c diff s2 input cands l' result,
       useCache s = true /\ cache s = Some c /\ staged s diff s2
       /\ seen (llm s') = seen (llm s) ++ [input]
       /\ LLM_SuggestCommits (inner (llm s)) input = ((cands, None), l')
       /\ o = Return result
       /\ cache s' = Some {| cache.cache :=
                               <[hashDiff diff provider model := cands]> (cache.cache c) |}.
Proof.
  intros o s'. pose proof (SuggestCommits_Run s provider model temperature) as HR.
  fold o s' in HR.
  destruct (Run_provider _ _ _ _ _ _ HR) as [[Hseen0 Hin0]|
    (diff & s2 & s3 & capped & cands & err & l0 & Hst & Hp & Hcap & Hllm & Hseen0 & Hi & Ho & Hc)].
  - left. run_cases HR; try done;
      destruct (staged_fields _ _ _ Hst) as (Hl & Hr & Hc & Hd & Hu);
      apply probe_InMemory_same in Hp as ->; try done.
    destruct (cache_store_fields _ _ _ _ Hs) as (Hl5 & _).
    rewrite Hl5 in Hseen0. cbn in Hseen0.
    cbn [LLM_SuggestCommits Recording_port] in Hllm. rewrite Hl in Hllm.
    destruct (LLM_SuggestCommits (inner (llm s)) _) as [[? ?] ?].
    injection Hllm as _ _ <-. cbn in Hseen0. by apply seen_grows_ne in Hseen0.
  - destruct (staged_fields _ _ _ Hst) as (Hl2 & Hr2 & Hc2 & Hd2 & Hu2).
    apply probe_InMemory_same in Hp as Es3. subst s3.
    destruct o as [result|e|msg] eqn:Eo.
    + destruct (useCache s) eqn:Eu, (cache s) as [c|] eqn:Ec.
      * right. exists c, diff, s2, (provider_input s capped model temperature), cands, l0, result.
        rewrite (store_InMemory _ c) in Hc by (cbn; congruence).
        injection Hc as <-. cbn [cache llm seen].
        unfold outcome_of_answer in Ho. destruct err; [discriminate|].
        repeat split; done.
      * left. unfold cache_store in Hc. cbn [useCache cache with_llm] in Hc.
        rewrite ?Hu2, ?Hc2 in Hc. injection Hc as <-. cbn. congruence.
      * left. unfold cache_store in Hc. cbn [useCache cache with_llm] in Hc.
        rewrite ?Hu2, ?Hc2 in Hc. injection Hc as <-. cbn. congruence.
      * left. unfold cache_store in Hc. cbn [useCache cache with_llm] in Hc.
        rewrite ?Hu2, ?Hc2 in Hc. injection Hc as <-. cbn. congruence.
    + left. congruence.
    + left. congruence.
Qed.

(** Property X5. With the in-memory cache, a call changes the cache only when it
    called the provider and succeeded: a call that fails or panics leaves
    the cache as it is, and so does a call that does not call the provider;
    a call that changes the cache has stored the answer of the provider
    under the fingerprint of the staged diff. *)
Theorem cache_written_only_on_success (s : Caching L G R) (provider model : string)
    (temperature : float32) :
  let o := (SuggestCommits provider model temperature s).1 in
  let s' := (SuggestCommits provider model temperature s).2 in
  ((forall result, o <> Return result) -> cache s' = cache s)
  /\ (seen (llm s') = seen (llm s) -> cache s' = cache s)
  /\ (cache s' <> cache s ->
      exists c diff s2 input cands l',
        cache s = Some c /\ staged s diff s2
        /\ seen (llm s') = seen (llm s) ++ [input]
        /\ LLM_SuggestCommits (inner (llm s)) input = ((cands, None), l')
        /\ cache s' = Some {| cache.cache :=
                                <[hashDiff diff provider model := cands]> (cache.cache c) |}).
Proof.
  intros o s'.
  destruct (cache_after_call s provider model temperature)
    as [E|(c & diff & s2 & input & cands & l' & result & Hu & Hc & Hst & Hseen & Hllm & Ho & E)];
    fold o s' in E |- *.
  - repeat split; try done.
  - fold o in Ho. fold s' in Hseen. split; [|split].
    + intros Hno. by specialize (Hno result).
    + intros Hsame. rewrite Hsame in Hseen. symmetry in Hseen. by apply seen_grows_ne in Hseen.
    + intros _. by exists c, diff, s2, input, cands, l'.
Qed.

(** Property X7. With the in-memory cache, [SuggestCommits] keeps the cache valid:
    when every entry passes validation before a call, every entry passes it
    after the call, so that a cache filled by the orchestrator alone never
    makes a call fail. *)
Theorem cache_stays_valid (s : Caching L G R) (provider model : string)
    (temperature : float32) :
  cache_valid (cache s) ->
  cache_valid (cache (SuggestCommits provider model temperature s).2).
Proof.
  intros Hvalid.
  destruct (cache_after_call s provider model temperature)
    as [E|(c & diff & s2 & input & cands & l' & result & Hu & Hc & Hst & Hseen & Hllm & Ho & E)].
  - by rewrite E.
  - rewrite E. intros m key cands' [= <-] Hlook. cbn [cache.cache] in Hlook.
    destruct (decide (key = hashDiff diff provider model)) as [->|Hne].
    + rewrite lookup_insert_eq in Hlook. injection Hlook as <-.
      pose proof (SuggestCommits_Run s provider model temperature) as HR.
      rewrite Ho in HR.
      destruct (Run_provider _ _ _ _ _ _ HR) as [[Hs _]|
        (diff' & s2' & s3 & capped & cands0 & err & l0 & _ & _ & _ & Hllm' & Hs & _ & Ho' & _)].
      { rewrite Hs in Hseen. symmetry in Hseen. by apply seen_grows_ne in Hseen. }
      rewrite Hs in Hseen. apply app_inv_head in Hseen. injection Hseen as <-.
      rewrite Hllm in Hllm'. injection Hllm' as <- <- _.
      unfold outcome_of_answer in Ho'.
      destruct (validateAndNormalize cands) as [r|e|msg]; try discriminate. eauto.
    + rewrite lookup_insert_ne in Hlook by done. by eapply Hvalid.
Qed.
End CacheDiscipline.

Lemma split_at_first {A} (x : A) (a1 b1 a2 b2 : list A) :
  a1 ++ x :: b1 = a2 ++ x :: b2 -> x ∉ a1 -> x ∉ a2 -> a1 = a2 /\ b1 = b2.
Proof.
  revert a2. induction a1 as [|y a1 IH]; intros [|z a2] E H1 H2; simpl in E.
  - by injection E as ->.
  - injection E as -> _. exfalso. apply H2. left.
  - injection E as -> _. exfalso. apply H1. left.
  - injection E as -> E. apply not_elem_of_cons in H1 as [_ H1], H2 as [_ H2].
    destruct (IH _ E H1 H2) as [-> ->]. done.
Qed.

Lemma bytes_of_fingerprint_input (diff provider model : string) :
  rev (bytes_of (fingerprint_input diff provider model))
  = (rev (bytes_of model) ++ rev (bytes_of "model=")) ++ newline
      :: (rev (bytes_of provider) ++ rev (bytes_of "provider=")) ++ newline
      :: rev (bytes_of diff).
Proof.
  unfold fingerprint_input. rewrite !bytes_of_app. cbn [bytes_of].
  rewrite !rev_app_distr. cbn [rev app]. rewrite <- !app_assoc, app_nil_r. reflexivity.
Qed.

Lemma fingerprint_input_inj3 (d1 p1 m1 d2 p2 m2 : string) :
  single_line p1 -> single_line m1 -> single_line p2 -> single_line m2 ->
  fingerprint_input d1 p1 m1 = fingerprint_input d2 p2 m2 ->
  d1 = d2 /\ p1 = p2 /\ m1 = m2.
Proof.
  unfold single_line. intros Hp1 Hm1 Hp2 Hm2 E.
  apply (f_equal (fun s => rev (bytes_of s))) in E.
  rewrite !bytes_of_fingerprint_input in E.
  assert (Hfree : forall s t, newline ∉ bytes_of s -> newline ∉ t -> newline ∉ rev (bytes_of s) ++ t).
  { intros s t Hs Ht Hin. apply elem_of_app in Hin as [Hin|Hin]; [|done].
    apply Hs. apply list_elem_of_In, in_rev. by apply list_elem_of_In. }
  assert (HM : newline ∉ rev (bytes_of "model=")).
  { cbn. unfold newline. rewrite !elem_of_cons, elem_of_nil. intros H.
    repeat (destruct H as [H|H]; [discriminate|]). done. }
  assert (HP : newline ∉ rev (bytes_of "provider=")).
  { cbn. unfold newline. rewrite !elem_of_cons, elem_of_nil. intros H.
    repeat (destruct H as [H|H]; [discriminate|]). done. }
  apply split_at_first in E as [Em E]; [|by apply Hfree..].
  apply split_at_first in E as [Ep Ed]; [|by apply Hfree..].
  apply app_inv_tail in Em, Ep.
  apply (f_equal (@rev ascii)) in Em, Ep, Ed. rewrite !rev_involutive in Em, Ep, Ed.
  apply bytes_of_inj in Em, Ep, Ed. done.
Qed.

(** Property X8. The fingerprint joins the diff, the provider and the model with the
    lines [provider=] and [model=] and nothing else, so that a provider or
    a model that holds such a line gives the fingerprint of another pair;
    when the providers and the models have no newline, two triples that
    differ have different fingerprints, unless the bytes hashed for them
    are a collision of SHA-256. *)
Theorem fingerprint_namespace :
  (forall diff provider x model,
     hashDiff diff (provider +:+ String newline "model=" +:+ x) model
     = hashDiff diff provider (x +:+ String newline "model=" +:+ model))
  /\ (forall diff x provider model,
        hashDiff (diff +:+ String newline "provider=" +:+ x) provider model
        = hashDiff diff (x +:+ String newline "provider=" +:+ provider) model)
  /\ (forall d1 p1 m1 d2 p2 m2,
        single_line p1 -> single_line m1 -> single_line p2 -> single_line m2 ->
        (d1, p1, m1) <> (d2, p2, m2) ->
        hashDiff d1 p1 m1 <> hashDiff d2 p2 m2
        \/ sha256_collision (fingerprint_input d1 p1 m1) (fingerprint_input d2 p2 m2)).
Proof.
  split; [|split].
  - intros diff provider x model. rewrite !hashDiff_eq. do 2 f_equal.
    unfold fingerprint_input. apply bytes_of_inj.
    rewrite !bytes_of_app. simpl. rewrite <- ?app_assoc. reflexivity.
  - intros diff x provider model. rewrite !hashDiff_eq. do 2 f_equal.
    unfold fingerprint_input. apply bytes_of_inj.
    rewrite !bytes_of_app. simpl. rewrite <- ?app_assoc. reflexivity.
  - intros d1 p1 m1 d2 p2 m2 Hp1 Hm1 Hp2 Hm2 Hne.
    destruct (decide (hashDiff d1 p1 m1 = hashDiff d2 p2 m2)) as [E|]; [|by left].
    right. split.
    + intros E'. apply fingerprint_input_inj3 in E' as (-> & -> & ->); done.
    + rewrite !hashDiff_eq in E. apply hex_x_inj in E; [done|apply Sum256_range..].
Qed.

Lemma fingerprint_namespace_example :
  hashDiff "d" (String.append "openai" (String newline "model=a")) "b"
  = hashDiff "d" "openai" (String.append "a" (String newline "model=b")).
Proof. apply (proj1 fingerprint_namespace "d" "openai" "a" "b"). Qed.

Section ExecutorEntry.
Context {W L R C : Type} `{!git.OS W, !LLM L, !Redactor R, !Cache C} {tables : UnicodeTables}.
Variable Commit : git.Executor W -> string -> bool -> (string * option error) * git.Executor W.

(** Property X9. Through the git executor, [SuggestCommits] never fails with
    [failed to check repository status], and it fails with
    [not in a git repository] exactly when [git rev-parse] gives an error
    or prints something else than [true] between white space. *)
Theorem Executor_repository_check
    (s : SuggestService L (git.Executor W) R C) (provider model : string)
    (temperature : float32) :
  let o := fst (@SuggestCommits L (git.Executor W) R C _ (git.Executor_port Commit) _ _ _
                  provider model temperature s) in
  let answer := fst (git.Cmd_Output (git.world (git s)) "git"
                       ["rev-parse"; "--is-inside-work-tree"]) in
  (forall err, o <> Fail (fmt.Errorf_w "failed to check repository status: " err))
  /\ (o = Fail (fmt.Errorf "not in a git repository")
      <-> is_Some (snd answer) \/ strings.TrimSpace (fst answer) <> "true").
Proof.
  intros o answer.
  pose proof (@SuggestCommits_Run L (git.Executor W) R C _ (git.Executor_port Commit) _ _ _
                s provider model temperature) as HR.
  fold o in HR.
  cbn [Git_IsInRepository git.Executor_port] in HR.
  assert (Hcheck : forall b e g, git.IsInRepository (git s) = ((b, e), g) ->
            e = None /\ (b = false <-> is_Some (snd answer)
                                      \/ strings.TrimSpace (fst answer) <> "true")).
  { intros b e g E. unfold git.IsInRepository in E. subst answer.
    destruct (git.Cmd_Output _ _ _) as [[output err] w]. cbn [fst snd].
    destruct err as [err|]; injection E as <- <- _.
    - split; [done|]. split; [eauto|done].
    - split; [done|]. rewrite <- String.eqb_neq.
      destruct (String.eqb _ _); split; try done.
      + intros [[? ?]|?]; done.
      + by right. }
  split.
  - intros err Ho.
    inversion HR as [inRepo err0 g1 E Ho' | g1 E Ho' | g1 diff err0 g2 E1 E2 Ho'
                    | g1 g2 E1 E2 Ho' | diff s2 cached s3 Hst Hp Ho'
                    | diff s2 s3 msg Hst Hp Hcap Ho'
                    | diff s2 s3 capped cands err0 l' Hst Hp Hcap Hllm Ho'
                    | diff s2 s3 capped cands l' err0 Hst Hp Hcap Hllm Hv Ho'
                    | diff s2 s3 capped cands l' result s5 Hst Hp Hcap Hllm Hv Hs Ho'];
      rewrite Ho in Ho'; try discriminate.
    + by destruct (Hcheck _ _ _ E).
    + rewrite validateAndNormalize_eq in Ho'. repeat case_match; discriminate.
  - split.
    + intros Ho.
      inversion HR as [inRepo err0 g1 E Ho' | g1 E Ho' | g1 diff err0 g2 E1 E2 Ho'
                      | g1 g2 E1 E2 Ho' | diff s2 cached s3 Hst Hp Ho'
                      | diff s2 s3 msg Hst Hp Hcap Ho'
                      | diff s2 s3 capped cands err0 l' Hst Hp Hcap Hllm Ho'
                      | diff s2 s3 capped cands l' err0 Hst Hp Hcap Hllm Hv Ho'
                      | diff s2 s3 capped cands l' result s5 Hst Hp Hcap Hllm Hv Hs Ho'];
        rewrite Ho in Ho'; try discriminate.
      * by apply (Hcheck _ _ _ E).
      * rewrite validateAndNormalize_eq in Ho'. unfold too_few, validation_failed in Ho'.
        repeat case_match; discriminate.
    + intros Hans.
      destruct (git.IsInRepository (git s)) as [[b e] g] eqn:E.
      destruct (Hcheck _ _ _ eq_refl) as [-> Hb]. apply Hb in Hans as ->.
      unfold o. erewrite Run_eq; [|by eapply Run_not_in_repository]. done.
Qed.

(** Property X10. Through the git executor, when the repository check has passed:
    an error of [git diff --cached --no-color] makes [SuggestCommits] fail
    with [failed to read staged diff: git diff failed: ...], in which the
    error of git is wrapped twice; an empty output makes it fail with
    [no staged changes]; any other output, white space included, is the
    staged diff of the call as it is. *)
Theorem Executor_staged_diff
    (s : SuggestService L (git.Executor W) R C) (provider model : string)
    (temperature : float32) (out1 out2 : string) (err2 : option error) (w1 w2 : W) :
  git.Cmd_Output (git.world (git s)) "git" ["rev-parse"; "--is-inside-work-tree"]
    = ((out1, None), w1) ->
  strings.TrimSpace out1 = "true" ->
  git.Cmd_Output w1 "git" ["diff"; "--cached"; "--no-color"] = ((out2, err2), w2) ->
  let o := fst (@SuggestCommits L (git.Executor W) R C _ (git.Executor_port Commit) _ _ _
                  provider model temperature s) in
  match err2 with
  | Some err =>
      o = Fail (fmt.Errorf_w "failed to read staged diff: "
                  (fmt.Errorf_w "git diff failed: " err))
      /\ (forall e, o = Fail e ->
            Error e = "failed to read staged diff: git diff failed: " +:+ Error err
            /\ (Unwrap e ≫= Unwrap) = Some err)
  | None =>
      (out2 = "" -> o = Fail (fmt.Errorf "no staged changes"))
      /\ (out2 <> "" ->
          @staged L (git.Executor W) R C (git.Executor_port Commit) s out2
            (with_git s {| git.timeout := git.timeout (git s); git.world := w2 |}))
  end.
Proof.
  intros E1 Ht E2 o.
  assert (Hin : git.IsInRepository (git s)
                = ((true, None), {| git.timeout := git.timeout (git s); git.world := w1 |})).
  { unfold git.IsInRepository. rewrite E1, Ht. done. }
  assert (Hdiff : git.StagedDiff {| git.timeout := git.timeout (git s); git.world := w1 |}
                  = ((match err2 with Some _ => "" | None => out2 end,
                      match err2 with
                      | Some err => Some (fmt.Errorf_w "git diff failed: " err)
                      | None => None
                      end),
                     {| git.timeout := git.timeout (git s); git.world := w2 |})).
  { unfold git.StagedDiff. cbn [git.world git.timeout]. rewrite E2. by destruct err2. }
  destruct err2 as [err|].
  - assert (Ho : o = Fail (fmt.Errorf_w "failed to read staged diff: "
                             (fmt.Errorf_w "git diff failed: " err))).
    { unfold o. erewrite Run_eq; [|by eapply Run_diff_error]. done. }
    split; [done|]. intros e He. rewrite Ho in He. injection He as <-.
    split; [|done]. reflexivity.
  - split.
    + intros ->. unfold o. erewrite Run_eq; [|by eapply Run_no_staged_changes]. done.
    + intros Hne. eexists _, _. split; [exact Hin|]. split; [exact Hdiff|]. done.
Qed.
End ExecutorEntry.

Section Footer.

Lemma lang_lit (s : string) (w : list ascii) : lang (lit s) w <-> w = bytes_of s.
Proof.
  revert w. induction s as [|c s IH]; intros w; [done|].
  destruct s as [|c' s'].
  - simpl. split.
    + intros (x & -> & E). unfold just in E. apply Ascii.eqb_eq in E. by subst.
    + intros ->. exists c. split; [done|]. apply Ascii.eqb_refl.
  - change (lit (String c (String c' s'))) with (Cat (Cls (just c)) (lit (String c' s'))).
    cbn [lang]. split.
    + intros (u & v & -> & (x & -> & E) & Hv). apply IH in Hv as ->.
      unfold just in E. apply Ascii.eqb_eq in E. by subst.
    + intros ->. exists [c], (bytes_of (String c' s')). split; [done|]. split.
      * exists c. split; [done|]. apply Ascii.eqb_refl.
      * by apply IH.
Qed.

Lemma lang_footer (w : list ascii) :
  lang (expr domain.footerPattern) w
  <-> exists kw c rest,
        In kw footer_keywords /\ c <> newline
        /\ Forall (fun x => x <> newline) rest
        /\ w = bytes_of kw ++ bytes_of ": " ++ c :: rest.
Proof.
  change (expr domain.footerPattern)
    with (Cat (Alt (lit "BREAKING CHANGE") (Alt (lit "Closes") (lit "Refs")))
              (Cat (lit ": ") (Rep (Cls (except (just newline))) 1))).
  cbn [lang]. setoid_rewrite lang_lit.
  assert (Hcls : forall x, except (just newline) x = true <-> x <> newline).
  { intros x. unfold except, just. rewrite negb_true_iff, Ascii.eqb_neq. split; congruence. }
  split.
  - intros (u & v & -> & Hkw & u2 & v2 & -> & -> & ws & -> & Hws & Hmin).
    assert (Hrest : Forall (fun x => x <> newline) (concat ws)).
    { clear Hmin. induction Hws as [|w ws [(x & -> & Hx) _] _ IH]; [constructor|].
      simpl. constructor; [by apply Hcls|done]. }
    destruct ws as [|w ws]; [simpl in Hmin; lia|].
    apply Forall_cons in Hws as [[(c & -> & Hc) _] _].
    simpl in Hrest. apply Forall_cons in Hrest as [_ Hrest].
    assert (exists kw, In kw footer_keywords /\ u = bytes_of kw) as (kw & Hin & ->).
    { destruct Hkw as [->|[->| ->]]; eexists; (split; [|reflexivity]); simpl; tauto. }
    exists kw, c, (concat ws). split; [done|]. split; [by apply Hcls|]. done.
  - intros (kw & c & rest & Hin & Hc & Hrest & ->).
    exists (bytes_of kw), (bytes_of ": " ++ c :: rest). split; [done|]. split.
    { simpl in Hin. destruct Hin as [<-|[<-|[<-|[]]]]; tauto. }
    exists (bytes_of ": "), (c :: rest). split; [done|]. split; [done|].
    exists (List.map (fun x => [x]) (c :: rest)). split; [|split].
    + clear. induction (c :: rest) as [|x l IH]; [done|]. simpl. by rewrite <- IH.
    + apply Forall_forall. intros w Hw. apply list_elem_of_In, in_map_iff in Hw as (x & <- & Hx).
      split; [|done]. exists x. split; [done|]. apply Hcls.
      apply list_elem_of_In in Hx. apply elem_of_cons in Hx as [->|Hx]; [done|].
      rewrite Forall_forall in Hrest. by apply Hrest.
    + simpl. lia.
Qed.

(** Property X12. [isValidFooter] accepts a footer exactly when it starts with
    [BREAKING CHANGE], [Closes] or [Refs], a colon, a space and one more
    byte that is not a newline; what follows that byte is not looked at, and
    a keyword with its colon and space alone is refused. *)
Theorem isValidFooter_iff (f : string) :
  domain.isValidFooter f = true
  <-> exists kw c rest,
        In kw footer_keywords /\ c <> newline /\ f = kw +:+ ": " +:+ String c rest.
Proof.
  unfold domain.isValidFooter, MatchString, FindStringIndex.
  change (anchored domain.footerPattern) with true. cbn match.
  split.
  - destruct (match_here _ _) as [rest|] eqn:E; [|discriminate]. intros _.
    apply run_sound in E as (u & v & Ef & Hu & _).
    apply lang_footer in Hu as (kw & c & rest' & Hin & Hc & _ & ->).
    exists kw, c, (of_bytes (rest' ++ v)). split; [done|]. split; [done|].
    apply bytes_of_inj. rewrite Ef, !bytes_of_app. cbn [bytes_of].
    rewrite list_ascii_of_string_of_list_ascii, <- !app_assoc. reflexivity.
  - intros (kw & c & rest & Hin & Hc & ->).
    assert (Hl : lang (expr domain.footerPattern) (bytes_of kw ++ bytes_of ": " ++ [c])).
    { apply lang_footer. exists kw, c, []. done. }
    destruct (match_here_complete _ _ (bytes_of rest) Hl) as [x Hx].
    assert (Heq : bytes_of (kw +:+ ": " +:+ String c rest)
                  = (bytes_of kw ++ bytes_of ": " ++ [c]) ++ bytes_of rest).
    { rewrite bytes_of_app, <- !app_assoc. reflexivity. }
    by rewrite Heq, Hx.
Qed.
End Footer.

Section Checks.
Context {tables : UnicodeTables}.

(** Property X11. After [Normalize], [Validate] never reports a subject that
    exceeds 72 characters. *)
Theorem Validate_after_Normalize_no_length_error (s : domain.Suggestion) (n : Z) :
  domain.Validate (domain.Normalize s)
  <> Some (fmt.Errorf ("subject exceeds 72 characters (" +:+ fmt.d n +:+ ")")).
Proof.
  pose proof (Normalize_Subject_le s) as Hle. apply Z.ltb_ge in Hle.
  unfold domain.Validate. rewrite Hle.
  repeat case_match; discriminate.
Qed.
End Checks.

Ltac bool_facts :=
  repeat match goal with
    | H : (_ <? _)%Z = true |- _ => apply Z.ltb_lt in H
    | H : (_ <? _)%Z = false |- _ => apply Z.ltb_ge in H
    | H : (_ <=? _)%Z = true |- _ => apply Z.leb_le in H
    | H : (_ <=? _)%Z = false |- _ => apply Z.leb_gt in H
    | H : (_ =? _)%Z = true |- _ => apply Z.eqb_eq in H
    | H : (_ =? _)%Z = false |- _ => apply Z.eqb_neq in H
    | H : (_ || _) = false |- _ => apply orb_false_iff in H as [? ?]
    | H : (_ || _) = true |- _ => apply orb_true_iff in H as [?|?]
    | H : (_ && _) = true |- _ => apply andb_true_iff in H as [? ?]
    end.

Lemma byte_range (c : ascii) : (0 <= byte c < 256)%Z.
Proof.
  unfold byte. pose proof (N_ascii_bounded c). lia.
Qed.

Lemma first_cases (b : Z) :
  ((b < 0x80)%Z /\ utf8.first b = utf8.as_)
  \/ ((0x80 <= b)%Z
      /\ (utf8.first b = utf8.xx \/ utf8.first b = 0x02%Z \/ utf8.first b = 0x13%Z
          \/ utf8.first b = 0x03%Z \/ utf8.first b = 0x23%Z \/ utf8.first b = 0x34%Z
          \/ utf8.first b = 0x04%Z \/ utf8.first b = 0x44%Z)).
Proof.
  unfold utf8.first. repeat case_match; bool_facts; (left; split; [lia|reflexivity])
    || (right; split; [lia|tauto]).
Qed.

Lemma Decode_size (c : ascii) (t : string) :
  let rs := utf8.DecodeRuneInString (String c t) in
  ((byte c < 0x80)%Z -> rs = (byte c, 1%nat))
  /\ (1 <= snd rs)%nat
  /\ (snd rs - 1 <= String.length t)%nat
  /\ Forall (fun x => (0x80 <= byte x)%Z) (take (snd rs - 1) (bytes_of t)).
Proof.
  pose proof (byte_range c) as Hc.
  unfold utf8.DecodeRuneInString.
  replace (len (String c t) <? 1)%Z with false
    by (symmetry; apply Z.ltb_ge; unfold len; simpl; lia).
  change (idx (String c t) 0) with (byte c).
  destruct (first_cases (byte c)) as [[Hlt ->]|[Hge Hx]].
  { cbn. split; [done|]. split; [lia|]. split; [lia|]. constructor. }
  assert (Hsmall : forall A (x y : A), (byte c < 0x80)%Z -> x = y) by (intros; lia).
  destruct Hx as [-> |[-> |[-> |[-> |[-> |[-> |[-> | ->]]]]]]];
    destruct t as [|c1 [|c2 [|c3 t3]]];
    cbn -[Z.ltb Z.leb Z.eqb];
    repeat case_match; bool_facts; cbn;
    unfold utf8.xx, utf8.as_, utf8.locb, utf8.hicb, len, idx in *; simpl in *;
    (split; [by apply Hsmall|]); (split; [try lia|]); (split; [try lia|]);
    repeat constructor; try lia.
Qed.

Lemma range_go_ascii (s : string) : forall (skip : nat) (i : Z) (c : ascii),
  (skip <= String.length s)%nat ->
  Forall (fun x => (0x80 <= byte x)%Z) (take skip (bytes_of s)) ->
  c ∈ bytes_of s -> (byte c < 0x80)%Z ->
  exists j, (j, byte c) ∈ utf8.range_go skip i s.
Proof.
  induction s as [|a t IH]; intros skip i c Hskip Hcont Hin Hc.
  { by apply elem_of_nil in Hin. }
  cbn [bytes_of] in *. destruct skip as [|k].
  - cbn [utf8.range_go].
    destruct (Decode_size a t) as (Hascii & H1 & Hlen & Hcont').
    destruct (utf8.DecodeRuneInString (String a t)) as [r size]. cbn [snd] in *.
    apply elem_of_cons in Hin as [->|Hin].
    + specialize (Hascii Hc). injection Hascii as -> ->. exists i. left.
    + destruct (IH (size - 1)%nat (i + 1)%Z c Hlen Hcont' Hin Hc) as [j Hj].
      exists j. by right.
  - cbn [utf8.range_go]. cbn [take] in Hcont. apply Forall_cons in Hcont as [Ha Hcont].
    apply elem_of_cons in Hin as [->|Hin]; [lia|].
    simpl in Hskip. apply (IH k (i + 1)%Z c); [lia|done..].
Qed.

(** A control byte is found by [hasControlChars] wherever it stands. *)
Lemma hasControlChars_byte (s : string) (c : ascii) :
  c ∈ bytes_of s -> control_byte c -> domain.hasControlChars s = true.
Proof.
  intros Hin Hc. pose proof (byte_range c) as Hr.
  destruct (range_go_ascii s 0 0 c) as [j Hj]; [lia|constructor|done| |].
  { unfold control_byte in Hc. lia. }
  unfold domain.hasControlChars. apply existsb_exists. exists (j, byte c).
  split; [by apply list_elem_of_In|]. cbn [snd].
  unfold domain.isControlRune. unfold control_byte in Hc.
  destruct Hc as [(H1 & H2 & H3)| ->].
  - apply orb_true_iff. left. apply orb_true_iff. left.
    rewrite !andb_true_iff, !negb_true_iff. repeat split; [by apply Z.ltb_lt|by apply Z.eqb_neq..].
  - reflexivity.
Qed.

Lemma isValidType_In (t : string) :
  domain.isValidType t = true -> In t domain.ValidCommitTypes.
Proof.
  unfold domain.isValidType. induction domain.ValidCommitTypes as [|v l IH]; [discriminate|].
  simpl. destruct (String.eqb t v) eqn:E; [apply String.eqb_eq in E; auto|auto].
Qed.

Lemma single_line_Contains (s : string) :
  strings.Contains s (String newline EmptyString) = false -> single_line s.
Proof.
  intros Hc Hin. apply not_Contains_occurs in Hc. apply Hc.
  apply list_elem_of_split in Hin as (l1 & l2 & E). by exists l1, l2.
Qed.

Section Rules.
Context {tables : UnicodeTables}.

(** Property X13. [Validate] refuses every suggestion whose subject, body or footer
    holds an ASCII control character other than the tab and the newline,
    wherever the byte stands and whatever the other bytes are. *)
Theorem control_bytes_rejected (s : domain.Suggestion) (field : string) (c : ascii) :
  In field [domain.Subject s; domain.Body s; domain.Footer s] ->
  c ∈ bytes_of field -> control_byte c ->
  domain.hasControlChars field = true /\ is_Some (domain.Validate s).
Proof.
  intros Hfield Hin Hc.
  assert (Hctl : domain.hasControlChars field = true) by by eapply hasControlChars_byte.
  split; [done|].
  assert (Hne : String.eqb field "" = false).
  { apply String.eqb_neq. intros ->. by apply elem_of_nil in Hin. }
  unfold domain.Validate.
  destruct Hfield as [<-|[<-|[<-|[]]]]; rewrite ?Hne, ?Hctl; cbn [negb andb];
    repeat case_match; eauto.
Qed.

(** Property X14. The first line of the message of a suggestion that passes
    [Validate] is its type, a colon, a space and its subject: it has no
    newline and between 5 and 82 bytes, and what [Format] puts after it is
    nothing or starts with a blank line. *)
Theorem valid_header_line (s : domain.Suggestion) :
  domain.Validate s = None ->
  single_line (header s)
  /\ (5 <= len (header s) <= 82)%Z
  /\ exists rest, domain.Format s = header s +:+ rest
                  /\ (rest = "" \/ exists r, rest = newline2 +:+ r).
Proof.
  unfold domain.Validate.
  destruct (String.eqb (domain.Type_ s) "") eqn:Et; [discriminate|].
  destruct (domain.isValidType (domain.Type_ s)) eqn:Ev; cbn [negb]; [|discriminate].
  destruct (String.eqb (domain.Subject s) "") eqn:Es; [discriminate|].
  destruct (72 <? len (domain.Subject s))%Z eqn:El; [discriminate|].
  destruct (strings.Contains (domain.Subject s) _) eqn:Ec; [discriminate|].
  intros _. apply isValidType_In in Ev. apply Z.ltb_ge in El.
  apply single_line_Contains in Ec. apply String.eqb_neq in Es.
  assert (Hs1 : (1 <= len (domain.Subject s))%Z).
  { unfold len. destruct (domain.Subject s); [done|simpl; lia]. }
  assert (Hty : single_line (domain.Type_ s) /\ (2 <= len (domain.Type_ s) <= 8)%Z).
  { simpl in Ev. repeat (destruct Ev as [<-|Ev]; [
      split; [|by vm_compute]; unfold single_line, newline; cbn;
      rewrite !elem_of_cons, elem_of_nil; intros H;
      repeat (destruct H as [H|H]; [discriminate|]); done|]).
    done. }
  destruct Hty as [Hty1 Hty2].
  split; [|split].
  - unfold single_line, header in *. rewrite !bytes_of_app. cbn [bytes_of].
    rewrite !elem_of_app, !elem_of_cons, elem_of_nil. unfold newline in *.
    intros [?|[[?|[?|[]]]|?]]; done.
  - unfold header, len in *. rewrite !length_append. simpl. lia.
  - unfold domain.Format. fold (header s). fold newline2.
    destruct (String.eqb (domain.Body s) ""), (String.eqb (domain.Footer s) ""); cbn [negb].
    + exists "". by rewrite append_empty_r; auto.
    + eexists. split; [reflexivity|]. right. eauto.
    + eexists. split; [reflexivity|]. right. eauto.
    + exists (newline2 +:+ domain.Body s +:+ newline2 +:+ domain.Footer s).
      split; [|right; eauto]. by rewrite !append_assoc.
Qed.
End Rules.

Section Passes.
Variable repl : list ascii.

(** A pass leaves its input as it is or leaves [repl] in its output. *)
Lemma replace_go_same_or_marked r : forall l skip,
  replace_go r repl skip l = drop skip l \/ occurs repl (replace_go r repl skip l).
Proof.
  induction l as [|c t IH]; intros skip; [left; by destruct skip|].
  destruct skip as [|k]; cbn [replace_go drop]; [|apply IH].
  destruct (match_here r (c :: t)) as [rest|].
  - destruct (length (c :: t) - length rest)%nat as [|k].
    + destruct (IH 0%nat) as [E|Ho].
      * left. rewrite E. by rewrite drop_0.
      * right. by apply (occurs_suffix_part _ [c]).
    + right. apply occurs_prefix. by eexists.
  - destruct (IH 0%nat) as [E|Ho].
    + left. rewrite E. by rewrite drop_0.
    + right. by apply (occurs_suffix_part _ [c]).
Qed.

(** A pass over an input in which the expression matches somewhere, taking
    a byte, leaves [repl] in its output. *)
Lemma replace_go_marked r : forall l a b rest,
  l = a ++ b -> match_here r b = Some rest -> (length rest < length b)%nat ->
  occurs repl (replace_go r repl 0 l).
Proof.
  induction l as [|c t IH]; intros a b rest E Hm Hl.
  { symmetry in E. apply app_eq_nil in E as [_ ->]. simpl in Hl. lia. }
  cbn [replace_go].
  destruct (match_here r (c :: t)) as [rest0|] eqn:E0.
  - destruct (length (c :: t) - length rest0)%nat as [|k] eqn:En.
    + destruct a as [|c' a].
      * simpl in E. subst b. rewrite E0 in Hm. injection Hm as ->. lia.
      * injection E as _ ->. apply (occurs_suffix_part _ [c]). by eapply IH.
    + apply occurs_prefix. by eexists.
  - destruct a as [|c' a].
    + simpl in E. subst b. congruence.
    + injection E as _ ->. apply (occurs_suffix_part _ [c]). by eapply IH.
Qed.

Lemma redact_keeps_marked ps : forall l,
  occurs repl l -> occurs repl (redact_bytes ps repl l).
Proof.
  induction ps as [|p ps IH]; intros l Ho; [done|].
  simpl. apply IH. destruct (replace_go_same_or_marked (expr p) l 0) as [E|H]; [|done].
  rewrite drop_0 in E. by rewrite E.
Qed.

Lemma redact_marked ps p : forall l a b rest,
  In p ps -> l = a ++ b -> match_here (expr p) b = Some rest -> (length rest < length b)%nat ->
  occurs repl (redact_bytes ps repl l).
Proof.
  induction ps as [|p' ps IH]; intros l a b rest Hin E Hm Hl; [done|].
  simpl. destruct (replace_go_same_or_marked (expr p') l 0) as [Esame|Ho].
  - rewrite drop_0 in Esame. rewrite Esame. destruct Hin as [->|Hin].
    + apply redact_keeps_marked. rewrite <- Esame. by eapply replace_go_marked.
    + by eapply IH.
  - by apply redact_keeps_marked.
Qed.
End Passes.

Lemma find_go_Some r : forall l i x,
  find_go r l i = Some x -> exists a b rest, l = a ++ b /\ match_here r b = Some rest.
Proof.
  induction l as [|c t IH]; intros i x E; cbn [find_go] in E.
  - destruct (match_here r []) as [rest|] eqn:Em; [|discriminate]. by exists [], [], rest.
  - destruct (match_here r (c :: t)) as [rest|] eqn:Em.
    + by exists [], (c :: t), rest.
    + apply IH in E as (a & b & rest & -> & Hm). by exists (c :: a), b, rest.
Qed.

Lemma NewRedactor_patterns :
  Forall (fun p => anchored p = false /\ nullable (expr p) = false)
         (security.patterns security.NewRedactor).
Proof. repeat constructor. Qed.

(** Property X15. A text in which [Contains] finds none of the patterns is left by
    [Redact] as it is. *)
Theorem Redact_leaves_clean_text (text : string) :
  security.Contains security.NewRedactor text = false ->
  security.Redact security.NewRedactor text = text.
Proof.
  apply Redact_unmatched. eapply Forall_impl; [apply NewRedactor_patterns|].
  by intros p [? _].
Qed.

(** Property X16. A text in which [Contains] finds one of the patterns comes out of
    [Redact] with the placeholder in it. *)
Theorem Redact_marks_detected_text (text : string) :
  security.Contains security.NewRedactor text = true ->
  strings.Contains (security.Redact security.NewRedactor text) security.placeholder = true.
Proof.
  intros Hc. apply occurs_Contains. rewrite bytes_of_Redact.
  unfold security.Contains in Hc. apply existsb_exists in Hc as (p & Hin & Hm).
  pose proof NewRedactor_patterns as Hps. rewrite Forall_forall in Hps.
  destruct (Hps p) as [Ha Hn]; [by apply list_elem_of_In|].
  unfold MatchString, FindStringIndex in Hm. rewrite Ha in Hm.
  destruct (find_go (expr p) (bytes_of text) 0) as [x|] eqn:Ef; [|discriminate].
  apply find_go_Some in Ef as (a & b & rest & E & Hmatch).
  eapply redact_marked; [exact Hin|exact E|exact Hmatch|].
  by eapply match_here_progress.
Qed.

Lemma suggestion_at_candidate (hash i : Z) : In (mock.suggestion_at hash i) mock_candidates.
Proof.
  unfold mock.suggestion_at. cbv zeta.
  remember (((hash + i) mod 2 ^ 64) mod Z.of_nat (length mock.patterns))%Z as idx eqn:E.
  assert (Hr : (0 <= idx < 5)%Z).
  { subst idx. change (Z.of_nat (length mock.patterns)) with 5%Z. apply Z.mod_pos_bound. lia. }
  clear E.
  assert (idx = 0 \/ idx = 1 \/ idx = 2 \/ idx = 3 \/ idx = 4)%Z as [->|[->|[->|[->| ->]]]] by lia.
  - left. reflexivity.
  - right; left. reflexivity.
  - do 2 right; left. reflexivity.
  - do 3 right; left. reflexivity.
  - do 4 right; left. reflexivity.
Qed.

Section Mock.
Context {G R C : Type} `{!Git G, !Redactor R, !Cache C} {tables : UnicodeTables}.

Lemma mock_candidates_valid :
  Forall (fun c => domain.Validate (normalized c) = None /\ normalized c = of_port c)
         mock_candidates.
Proof. repeat constructor. Qed.

Lemma mock_answer_valid (hash : Z) :
  validateAndNormalize (List.map (mock.suggestion_at hash) [0; 1; 2]%Z)
  = Return (List.map of_port (List.map (mock.suggestion_at hash) [0; 1; 2]%Z)).
Proof.
  pose proof mock_candidates_valid as Hv. rewrite Forall_forall in Hv.
  assert (Hc : forall i, domain.Validate (normalized (mock.suggestion_at hash i)) = None
                         /\ normalized (mock.suggestion_at hash i)
                            = of_port (mock.suggestion_at hash i)).
  { intros i. apply Hv, list_elem_of_In, suggestion_at_candidate. }
  rewrite validateAndNormalize_eq. cbn [List.map].
  destruct (Hc 0%Z) as [-> ->], (Hc 1%Z) as [-> ->], (Hc 2%Z) as [-> ->]. reflexivity.
Qed.

(** Property X17. The mock provider answers every input with three candidates and
    no error, and its candidates pass validation as they are; so a call of
    [SuggestCommits] with the mock provider, a cap that is not negative, a
    staged diff and no entry in the cache returns three suggestions, the
    candidates of the answer. *)
Theorem mock_provider_passes_validation :
  (forall (c : mock.Client) (input : SuggestInput),
     let answer := fst (mock.SuggestCommits c input) in
     snd answer = None /\ length (fst answer) = 3%nat
     /\ validateAndNormalize (fst answer) = Return (List.map of_port (fst answer)))
  /\ (forall (s s2 s3 : SuggestService mock.Client G R C) provider model temperature diff,
        (0 <= diffCap s)%Z ->
        staged s diff s2 ->
        cache_probe (hashDiff diff provider model) s2 = (Return None, s3) ->
        exists capped,
          capDiff diff (diffCap s) = Return capped
          /\ (SuggestCommits provider model temperature s).1
             = Return (List.map of_port
                         (fst (fst (mock.SuggestCommits (llm s)
                                      (provider_input s capped model temperature)))))).
Proof.
  split.
  - intros c input answer. subst answer. unfold mock.SuggestCommits. cbn [fst snd].
    split; [done|]. split; [done|]. apply mock_answer_valid.
  - intros s s2 s3 provider model temperature diff Hcap Hst Hp.
    destruct (capDiff_nonneg diff (diffCap s) Hcap) as (capped & Ecap & _).
    exists capped. split; [done|].
    destruct Hst as (g1 & g2 & E1 & E2 & Hne & ->).
    destruct (cache_probe_fields _ _ _ _ Hp) as (Hl3 & Hg3 & Hr3 & Hd3 & Hu3 & _).
    cbn [llm redactor diffCap with_git] in *.
    destruct (cache_store_Return (hashDiff diff provider model)
                (List.map (mock.suggestion_at
                             (mock.hashString (StagedDiff (provider_input s3 capped model temperature))))
                          [0; 1; 2]%Z)
                (with_llm s3 (llm s3))) as (s5 & Es).
    erewrite Run_eq; [reflexivity|].
    assert (Hin : provider_input s3 capped model temperature
                  = provider_input s capped model temperature).
    { unfold provider_input. by rewrite Hr3. }
    rewrite <- Hin. unfold mock.SuggestCommits. cbn [fst].
    eapply Run_success.
    + by exists g1, g2.
    + exact Hp.
    + by rewrite Hd3.
    + cbn [LLM_SuggestCommits mock.Client_port]. unfold mock.SuggestCommits. reflexivity.
    + apply mock_answer_valid.
    + exact Es.
Qed.
End Mock.

Lemma byte_not_decimal (k : nat) :
  (k < 128)%nat ->
  String (chr (Z.of_nat k)) " secret(s)" <> fmt.d (Z.of_nat k) +:+ " secret(s)".
Proof.
  intros Hk. do 128 (destruct k as [|k]; [vm_compute; discriminate|]). lia.
Qed.

(** Property X18. [SummarizeRedactions] answers [no redactions] exactly when the two
    texts are equal. When they differ, the number of placeholders is not
    written in decimal: for a number below 128 the summary holds the single
    byte with that value in its place. *)
Theorem SummarizeRedactions_count_as_character (original redacted : string) :
  let n := strings.Count redacted "[REDACTED]" in
  (security.SummarizeRedactions original redacted = "no redactions" <-> original = redacted)
  /\ (original <> redacted -> (0 <= n < 128)%Z ->
      security.SummarizeRedactions original redacted
      = "removed " +:+ String (chr n) " secret(s)"
      /\ security.SummarizeRedactions original redacted
         <> "removed " +:+ fmt.d n +:+ " secret(s)").
Proof.
  intros n. unfold security.SummarizeRedactions. fold n. split.
  - destruct (String.eqb original redacted) eqn:E.
    + apply String.eqb_eq in E. done.
    + apply String.eqb_neq in E. split; [discriminate|done].
  - intros Hne Hn. apply String.eqb_neq in Hne. rewrite Hne.
    assert (Hr : security.rune_of_int n = n).
    { unfold security.rune_of_int. rewrite Z.mod_small; lia. }
    assert (He : utf8.EncodeRune n = String (chr n) EmptyString).
    { unfold utf8.EncodeRune, utf8.RuneSelf.
      replace ((0 <=? n) && (n <? 128))%Z with true; [done|].
      symmetry. apply andb_true_iff. split; [apply Z.leb_le|apply Z.ltb_lt]; lia. }
    rewrite Hr, He. split; [reflexivity|].
    intros E. cbn [String.append] in E. injection E as E.
    apply (byte_not_decimal (Z.to_nat n)); [lia|]. by rewrite Z2Nat.id by lia.
Qed.

Lemma Decode_size_le (c : ascii) (t : string) :
  (snd (utf8.DecodeRuneInString (String c t)) <= 4)%nat.
Proof.
  unfold utf8.DecodeRuneInString.
  replace (len (String c t) <? 1)%Z with false
    by (symmetry; apply Z.ltb_ge; unfold len; simpl; lia).
  repeat case_match; cbn; lia.
Qed.

Lemma length_slice_from (s : string) (i : Z) :
  (0 <= i <= len s)%Z -> len (slice_from s i) = (len s - i)%Z.
Proof.
  intros Hi. unfold slice_from, slice, len in *. rewrite <- !length_bytes_of in *.
  rewrite bytes_of_substring, length_take, length_drop. lia.
Qed.

Lemma Snip_loop_spec (s : string) (m : Z) : forall (fuel : nat) (n idx : Z),
  (0 <= idx <= len s)%Z -> (n <= m)%Z -> (len s - idx <= Z.of_nat fuel)%Z ->
  exists k,
    (0 <= k <= m - n)%Z
    /\ (idx + k <= observability.Snip_loop fuel s m n idx <= idx + 4 * k)%Z
    /\ (observability.Snip_loop fuel s m n idx <= len s)%Z
    /\ ((len s <= observability.Snip_loop fuel s m n idx)%Z \/ k = (m - n)%Z).
Proof.
  induction fuel as [|fuel IH]; intros n idx Hidx Hn Hfuel; cbn [observability.Snip_loop].
  { exists 0%Z. lia. }
  destruct (idx <? len s)%Z eqn:E1; [apply Z.ltb_lt in E1|apply Z.ltb_ge in E1; exists 0%Z; lia].
  destruct (m <=? n)%Z eqn:E2; [apply Z.leb_le in E2; exists 0%Z; lia|apply Z.leb_gt in E2].
  pose proof (length_slice_from s idx ltac:(lia)) as Hlen.
  destruct (slice_from s idx) as [|c t] eqn:Es; [unfold len in *; simpl in Hlen; lia|].
  destruct (Decode_size c t) as (_ & H1 & Ht & _).
  pose proof (Decode_size_le c t) as H4.
  destruct (utf8.DecodeRuneInString (String c t)) as [r size]. cbn [snd] in *.
  destruct (size <=? 0)%nat eqn:E3; [apply Nat.leb_le in E3; lia|].
  unfold len in Hlen at 1. simpl in Hlen.
  destruct (IH (n + 1)%Z (idx + Z.of_nat size)%Z) as (k & Hk & Hres & Hle & Hend); [lia..|].
  exists (k + 1)%Z. lia.
Qed.

(** Property X19. [Snip] returns the empty string for a cap that is not positive.
    For a positive cap it returns [s] itself, or a proper prefix of [s]
    followed by an ellipsis; that prefix has at least as many bytes as the
    cap and at most four times as many. A string that has no more bytes
    than the cap is returned as it is. *)
Theorem Snip_prefix (s : string) (maxRunes : Z) :
  ((maxRunes <= 0)%Z -> observability.Snip s maxRunes = "")
  /\ ((0 < maxRunes)%Z ->
      observability.Snip s maxRunes = s
      \/ exists p rest,
           s = p +:+ rest /\ rest <> ""
           /\ (maxRunes <= len p <= 4 * maxRunes)%Z
           /\ observability.Snip s maxRunes = p +:+ observability.ellipsis)
  /\ ((0 < maxRunes)%Z -> (len s <= maxRunes)%Z -> observability.Snip s maxRunes = s).
Proof.
  unfold observability.Snip.
  assert (Hloop : (0 < maxRunes)%Z ->
            let idx := observability.Snip_loop (String.length s) s maxRunes 0 0 in
            exists k, (0 <= k <= maxRunes)%Z /\ (k <= idx <= 4 * k)%Z /\ (idx <= len s)%Z
                      /\ ((len s <= idx)%Z \/ k = maxRunes)).
  { intros Hm idx.
    destruct (Snip_loop_spec s maxRunes (String.length s) 0 0) as (k & Hk & Hres & Hle & Hend);
      [unfold len; lia..|].
    exists k. fold idx in Hres, Hle, Hend. lia. }
  split; [|split].
  - intros Hm. apply Z.leb_le in Hm. by rewrite Hm.
  - intros Hm. destruct (Hloop Hm) as (k & Hk & Hres & Hle & Hend).
    apply Z.leb_gt in Hm as Hm'. rewrite Hm'.
    set (idx := observability.Snip_loop (String.length s) s maxRunes 0 0) in *.
    destruct (len s <=? idx)%Z eqn:E; [by left|apply Z.leb_gt in E].
    right. exists (slice s 0 idx), (slice_from s idx).
    split; [symmetry; apply slice_prefix; lia|]. split.
    + intros Er. pose proof (length_slice_from s idx ltac:(lia)) as Hl.
      rewrite Er in Hl. unfold len in Hl at 1. simpl in Hl. lia.
    + split; [|done]. rewrite len_slice_prefix by lia. lia.
  - intros Hm Hs. destruct (Hloop Hm) as (k & Hk & Hres & Hle & Hend).
    apply Z.leb_gt in Hm as Hm'. rewrite Hm'.
    set (idx := observability.Snip_loop (String.length s) s maxRunes 0 0) in *.
    destruct (len s <=? idx)%Z eqn:E; [done|apply Z.leb_gt in E]. lia.
Qed.

Lemma prefix_one (x y : ascii) (t : string) :
  String.prefix (one x) (String y t) = if ascii_dec x y then true else false.
Proof. unfold one. simpl. destruct (ascii_dec x y); [by destruct t|done]. Qed.

Lemma index_cons (s1 : string) (y : ascii) (t : string) :
  String.index 0 s1 (String y t)
  = if String.prefix s1 (String y t) then Some 0%nat
    else match String.index 0 s1 t with Some n => Some (S n) | None => None end.
Proof. reflexivity. Qed.

Lemma index_first_byte (x : ascii) (c : string) : forall a : string,
  byte_free x a -> String.index 0 (one x) (a +:+ String x c) = Some (String.length a).
Proof.
  unfold byte_free. induction a as [|y a IH]; intros Hfree.
  - change ("" +:+ String x c) with (String x c).
    rewrite index_cons, prefix_one. by destruct (ascii_dec x x).
  - cbn [bytes_of] in Hfree. apply not_elem_of_cons in Hfree as [Hne Hfree].
    change (String y a +:+ String x c) with (String y (a +:+ String x c)).
    rewrite index_cons, prefix_one.
    destruct (ascii_dec x y) as [->|_]; [done|]. by rewrite (IH Hfree).
Qed.

Lemma index_absent (x : ascii) : forall s : string,
  byte_free x s -> String.index 0 (one x) s = None.
Proof.
  unfold byte_free. induction s as [|y s IH]; intros Hfree; [done|].
  cbn [bytes_of] in Hfree. apply not_elem_of_cons in Hfree as [Hne Hfree].
  rewrite index_cons, prefix_one.
  destruct (ascii_dec x y) as [->|_]; [done|]. by rewrite (IH Hfree).
Qed.

Lemma Index_first_byte (x : ascii) (a c : string) :
  byte_free x a -> strings.Index (a +:+ String x c) (one x) = len a.
Proof. intros H. unfold strings.Index. by rewrite index_first_byte. Qed.

Lemma Index_absent (x : ascii) (s : string) :
  byte_free x s -> strings.Index s (one x) = (-1)%Z.
Proof. intros H. unfold strings.Index. by rewrite index_absent. Qed.

Lemma Contains_first_byte (x : ascii) (a c : string) :
  byte_free x a -> strings.Contains (a +:+ String x c) (one x) = true.
Proof. intros H. unfold strings.Contains. by rewrite index_first_byte. Qed.

Lemma Contains_absent (x : ascii) (s : string) :
  byte_free x s -> strings.Contains s (one x) = false.
Proof. intros H. unfold strings.Contains. by rewrite index_absent. Qed.

Lemma byte_free_app (x : ascii) (a b : string) :
  byte_free x (a +:+ b) <-> byte_free x a /\ byte_free x b.
Proof. unfold byte_free. rewrite bytes_of_app, elem_of_app. tauto. Qed.

Lemma byte_free_cons (x y : ascii) (s : string) :
  byte_free x (String y s) <-> x <> y /\ byte_free x s.
Proof. unfold byte_free. cbn [bytes_of]. by rewrite not_elem_of_cons. Qed.

Lemma byte_free_nil (x : ascii) : byte_free x "".
Proof. unfold byte_free. cbn. apply not_elem_of_nil. Qed.

Ltac solve_free :=
  repeat first [ assumption
               | apply byte_free_nil
               | apply byte_free_cons; split; [unfold newline; congruence|]
               | apply byte_free_app; split ].

Lemma byte_split (x : ascii) (s : string) :
  byte_free x s \/ exists a c, s = a +:+ String x c /\ byte_free x a.
Proof.
  destruct (decide (x ∈ bytes_of s)) as [Hin|Hnot]; [right|by left].
  apply list_elem_of_split_l in Hin as (l1 & l2 & E & Hfree).
  exists (of_bytes l1), (of_bytes l2). split.
  - apply bytes_of_inj. rewrite bytes_of_app. cbn [bytes_of].
    by rewrite !list_ascii_of_string_of_list_ascii.
  - unfold byte_free. by rewrite list_ascii_of_string_of_list_ascii.
Qed.

Lemma slice_middle (a b c : string) :
  slice (a +:+ b +:+ c) (len a) (len a + len b) = b.
Proof.
  apply bytes_of_inj. unfold slice, len. rewrite bytes_of_substring, !bytes_of_app.
  rewrite Nat2Z.id. replace (Z.to_nat _) with (String.length b) by lia.
  rewrite <- !length_bytes_of. by rewrite drop_app_length, take_app_length.
Qed.

Lemma slice_front (a c : string) : slice (a +:+ c) 0 (len a) = a.
Proof.
  pose proof (slice_middle "" a c) as H. cbn in H.
  replace (len a) with (0 + len a)%Z by lia. exact H.
Qed.

Lemma Count_go_ge (sep : string) : forall fuel s n, (n <= strings.Count_go fuel s sep n)%Z.
Proof.
  induction fuel as [|fuel IH]; intros s n; cbn [strings.Count_go]; [lia|].
  destruct (_ =? _)%Z; [lia|]. specialize (IH (slice_from s (strings.Index s sep + len sep)) (n + 1)%Z).
  lia.
Qed.

(** The first line of [pre +:+ tail], for a [pre] without a newline. *)
Lemma Split_first_line (pre tail : string) :
  byte_free newline pre ->
  exists t1 rest,
    strings.Split (pre +:+ tail) (one newline) = (pre +:+ t1) :: rest.
Proof.
  intros Hpre. unfold strings.Split.
  destruct (byte_split newline tail) as [Hfree|(t1 & t2 & -> & Hfree)].
  - exists tail, [].
    assert (Hi : strings.Index (pre +:+ tail) (one newline) = (-1)%Z).
    { apply Index_absent. by apply byte_free_app. }
    destruct (Z.to_nat _); cbn [strings.Split_go]; [done|]. by rewrite Hi.
  - assert (Hi : strings.Index (pre +:+ t1 +:+ String newline t2) (one newline)
                 = len (pre +:+ t1)).
    { rewrite <- append_assoc. apply Index_first_byte. by apply byte_free_app. }
    assert (Hc : (1 <= strings.Count (pre +:+ t1 +:+ String newline t2) (one newline))%Z).
    { unfold strings.Count. change (len (one newline) =? 0)%Z with false.
      cbn [strings.Count_go]. rewrite Hi.
      destruct (_ =? _)%Z eqn:E; [apply Z.eqb_eq in E; unfold len in E; lia|].
      apply (Count_go_ge _ _ _ 1%Z). }
    destruct (Z.to_nat _) as [|n] eqn:En; [lia|].
    cbn [strings.Split_go]. rewrite Hi.
    destruct (_ <? 0)%Z eqn:E; [apply Z.ltb_lt in E; unfold len in E; lia|].
    eexists t1, _. f_equal. rewrite <- append_assoc. apply slice_front.
Qed.

Lemma Split_go_byte_free (x : ascii) (sep : string) : forall n s,
  byte_free x s -> Forall (byte_free x) (strings.Split_go n s sep).
Proof.
  assert (Hsub : forall s i j, byte_free x s -> byte_free x (slice s i j)).
  { intros s i j Hs Hin. apply Hs. unfold slice in Hin. rewrite bytes_of_substring in Hin.
    rewrite <- (take_drop (Z.to_nat i) (bytes_of s)), elem_of_app. right.
    rewrite <- (take_drop (Z.to_nat (j - i)) (drop _ _)), elem_of_app. by left. }
  induction n as [|n IH]; intros s Hs; cbn [strings.Split_go]; [by repeat constructor|].
  destruct (_ <? 0)%Z; [by repeat constructor|].
  constructor; [by apply Hsub|]. apply IH. by apply Hsub.
Qed.

Lemma extractCommitHash_lines_none (lines : list string) :
  Forall (fun line => byte_free "[" line \/ byte_free "]" line) lines ->
  git.extractCommitHash_lines lines = Return "".
Proof.
  induction 1 as [|line lines [Hl|Hl] _ IH]; [done|..]; cbn [git.extractCommitHash_lines].
  - change "["%string with (one "["). by rewrite (Contains_absent _ _ Hl).
  - change "]"%string with (one "]"). rewrite (Contains_absent _ _ Hl).
    by rewrite andb_false_r.
Qed.

(** The answer of [extractCommitHash] at a first line that starts with a
    bracketed part. *)
Lemma extractCommitHash_second (content tail p0 p1 : string) (more : list string) :
  byte_free "[" content -> byte_free "]" content -> byte_free newline content ->
  strings.Fields content = p0 :: p1 :: more ->
  git.extractCommitHash ("[" +:+ content +:+ "]" +:+ tail) = Return p1.
Proof.
  intros Ho Hc Hn Hf. unfold git.extractCommitHash.
  destruct (Split_first_line ("[" +:+ content +:+ "]") tail) as (t1 & rest & E).
  { solve_free. }
  assert (Eout : "[" +:+ content +:+ "]" +:+ tail = ("[" +:+ content +:+ "]") +:+ tail)
    by (rewrite !append_assoc; reflexivity).
  assert (Eline : ("[" +:+ content +:+ "]") +:+ t1 = String "[" (content +:+ String "]" t1))
    by (rewrite !append_assoc; reflexivity).
  change (String "010" "") with (one newline). rewrite Eout, E, Eline.
  cbn [git.extractCommitHash_lines].
  set (line := String "[" (content +:+ String "]" t1)).
  assert (H1 : strings.Contains line "[" = true)
    by apply (Contains_first_byte "[" "" _ (byte_free_nil _)).
  assert (H2 : strings.Index line "[" = 0%Z)
    by apply (Index_first_byte "[" "" _ (byte_free_nil _)).
  assert (Hfree : byte_free "]" (String "[" content)) by solve_free.
  assert (H3 : strings.Contains line "]" = true) by apply (Contains_first_byte "]" (String "[" content) t1 Hfree).
  assert (H4 : strings.Index line "]" = len (String "[" content))
    by apply (Index_first_byte "]" (String "[" content) t1 Hfree).
  rewrite H1, H3, H2, H4. cbn [andb].
  assert (Hl : len (String "[" content) = (1 + len content)%Z) by (unfold len; simpl; lia).
  rewrite Hl.
  replace ((0 =? -1)%Z) with false by done.
  replace ((1 + len content =? -1)%Z) with false by (symmetry; apply Z.eqb_neq; unfold len; lia).
  replace ((1 + len content <? 0 + 1)%Z) with false by (symmetry; apply Z.ltb_ge; unfold len; lia).
  cbn [negb andb].
  assert (Hs : slice line (0 + 1) (1 + len content) = content).
  { apply (slice_middle "[" content (String "]" t1)). }
  by rewrite Hs, Hf.
Qed.

(** The panic of [extractCommitHash] at a first line with the closing
    bracket before the opening one. *)
Lemma extractCommitHash_panic (a b c : string) :
  byte_free "[" a -> byte_free "]" a -> byte_free newline a ->
  byte_free "[" b -> byte_free newline b ->
  git.extractCommitHash (a +:+ "]" +:+ b +:+ "[" +:+ c)
  = Panic ("runtime error: slice bounds out of range ["
           +:+ fmt.d (len a + len b + 2) +:+ ":" +:+ fmt.d (len a) +:+ "]").
Proof.
  intros Hao Hac Han Hbo Hbn. unfold git.extractCommitHash.
  destruct (Split_first_line (a +:+ "]" +:+ b +:+ "[") c) as (t1 & rest & E).
  { solve_free. }
  assert (Eout : a +:+ "]" +:+ b +:+ "[" +:+ c = (a +:+ "]" +:+ b +:+ "[") +:+ c)
    by (rewrite !append_assoc; reflexivity).
  assert (Eline : (a +:+ "]" +:+ b +:+ "[") +:+ t1 = a +:+ String "]" (b +:+ String "[" t1))
    by (rewrite !append_assoc; reflexivity).
  change (String "010" "") with (one newline). rewrite Eout, E, Eline.
  cbn [git.extractCommitHash_lines].
  set (line := a +:+ String "]" (b +:+ String "[" t1)).
  assert (H3 : strings.Contains line "]" = true) by apply (Contains_first_byte "]" a _ Hac).
  assert (H4 : strings.Index line "]" = len a) by apply (Index_first_byte "]" a _ Hac).
  assert (Hfree : byte_free "[" (a +:+ String "]" b)) by solve_free.
  assert (Hline : line = (a +:+ String "]" b) +:+ String "[" t1).
  { unfold line. rewrite append_assoc. done. }
  assert (H1 : strings.Contains line "[" = true)
    by (rewrite Hline; apply (Contains_first_byte "[" _ _ Hfree)).
  assert (H2 : strings.Index line "[" = len (a +:+ String "]" b))
    by (rewrite Hline; apply (Index_first_byte "[" _ _ Hfree)).
  rewrite H1, H3, H2, H4. cbn [andb].
  assert (Hl : len (a +:+ String "]" b) = (len a + len b + 1)%Z).
  { unfold len. rewrite length_append. simpl. lia. }
  rewrite Hl.
  replace ((len a + len b + 1 =? -1)%Z) with false by (symmetry; apply Z.eqb_neq; unfold len; lia).
  replace ((len a =? -1)%Z) with false by (symmetry; apply Z.eqb_neq; unfold len; lia).
  replace ((len a <? len a + len b + 1 + 1)%Z) with true by (symmetry; apply Z.ltb_lt; unfold len; lia).
  cbn [negb andb]. do 4 f_equal. lia.
Qed.

(** Property X20. [extractCommitHash] returns the second field of what stands
    between the brackets at the start of the output, whatever that field
    is; it panics when the first closing bracket of the first line stands
    before its first opening bracket; it returns the empty string when the
    output has no opening or no closing bracket. *)
Theorem extractCommitHash_brackets :
  (forall content tail p0 p1 more,
     byte_free "[" content -> byte_free "]" content -> byte_free newline content ->
     strings.Fields content = p0 :: p1 :: more ->
     git.extractCommitHash ("[" +:+ content +:+ "]" +:+ tail) = Return p1)
  /\ (forall a b c,
        byte_free "[" a -> byte_free "]" a -> byte_free newline a ->
        byte_free "[" b -> byte_free newline b ->
        exists msg, git.extractCommitHash (a +:+ "]" +:+ b +:+ "[" +:+ c) = Panic msg)
  /\ (forall output,
        byte_free "[" output \/ byte_free "]" output ->
        git.extractCommitHash output = Return "").
Proof.
  split; [|split].
  - apply extractCommitHash_second.
  - intros a b c Hao Hac Han Hbo Hbn. eexists. by apply extractCommitHash_panic.
  - intros output Hfree. unfold git.extractCommitHash. apply extractCommitHash_lines_none.
    unfold strings.Split.
    destruct Hfree as [Hfree|Hfree];
      (eapply Forall_impl; [by apply Split_go_byte_free|]); intros line Hl; tauto.
Qed.

Section CommitFiles.
Context {W : Type} `{!git.OS W, !git.Files W}.

(** Property X21. Once its temporary file is created, [Commit] of the git executor
    ends by removing that file, whatever happens. When the message is
    written: a dry run returns [[DRY RUN] Would commit:] and the message
    and runs no command; otherwise, when [git commit] succeeds, the
    answer is the one of [extractCommitHash] on its output (the second
    field between the brackets, the placeholder [[commit created]] when the
    output has no brackets), and a line with the closing bracket first makes
    [Commit] panic after the commit was made. *)
Theorem Commit_temp_file_and_hash (e : git.Executor W) (message tmp : string) (w1 : W) :
  git.CreateTemp (git.world e) "" "commit-coach-*.txt" = ((tmp, None), w1) ->
  let at_ w := {| git.timeout := git.timeout e; git.world := w |} in
  (forall dryRun, exists w', snd (git.Commit e message dryRun) = at_ (git.Remove w' tmp))
  /\ forall w2,
       git.File_WriteString w1 tmp message = (None, w2) ->
       let w3 := git.File_Close w2 tmp in
       git.Commit e message true
       = (Return ("[DRY RUN] Would commit:" +:+ String newline "" +:+ message),
          at_ (git.Remove w3 tmp))
       /\ forall output w4,
            git.Cmd_Output w3 "git" ["commit"; "-F"; tmp] = ((output, None), w4) ->
            snd (git.Commit e message false) = at_ (git.Remove w4 tmp)
            /\ (forall content tail p0 p1 more,
                  byte_free "[" content -> byte_free "]" content ->
                  byte_free newline content ->
                  strings.Fields content = p0 :: p1 :: more ->
                  output = "[" +:+ content +:+ "]" +:+ tail ->
                  fst (git.Commit e message false)
                  = Return (if String.eqb p1 "" then "[commit created]" else p1))
            /\ (forall a b c,
                  byte_free "[" a -> byte_free "]" a -> byte_free newline a ->
                  byte_free "[" b -> byte_free newline b ->
                  output = a +:+ "]" +:+ b +:+ "[" +:+ c ->
                  exists msg, fst (git.Commit e message false) = Panic msg)
            /\ (byte_free "[" output \/ byte_free "]" output ->
                fst (git.Commit e message false) = Return "[commit created]").
Proof.
  intros Ecreate at_. split.
  - intros dryRun. unfold git.Commit. rewrite Ecreate.
    destruct (git.File_WriteString w1 tmp message) as [[err|] w2]; [by eexists|].
    destruct dryRun; [by eexists|].
    destruct (git.Cmd_Output _ _ _) as [[output [err|]] w4].
    + by eexists.
    + destruct (git.extractCommitHash output); by eexists.
  - intros w2 Ewrite w3. split.
    { unfold git.Commit. rewrite Ecreate, Ewrite. reflexivity. }
    intros output w4 Egit.
    assert (Hc : git.Commit e message false
                 = (match git.extractCommitHash output with
                    | Return hash =>
                        Return (if String.eqb hash "" then "[commit created]" else hash)
                    | Fail err => Fail err
                    | Panic msg => Panic msg
                    end, at_ (git.Remove w4 tmp))).
    { unfold git.Commit. rewrite Ecreate, Ewrite. fold w3. rewrite Egit.
      by destruct (git.extractCommitHash output). }
    rewrite Hc. cbn [fst snd]. split; [done|]. split; [|split].
    + intros content tail p0 p1 more H1 H2 H3 Hf ->.
      by rewrite (extractCommitHash_second content tail p0 p1 more).
    + intros a b c H1 H2 H3 H4 H5 ->. rewrite (extractCommitHash_panic a b c) by done. eauto.
    + intros Hfree. unfold git.extractCommitHash. rewrite extractCommitHash_lines_none; [done|].
      unfold strings.Split.
      destruct Hfree as [Hfree|Hfree];
        (eapply Forall_impl; [by apply Split_go_byte_free|]); intros line Hl; tauto.
Qed.
End CommitFiles.

Ltac free := unfold byte_free, newline; cbn; intros Hin;
  repeat (apply elem_of_cons in Hin as [Hin|Hin]; [discriminate Hin|]);
  by apply elem_of_nil in Hin.

Lemma negative_cap_panics_witness :
  (diffCap negative_cap_service < 0)%Z
  /\ exists msg, example_call negative_cap_service = (Panic msg, negative_cap_service).
Proof.
  split; [reflexivity|].
  destruct (negative_cap_panics (tables := example_tables)
              negative_cap_service negative_cap_service negative_cap_service
              "openai" gpt_4o_mini temperature_0_7 sample_diff None) as [H _].
  - reflexivity.
  - apply (example_staged sample_diff (-1) example_llm (Some cache.NewInMemory)). discriminate.
  - rewrite (probe_InMemory negative_cap_service cache.NewInMemory _ eq_refl eq_refl).
    unfold cache.NewInMemory. cbn [cache.cache]. by rewrite lookup_empty.
  - exact H.
Defined.

Lemma caching_disabled_witness :
  let s := uncached_service sample_diff in
  useCache s = false
  /\ cache (example_call s).2 = cache s
  /\ exists input, seen (llm (example_call s).2) = seen (llm s) ++ [input].
Proof.
  intros s. split; [reflexivity|].
  destruct (caching_disabled (tables := example_tables) s "openai" gpt_4o_mini temperature_0_7
              (or_introl eq_refl)) as [Hc Hp].
  split; [exact Hc|].
  destruct (Hp sample_diff s) as (capped & _ & Hseen).
  - exists (example_git sample_diff), (example_git sample_diff).
    split; [reflexivity|]. split; [reflexivity|]. split; [discriminate|reflexivity].
  - cbn. lia.
  - eexists. exact Hseen.
Defined.

Lemma cache_stays_valid_witness :
  cache_valid (tables := example_tables)
    (cache (example_call (example_service sample_diff 8192)).2).
Proof.
  apply (cache_stays_valid (tables := example_tables)).
  intros m key cands [= <-] Hlook. unfold cache.NewInMemory in Hlook. cbn [cache.cache] in Hlook.
  rewrite lookup_empty in Hlook. discriminate Hlook.
Defined.

Lemma Executor_staged_diff_witness :
  fst (@SuggestCommits _ _ _ _ _ (git.Executor_port (no_commit_at BrokenDiff)) _ _ example_tables
         "openai" gpt_4o_mini temperature_0_7 broken_diff_service)
  = Fail (fmt.Errorf_w "failed to read staged diff: "
            (fmt.Errorf_w "git diff failed: " (errorString "exit status 128"))).
Proof.
  pose proof (Executor_staged_diff (tables := example_tables) (no_commit_at BrokenDiff)
                broken_diff_service "openai" gpt_4o_mini temperature_0_7
                (String.append "true" (String newline EmptyString)) EmptyString
                (Some (errorString "exit status 128")) broken_diff broken_diff
                eq_refl eq_refl eq_refl) as [H _].
  exact H.
Defined.

Lemma control_bytes_rejected_witness :
  escape ∈ bytes_of (domain.Subject coloured_subject)
  /\ is_Some (domain.Validate (tables := example_tables) coloured_subject).
Proof.
  assert (Hin : escape ∈ bytes_of (domain.Subject coloured_subject)).
  { cbn. do 7 right. left. }
  split; [exact Hin|].
  apply (control_bytes_rejected (tables := example_tables) coloured_subject
           (domain.Subject coloured_subject) escape).
  - left. reflexivity.
  - exact Hin.
  - left. vm_compute. repeat split; discriminate.
Defined.

Lemma valid_header_line_witness :
  domain.Validate (tables := example_tables) plain_suggestion = None
  /\ single_line (header plain_suggestion)
  /\ (len (header plain_suggestion) <= 82)%Z.
Proof.
  assert (Hv : domain.Validate (tables := example_tables) plain_suggestion = None)
    by (vm_compute; reflexivity).
  split; [exact Hv|].
  destruct (valid_header_line (tables := example_tables) plain_suggestion Hv) as (H1 & H2 & _).
  split; [exact H1|apply H2].
Defined.

Lemma Redact_leaves_clean_text_witness :
  security.Redact security.NewRedactor
    "func apiHandler(w http.ResponseWriter, r *http.Request) {}"
  = "func apiHandler(w http.ResponseWriter, r *http.Request) {}".
Proof. apply Redact_leaves_clean_text. vm_compute. reflexivity. Defined.

Lemma Redact_marks_detected_text_witness :
  strings.Contains (security.Redact security.NewRedactor "key AKIA1234567890ABCDEF end")
    security.placeholder = true.
Proof. apply Redact_marks_detected_text. vm_compute. reflexivity. Defined.

Lemma fingerprint_namespace_witness :
  hashDiff "diff" "openai" "gpt-4o" <> hashDiff "diff" "groq" "gpt-4o"
  \/ sha256_collision (fingerprint_input "diff" "openai" "gpt-4o")
                      (fingerprint_input "diff" "groq" "gpt-4o").
Proof.
  destruct fingerprint_namespace as (_ & _ & H).
  apply H; try (by free). discriminate.
Defined.

Lemma extractCommitHash_brackets_witness :
  git.extractCommitHash root_commit_output = Return "(root-commit)".
Proof.
  destruct extractCommitHash_brackets as (H & _ & _).
  apply (H "main (root-commit) 1a2b3c4"
           (" initial commit" +:+ String newline " 1 file changed")
           "main" "(root-commit)" ["1a2b3c4"]); try (by free).
  vm_compute. reflexivity.
Defined.

Lemma Commit_temp_file_and_hash_witness :
  let e := git.NewExecutor {| trace := [] |} in
  git.Commit e "fix: handle nil pointer" true
  = (Return ("[DRY RUN] Would commit:" +:+ String newline "" +:+ "fix: handle nil pointer"),
     {| git.timeout := git.timeout e;
        git.world := {| trace := ["create"; "write"; "close"; "remove"] |} |})
  /\ fst (git.Commit e "fix: handle nil pointer" false) = Return "abc123d".
Proof.
  intros e.
  assert (Hcreate : git.CreateTemp (git.world e) "" "commit-coach-*.txt"
                    = (("/tmp/commit-coach-1.txt", None), traced {| trace := [] |} "create"))
    by reflexivity.
  destruct (Commit_temp_file_and_hash e "fix: handle nil pointer" "/tmp/commit-coach-1.txt"
              (traced {| trace := [] |} "create") Hcreate) as [_ H].
  destruct (H (traced (traced {| trace := [] |} "create") "write")) as [Hdry Hrun];
    [reflexivity|].
  split; [exact Hdry|].
  edestruct Hrun as (_ & Hhash & _); [reflexivity|].
  apply (Hhash "main abc123d" (" fix: handle nil pointer" +:+ String newline " 1 file changed")
           "main" "abc123d" []); try (by free); vm_compute; reflexivity.
Defined.

Lemma byte_chr (n : Z) : (0 <= n < 256)%Z -> byte (chr n) = n.
Proof.
  intros Hn. unfold byte, chr. rewrite N_ascii_embedding by lia. lia.
Qed.

Lemma hex_digit_digit (n : Z) : (0 <= n < 16)%Z -> hex_digit (hex.digit n).
Proof.
  intros Hn. unfold hex.digit, hex_digit.
  destruct (n <? 10)%Z eqn:E; [apply Z.ltb_lt in E|apply Z.ltb_ge in E];
    rewrite byte_chr by lia; lia.
Qed.

Lemma hex_x_digits (b : list Z) :
  Forall is_byte b ->
  String.length (hex.x b) = (2 * length b)%nat /\ Forall hex_digit (bytes_of (hex.x b)).
Proof.
  induction 1 as [|n b Hn _ [IH1 IH2]]; [by split; [|constructor]|].
  unfold is_byte in Hn. cbn [hex.x String.length bytes_of length]. split; [lia|].
  constructor; [|constructor; [|done]].
  - apply hex_digit_digit. rewrite Z.shiftr_div_pow2 by lia.
    split; [apply Z.div_pos; lia|apply Z.div_lt_upper_bound; lia].
  - apply hex_digit_digit. change 0xF%Z with (Z.ones 4). rewrite Z.land_ones by lia.
    apply Z.mod_pos_bound. lia.
Qed.

Lemma round_length (st : list Z) (kw : Z * Z) : length (sha256.round st kw) = length st.
Proof.
  unfold sha256.round. do 9 (destruct st as [|? st]; [reflexivity|]). reflexivity.
Qed.

Lemma rounds_length (l : list (Z * Z)) : forall st,
  length (List.fold_left sha256.round l st) = length st.
Proof.
  induction l as [|kw l IH]; intros st; [done|]. simpl. by rewrite IH, round_length.
Qed.

Lemma block_length (st blk : list Z) : length (sha256.block st blk) = length st.
Proof.
  unfold sha256.block. rewrite length_map, length_combine, rounds_length. lia.
Qed.

Lemma blocks_length (n : nat) : forall st l, length (sha256.blocks n st l) = length st.
Proof.
  induction n as [|n IH]; intros st l; [done|]. simpl. by rewrite IH, block_length.
Qed.

Lemma Sum256_length (s : string) : length (sha256.Sum256 s) = 32%nat.
Proof.
  unfold sha256.Sum256. cbv zeta.
  match goal with |- context [sha256.blocks ?n ?st ?l] =>
    pose proof (blocks_length n st l) as Hl; set (state := sha256.blocks n st l) in * end.
  change (length sha256.init) with 8%nat in Hl.
  do 8 (destruct state as [|? state]; [discriminate Hl|]).
  destruct state; [reflexivity|discriminate Hl].
Qed.

(** Property X24. The fingerprint is a string of 64 digits of the
    lower-case hexadecimal notation, whatever the diff, the provider and
    the model are. *)
Theorem hashDiff_is_64_hex_digits (diff provider model : string) :
  String.length (hashDiff diff provider model) = 64%nat
  /\ Forall hex_digit (bytes_of (hashDiff diff provider model)).
Proof.
  rewrite hashDiff_eq.
  destruct (hex_x_digits (sha256.Sum256 (fingerprint_input diff provider model)))
    as [Hlen Hdigits]; [apply Sum256_range|].
  rewrite Sum256_length in Hlen. done.
Qed.

Section Silent.
Context {L G R C : Type} `{!LLM L, !Git G, !Redactor R, !Cache C} {tables : UnicodeTables}.

(** Property X23. When the repository check or the read of the staged diff
    does not go through, or the staged diff is empty, [SuggestCommits]
    returns an error and has called neither the provider nor the cache. *)
Theorem entry_failure_is_silent (s : Observed L G R C) (provider model : string)
    (temperature : float32) :
  (forall diff s2, ~ staged s diff s2) ->
  let o := (SuggestCommits provider model temperature s).1 in
  let s' := (SuggestCommits provider model temperature s).2 in
  (exists e, o = Fail e)
  /\ seen (llm s') = seen (llm s) /\ inner (llm s') = inner (llm s)
  /\ cache s' = cache s.
Proof.
  intros Hno o s'. pose proof (SuggestCommits_Run s provider model temperature) as HR.
  fold o s' in HR.
  run_cases HR; try (by destruct (Hno _ _ Hst)); eauto.
Qed.
End Silent.

Lemma entry_failure_is_silent_witness :
  exists e, (example_call nothing_staged_service).1 = Fail e
            /\ seen (llm (example_call nothing_staged_service).2) = [].
Proof.
  destruct (entry_failure_is_silent (tables := example_tables) nothing_staged_service
              "openai" gpt_4o_mini temperature_0_7) as ([e He] & Hseen & _).
  - intros diff s2 (g1 & g2 & E1 & E2 & Hne & _).
    injection E1 as <-. injection E2 as <- _. apply Hne. reflexivity.
  - exists e. split; [exact He|exact Hseen].
Defined.
